(** * YatRL2025: dynamic-programming solvers and TD learners on grid worlds

    A shallow embedding of [Homework1/source/algorithm.py],
    [Homework2/source/algorithm.py] and [Homework2/source/cliffwalk.py].

    Numbers.  The Python code computes with floats; the embedding uses the
    canonical rationals [Qc], i.e. exact arithmetic with Leibniz equality.
    Dictionaries keyed by states are [gmap]s; the small per-state
    dictionaries keyed by actions, whose iteration order decides ties, are
    ordered association lists.  Exceptions are values of [exn]; unbounded
    [while] loops take a fuel argument and report when it runs out.  The
    global [random] module is an explicit tape of draws. *)

From Stdlib Require Import ZArith QArith Qcanon Qcabs Lia.
From stdpp Require Import gmap strings list.

(** ** Python values shared by both homeworks *)

Module Py.

(** A grid cell [(row, col)]. *)
Abbreviation State := (Z * Z)%type.

(** An action label such as ['N'], ['S'], ['W'], ['E']. *)
Abbreviation Action := string.

(** The exceptions the modelled code can raise. *)
Inductive exn : Type :=
  | ValueError
  | KeyError
  | IndexError
  | ZeroDivisionError.

(** The result of a call that cannot loop: a value or a raised
    exception. *)
Inductive returned (A : Type) : Type :=
  | Return (a : A)
  | Raise (e : exn).
Arguments Return {A} a.
Arguments Raise {A} e.

(** The outcome of a computation: a value, a raised exception, or fuel
    exhausted inside an unbounded loop. *)
Inductive outcome (A : Type) : Type :=
  | Ok (a : A)
  | Raised (e : exn)
  | OutOfFuel.
Arguments Ok {A} a.
Arguments Raised {A} e.
Arguments OutOfFuel {A}.

Definition bind {A B : Type} (m : outcome A) (k : A -> outcome B) : outcome B :=
  match m with
  | Ok a => k a
  | Raised e => Raised e
  | OutOfFuel => OutOfFuel
  end.

(** A call made inside a computation. *)
Definition call {A : Type} (r : returned A) : outcome A :=
  match r with
  | Return a => Ok a
  | Raise e => Raised e
  end.

(** [d[k]] on a state-keyed dictionary: [KeyError] when absent. *)
Definition getitem {V : Type} (d : gmap State V) (k : State) : outcome V :=
  match d !! k with
  | Some x => Ok x
  | None => Raised KeyError
  end.

(** Comparisons on numbers, as booleans. *)
Definition Qcltb (x y : Qc) : bool :=
  match (x ?= y)%Qc with Lt => true | _ => false end.

Definition Qceqb (x y : Qc) : bool :=
  match (x ?= y)%Qc with Eq => true | _ => false end.

(** Python's two-argument [max(a, b)]: [b] only when it is strictly
    greater. *)
Definition pymax2 (a b : Qc) : Qc := if Qcltb a b then b else a.

(** [x ** n] for an integer exponent: a negative power of zero raises. *)
Definition pypow (x : Qc) (n : Z) : outcome Qc :=
  if (0 <=? n)%Z then Ok (x ^ Z.to_nat n)%Qc
  else if Qceqb x 0%Qc then Raised ZeroDivisionError
  else Ok (/ (x ^ Z.to_nat (- n)))%Qc.

(** *** Ordered dictionaries keyed by actions *)

(** A Python [dict] from actions to numbers, in insertion order. *)
Abbreviation adict := (list (string * Qc)).

(** [d.keys()]. *)
Definition adict_keys (d : adict) : list Action := fst <$> d.

Fixpoint adict_get (d : adict) (k : Action) : option Qc :=
  match d with
  | [] => None
  | (k', x) :: d' => if String.eqb k' k then Some x else adict_get d' k
  end.

(** [d[k] = x]: overwrite in place, or append a new key at the end. *)
Fixpoint adict_set (d : adict) (k : Action) (x : Qc) : adict :=
  match d with
  | [] => [(k, x)]
  | (k', y) :: d' =>
      if String.eqb k' k then (k', x) :: d' else (k', y) :: adict_set d' k x
  end.

Definition adict_getitem (d : adict) (k : Action) : outcome Qc :=
  match adict_get d k with
  | Some x => Ok x
  | None => Raised KeyError
  end.

(** The loop of [max(iterable, key=...)]: the running best is replaced
    only by a strictly greater key, so the first maximal item wins. *)
Fixpoint max_by_loop (best : Action) (best_q : Qc) (d : adict) : Action :=
  match d with
  | [] => best
  | (a, q) :: d' =>
      if Qcltb best_q q then max_by_loop a q d' else max_by_loop best best_q d'
  end.

(** [max(d, key=d.get)]; [ValueError] on an empty dictionary. *)
Definition adict_argmax (d : adict) : outcome Action :=
  match d with
  | [] => Raised ValueError
  | (a, q) :: d' => Ok (max_by_loop a q d')
  end.

Fixpoint max_loop (best : Qc) (l : list Qc) : Qc :=
  match l with
  | [] => best
  | q :: l' => if Qcltb best q then max_loop q l' else max_loop best l'
  end.

(** [max(d.values())]; [ValueError] on an empty dictionary. *)
Definition adict_max_value (d : adict) : outcome Qc :=
  match d with
  | [] => Raised ValueError
  | (_, q) :: d' => Ok (max_loop q (map snd d'))
  end.

(** [{action: 0.0 for action in keys}]. *)
Definition zero_row (keys : list Action) : adict :=
  fold_left (fun d action => adict_set d action 0%Qc) keys [].

(** *** The [random] module *)

(** One draw of the generator, read either as the float of
    [random.uniform(0, 1)] or as the index behind [random.choice]. *)
Record draw : Type := { as_uniform : Qc; as_index : nat }.

(** The generator: an infinite tape of draws and a cursor. *)
Record Random : Type := { tape : nat -> draw; cursor : nat }.

Definition advance (g : Random) : Random :=
  {| tape := tape g; cursor := S (cursor g) |}.

(** [random.uniform(0, 1)]. *)
Definition random_uniform (g : Random) : Qc * Random :=
  (as_uniform (tape g (cursor g)), advance g).

(** [random.choice(seq)]: [IndexError] on an empty sequence. *)
Definition random_choice {A : Type} (l : list A) (g : Random) : outcome A * Random :=
  match l !! (as_index (tape g (cursor g)) mod length l)%nat with
  | Some x => (Ok x, advance g)
  | None => (Raised IndexError, g)
  end.

(** *** The environment interface used by the algorithms *)

(** What the solvers and learners read from [env]: [env.states],
    [env.action_keys], [env.start_pos], [env.goal_pos] and
    [env.step(state, action)] returning [(next_state, reward, done)]. *)
Record Env : Type := {
  states : list State;
  action_keys : list Action;
  start_pos : State;
  goal_pos : State;
  step : State -> Action -> returned (State * Qc * bool)
}.

End Py.

Export Py.

#[export] Instance outcome_ret : MRet outcome := @Py.Ok.
#[export] Instance outcome_bind : MBind outcome := fun A B k m => Py.bind m k.

(** ** Homework 1: the dynamic-programming solvers *)

Module Homework1.

Section Solvers.

Variable env : Env.
Variable gamma : Qc.

(** [next_s, reward, _ = env.step(s, action)] followed by
    [reward + gamma * v[next_s]]: lines 53-54, 104-106, 125-126, 170-171
    and 184-185. *)
Definition q_value (v : gmap State Qc) (s : State) (action : Action) : outcome Qc :=
  '(next_s, reward, _) ← call (step env s action);
  v_next ← getitem v next_s;
  Ok (reward + gamma * v_next)%Qc.

(** The loop [for action in env.action_keys] filling [action_values]. *)
Fixpoint action_values_loop (v : gmap State Qc) (s : State)
    (acts : list Action) (action_values : adict) : outcome adict :=
  match acts with
  | [] => Ok action_values
  | action :: acts' =>
      q ← q_value v s action;
      action_values_loop v s acts' (adict_set action_values action q)
  end.

(** [{state: x for state in env.states}]. *)
Definition dict_from_states {V : Type} (x : V) : gmap State V :=
  fold_left (fun d s => <[s := x]> d) (states env) ∅.

(** *** [value_iteration] *)

(** The loop [for s in env.states] of lines 44-63.  [v_old_iter] is the
    copy of the table made at line 42; [v], [policy] and [delta] are the
    variables the loop mutates. *)
Fixpoint vi_sweep (v_old_iter : gmap State Qc) (ss : list State)
    (v : gmap State Qc) (policy : gmap State Action) (delta : Qc)
    : outcome (gmap State Qc * gmap State Action * Qc) :=
  match ss with
  | [] => Ok (v, policy, delta)
  | s :: ss' =>
      if decide (s = goal_pos env) then vi_sweep v_old_iter ss' v policy delta
      else
        v_old ← getitem v_old_iter s;
        action_values ← action_values_loop v_old_iter s (action_keys env) [];
        best_action ← adict_argmax action_values;
        let policy' := <[s := best_action]> policy in
        q ← adict_getitem action_values best_action;
        let v' := <[s := q]> v in
        v_s ← getitem v' s;
        let delta' := pymax2 delta (Qcabs (v_old - v_s)) in
        vi_sweep v_old_iter ss' v' policy' delta'
  end.

(** The [while True] loop of lines 37-70. *)
Fixpoint vi_loop (fuel : nat) (theta : Qc) (v : gmap State Qc)
    (policy : gmap State Action) (history : list (gmap State Qc))
    : outcome (gmap State Qc * gmap State Action * list (gmap State Qc)) :=
  match fuel with
  | O => OutOfFuel
  | S fuel' =>
      let v_old_iter := v in
      '(v', policy', delta) ← vi_sweep v_old_iter (states env) v policy 0%Qc;
      let history' := history ++ [v'] in
      if Qcltb delta theta then Ok (v', policy', history')
      else vi_loop fuel' theta v' policy' history'
  end.

Definition value_iteration (theta : Qc) (fuel : nat)
    : outcome (gmap State Qc * gmap State Action * list (gmap State Qc)) :=
  let v := dict_from_states 0%Qc in
  let policy := dict_from_states EmptyString in
  vi_loop fuel theta v policy [v].

(** *** The random initial policy of both policy iterations *)

(** [{s: random.choice(env.action_keys) for s in env.states
      if s != env.goal_pos}] (lines 84 and 151). *)
Fixpoint random_policy (ss : list State) (policy : gmap State Action)
    (g : Random) : outcome (gmap State Action) * Random :=
  match ss with
  | [] => (Ok policy, g)
  | s :: ss' =>
      if decide (s = goal_pos env) then random_policy ss' policy g
      else
        match random_choice (action_keys env) g with
        | (Ok a, g') => random_policy ss' (<[s := a]> policy) g'
        | (Raised e, g') => (Raised e, g')
        | (OutOfFuel, g') => (OutOfFuel, g')
        end
  end.

(** Lines 84-85 (and 151-152): the random policy, then
    [policy[env.goal_pos] = '']. *)
Definition initial_policy (g : Random) : outcome (gmap State Action) :=
  policy ← fst (random_policy (states env) ∅ g);
  Ok (<[goal_pos env := EmptyString]> policy).

(** *** Policy improvement, shared by both policy iterations *)

(** The loop [for s in env.states] of lines 118-133 (and 179-190). *)
Fixpoint improve_sweep (v : gmap State Qc) (ss : list State)
    (policy : gmap State Action) (policy_stable : bool)
    : outcome (gmap State Action * bool) :=
  match ss with
  | [] => Ok (policy, policy_stable)
  | s :: ss' =>
      if decide (s = goal_pos env) then improve_sweep v ss' policy policy_stable
      else
        old_action ← getitem policy s;
        action_values ← action_values_loop v s (action_keys env) [];
        best_action ← adict_argmax action_values;
        let policy' := <[s := best_action]> policy in
        let policy_stable' :=
          if String.eqb old_action best_action then policy_stable else false in
        improve_sweep v ss' policy' policy_stable'
  end.

(** *** [policy_iteration] *)

(** The loop [for s in env.states] of lines 100-107: the table [v] is
    read and written in place. *)
Fixpoint pe_sweep (policy : gmap State Action) (ss : list State)
    (v : gmap State Qc) (delta : Qc) : outcome (gmap State Qc * Qc) :=
  match ss with
  | [] => Ok (v, delta)
  | s :: ss' =>
      if decide (s = goal_pos env) then pe_sweep policy ss' v delta
      else
        v_old ← getitem v s;
        action ← getitem policy s;
        q ← q_value v s action;
        let v' := <[s := q]> v in
        v_s ← getitem v' s;
        let delta' := pymax2 delta (Qcabs (v_old - v_s)) in
        pe_sweep policy ss' v' delta'
  end.

(** The inner [while True] loop of lines 98-110. *)
Fixpoint pe_loop (fuel : nat) (theta : Qc) (policy : gmap State Action)
    (v : gmap State Qc) : outcome (gmap State Qc) :=
  match fuel with
  | O => OutOfFuel
  | S fuel' =>
      '(v', delta) ← pe_sweep policy (states env) v 0%Qc;
      if Qcltb delta theta then Ok v' else pe_loop fuel' theta policy v'
  end.

(** The outer [while True] loop of lines 93-137. *)
Fixpoint pi_loop (fuel eval_fuel : nat) (theta : Qc) (v : gmap State Qc)
    (policy : gmap State Action) (history : list (gmap State Qc))
    : outcome (gmap State Qc * gmap State Action * list (gmap State Qc)) :=
  match fuel with
  | O => OutOfFuel
  | S fuel' =>
      v' ← pe_loop eval_fuel theta policy v;
      let history' := history ++ [v'] in
      '(policy', policy_stable) ← improve_sweep v' (states env) policy true;
      if (policy_stable : bool) then Ok (v', policy', history')
      else pi_loop fuel' eval_fuel theta v' policy' history'
  end.

Definition policy_iteration (theta : Qc) (g : Random) (fuel eval_fuel : nat)
    : outcome (gmap State Qc * gmap State Action * list (gmap State Qc)) :=
  policy ← initial_policy g;
  let v := dict_from_states 0%Qc in
  pi_loop fuel eval_fuel theta v policy [v].

(** *** [truncated_policy_iteration] *)

(** The loop [for s in env.states] of lines 167-171: reads go to the copy
    [v_old] made at line 166, writes go to [v]. *)
Fixpoint tpe_sweep (policy : gmap State Action) (v_old : gmap State Qc)
    (ss : list State) (v : gmap State Qc) : outcome (gmap State Qc) :=
  match ss with
  | [] => Ok v
  | s :: ss' =>
      if decide (s = goal_pos env) then tpe_sweep policy v_old ss' v
      else
        action ← getitem policy s;
        q ← q_value v_old s action;
        tpe_sweep policy v_old ss' (<[s := q]> v)
  end.

(** The loop [for _ in range(j_truncate)] of lines 165-171, entered with
    the number of iterations still to run. *)
Fixpoint tpe_loop (n : nat) (policy : gmap State Action) (v : gmap State Qc)
    : outcome (gmap State Qc) :=
  match n with
  | O => Ok v
  | S n' =>
      let v_old := v in
      v' ← tpe_sweep policy v_old (states env) v;
      tpe_loop n' policy v'
  end.

(** The outer [while True] loop of lines 160-194. *)
Fixpoint tpi_loop (fuel : nat) (j_truncate : Z) (v : gmap State Qc)
    (policy : gmap State Action) (history : list (gmap State Qc))
    : outcome (gmap State Qc * gmap State Action * list (gmap State Qc)) :=
  match fuel with
  | O => OutOfFuel
  | S fuel' =>
      v' ← tpe_loop (Z.to_nat j_truncate) policy v;
      let history' := history ++ [v'] in
      '(policy', policy_stable) ← improve_sweep v' (states env) policy true;
      if (policy_stable : bool) then Ok (v', policy', history')
      else tpi_loop fuel' j_truncate v' policy' history'
  end.

Definition truncated_policy_iteration (j_truncate : Z) (g : Random) (fuel : nat)
    : outcome (gmap State Qc * gmap State Action * list (gmap State Qc)) :=
  policy ← initial_policy g;
  let v := dict_from_states 0%Qc in
  tpi_loop fuel j_truncate v policy [v].

End Solvers.

End Homework1.

(** ** The cliff-walk environment ([Homework2/source/cliffwalk.py]) *)

Module CliffWalk.

(** The attributes of a [CliffWalkEnv] object read by [step].  All but
    [reward_cliff] are set by the constructor of the parent class
    [MazeEnvironment], whose file is not among the sources; they are
    fields here, so every result on [step] holds for whatever values the
    parent stores.  [maze] is the 2-D array of cell codes (0 path, 1 wall,
    2 start, 3 goal, 4 cliff), [actions] the dictionary from an action
    label to its [(d_row, d_col)] move. *)
Record CliffWalkEnv : Type := {
  maze : list (list Z);
  height : Z;
  width : Z;
  actions : list (Action * (Z * Z));
  start_pos : State;
  goal_pos : State;
  reward_step : Qc;
  reward_goal : Qc;
  reward_cliff : Qc
}.

(** [self.actions.get(action)]: the first (and, in a dictionary, only)
    entry under that key, or [None]. *)
Fixpoint actions_get (d : list (Action * (Z * Z))) (action : Action) : option (Z * Z) :=
  match d with
  | [] => None
  | (k, move) :: d' => if String.eqb k action then Some move else actions_get d' action
  end.

(** [self.maze[pos]] for a position inside the array. *)
Definition maze_at (m : list (list Z)) (pos : State) : option Z :=
  row ← m !! Z.to_nat (fst pos);
  row !! Z.to_nat (snd pos).

(** [0 <= pos[0] < self.height and 0 <= pos[1] < self.width]. *)
Definition in_bounds (e : CliffWalkEnv) (pos : State) : bool :=
  (0 <=? fst pos)%Z && (fst pos <? height e)%Z &&
  (0 <=? snd pos)%Z && (snd pos <? width e)%Z.

(** Modelled from the spec: [MazeEnvironment.step], the parent method
    reached through [super().step(current_pos, action)]; its file
    [Homework1/source/maze.py] is not among the sources.  Section 4.1: a
    call at the goal returns [(goal, 0, True)], an unrecognized action
    fails with the invalid-action condition, otherwise the call returns a
    triple.  Section 9: a wall (or the border) blocks the move.  The
    docstring of [CliffWalkEnv.__init__]: [reward_goal] is paid for
    reaching the goal and [reward_step] for any other step. *)
Definition maze_step (e : CliffWalkEnv) (current_pos : State) (action : Action)
    : returned (State * Qc * bool) :=
  if decide (current_pos = goal_pos e) then Return (goal_pos e, 0%Qc, true)
  else
    match actions_get (actions e) action with
    | None => Raise ValueError
    | Some move =>
        let next_pos := (fst current_pos + fst move, snd current_pos + snd move)%Z in
        if in_bounds e next_pos
           && negb (bool_decide (maze_at (maze e) next_pos = Some 1%Z)) then
          if decide (next_pos = goal_pos e) then Return (next_pos, reward_goal e, true)
          else Return (next_pos, reward_step e, false)
        else Return (current_pos, reward_step e, false)
    end.

(** [CliffWalkEnv.step] (lines 45-73). *)
Definition step (e : CliffWalkEnv) (current_pos : State) (action : Action)
    : returned (State * Qc * bool) :=
  if decide (current_pos = goal_pos e) then Return (goal_pos e, 0%Qc, true)
  else
    match actions_get (actions e) action with
    | None => Raise ValueError
    | Some move =>
        let next_pos_theoretical :=
          (fst current_pos + fst move, snd current_pos + snd move)%Z in
        if in_bounds e next_pos_theoretical
           && bool_decide (maze_at (maze e) next_pos_theoretical = Some 4%Z) then
          Return (start_pos e, reward_cliff e, false)
        else maze_step e current_pos action
    end.

(** Modelled from the spec: [env.states] and [env.action_keys], set by the
    absent parent constructor.  Section 4.1: the states are a finite set
    that includes the goal, the actions are the same ordered set at every
    state; here the states are the cells that are not walls, row by row,
    and the action keys are the keys of [actions]. *)
Definition grid_states (e : CliffWalkEnv) : list State :=
  flat_map (fun r =>
    flat_map (fun c =>
      if bool_decide (maze_at (maze e) (r, c) = Some 1%Z) then [] else [(r, c)])
      (map Z.of_nat (seq 0 (Z.to_nat (width e)))))
    (map Z.of_nat (seq 0 (Z.to_nat (height e)))).

(** The environment object as the algorithms see it. *)
Definition as_env (e : CliffWalkEnv) : Env :=
  {| Py.states := grid_states e;
     Py.action_keys := map fst (actions e);
     Py.start_pos := start_pos e;
     Py.goal_pos := goal_pos e;
     Py.step := step e |}.

(** The four compass moves. *)
Definition compass : list (Action * (Z * Z)) :=
  [("N"%string, (-1, 0)%Z); ("S"%string, (1, 0)%Z);
   ("W"%string, (0, -1)%Z); ("E"%string, (0, 1)%Z)].

(** [cliffwalk1] of [layout.py], with the default rewards of
    [CliffWalkEnv.__init__]. *)
Definition cliffwalk1 : CliffWalkEnv :=
  {| maze := [[2; 0; 4]; [4; 0; 0]; [0; 0; 3]]%Z;
     height := 3; width := 3;
     actions := compass;
     start_pos := (0, 0)%Z;
     goal_pos := (2, 2)%Z;
     reward_step := (-1)%Qc;
     reward_goal := 0%Qc;
     reward_cliff := Q2Qc (-100) |}.

End CliffWalk.

(** ** Homework 2: the temporal-difference learners *)

Module Homework2.

(** *** The machine the learners run on *)

(** What an execution does that the claims speak about: a call of
    [choose_action_e_greedy] with its [state] argument, a call of
    [env.step] with its result, and an assignment
    [q_table[state][action] = value]. *)
Inductive event : Type :=
  | Choose (state : State)
  | Step (state : State) (action : Action) (next_state : State)
         (reward : Qc) (done : bool)
  | Update (state : State) (action : Action) (value : Qc).

(** The mutable state of a run: the [defaultdict] [q_table], the global
    random generator, and the events so far, oldest first. *)
Record Machine : Type := {
  q_table : gmap State adict;
  rng : Random;
  events : list event
}.

(** How a computation ends; the machine is kept in every case, so that
    what happened before an exception or inside a loop that ran out of
    fuel can still be inspected. *)
Inductive result (A : Type) : Type :=
  | Val (a : A) (m : Machine)
  | Exc (e : exn) (m : Machine)
  | Fuel (m : Machine).
Arguments Val {A} a m.
Arguments Exc {A} e m.
Arguments Fuel {A} m.

Definition TD (A : Type) : Type := Machine -> result A.

Definition ret {A : Type} (a : A) : TD A := fun m => Val a m.

Definition bind {A B : Type} (c : TD A) (k : A -> TD B) : TD B :=
  fun m =>
    match c m with
    | Val a m' => k a m'
    | Exc e m' => Exc e m'
    | Fuel m' => Fuel m'
    end.

Definition raise {A : Type} (e : exn) : TD A := fun m => Exc e m.

Definition out_of_fuel {A : Type} : TD A := fun m => Fuel m.

Definition lift {A : Type} (o : outcome A) : TD A :=
  fun m =>
    match o with
    | Ok a => Val a m
    | Raised e => Exc e m
    | OutOfFuel => Fuel m
    end.

Definition emit (e : event) : TD unit :=
  fun m => Val tt {| q_table := q_table m; rng := rng m; events := events m ++ [e] |}.

#[export] Instance td_ret : MRet TD := @ret.
#[export] Instance td_bind : MBind TD := fun A B k c => bind c k.

(** The machine a computation stops in. *)
Definition final {A : Type} (r : result A) : Machine :=
  match r with
  | Val _ m => m
  | Exc _ m => m
  | Fuel m => m
  end.

Definition uniform : TD Qc :=
  fun m =>
    let '(u, g) := random_uniform (rng m) in
    Val u {| q_table := q_table m; rng := g; events := events m |}.

Definition choice {A : Type} (l : list A) : TD A :=
  fun m =>
    let '(o, g) := random_choice l (rng m) in
    lift o {| q_table := q_table m; rng := g; events := events m |}.

(** The [deque] of [(state, action, reward)] triples of [n_step_sarsa],
    oldest first. *)
Abbreviation deque := (list ((Z * Z) * string * Qc)).

Section Learners.

Variable env : Env.

(** [q_table[state]] on the
    [defaultdict(lambda: {action: 0.0 for action in env.action_keys})]: a
    missing row is created, stored and returned. *)
Definition row_of (state : State) : TD adict :=
  fun m =>
    match q_table m !! state with
    | Some row => Val row m
    | None =>
        let row := zero_row (action_keys env) in
        Val row {| q_table := <[state := row]> (q_table m);
                   rng := rng m; events := events m |}
    end.

(** The read [q_table[state][action]]. *)
Definition q_get (state : State) (action : Action) : TD Qc :=
  row ← row_of state;
  lift (adict_getitem row action).

(** The assignment [q_table[state][action] = value]. *)
Definition q_set (state : State) (action : Action) (value : Qc) : TD unit :=
  row ← row_of state;
  (fun m => Val tt {| q_table := <[state := adict_set row action value]> (q_table m);
                      rng := rng m; events := events m |});;
  emit (Update state action value).

(** [env.step(state, action)]. *)
Definition env_step (state : State) (action : Action) : TD (State * Qc * bool) :=
  '(next_state, reward, done) ← lift (call (step env state action));
  emit (Step state action next_state reward done);;
  mret (next_state, reward, done).

(** [choose_action_e_greedy] (lines 22-40). *)
Definition choose_action_e_greedy (state : State) (actions : list Action)
    (epsilon : Qc) : TD Action :=
  emit (Choose state);;
  u ← uniform;
  if Qcltb u epsilon then choice actions
  else
    q_values ← row_of state;
    max_q ← lift (adict_max_value q_values);
    let best_actions :=
      map fst (List.filter (fun item => Qceqb (snd item) max_q) q_values) in
    choice best_actions.

(** [{s: max(q_table[s], key=q_table[s].get) for s in q_table}]: the keys
    of the result are the keys of [q_table]; [max] raises on an empty
    row. *)
Definition derive_policy (q : gmap State adict) : outcome (gmap State Action) :=
  if decide (map_Forall (fun _ row => row ≠ []) q) then
    Ok ((fun row =>
           match row with
           | [] => EmptyString
           | (a, x) :: row' => max_by_loop a x row'
           end) <$> q)
  else Raised ValueError.

(** The end of every learner: the policy is derived from the table the
    run has built. *)
Definition finish (history : list Qc)
    : TD (gmap State adict * gmap State Action * list Qc) :=
  fun m =>
    match derive_policy (q_table m) with
    | Ok policy => Val (q_table m, policy, history) m
    | Raised e => Exc e m
    | OutOfFuel => Fuel m
    end.

(** The loop [for _ in range(episodes)] around one episode, which returns
    its [total_reward]. *)
Fixpoint episodes_loop (episode : TD Qc) (n : nat) (history : list Qc)
    : TD (list Qc) :=
  match n with
  | O => mret history
  | S n' =>
      total_reward ← episode;
      episodes_loop episode n' (history ++ [total_reward])
  end.

Section Parameters.

Variables alpha gamma epsilon : Qc.

(** *** [q_learning] *)

(** The loop [while not done] of lines 64-82, entered with [done] false. *)
Fixpoint q_learning_loop (fuel : nat) (state : State) (total_reward : Qc) : TD Qc :=
  match fuel with
  | O => out_of_fuel
  | S fuel' =>
      action ← choose_action_e_greedy state (action_keys env) epsilon;
      '(next_state, reward, done) ← env_step state action;
      let total_reward := (total_reward + reward)%Qc in
      old_value ← q_get state action;
      next_row ← row_of next_state;
      next_max ← lift (adict_max_value next_row);
      let td_target := (reward + gamma * next_max)%Qc in
      let td_error := (td_target - old_value)%Qc in
      q_set state action (old_value + alpha * td_error)%Qc;;
      if (done : bool) then mret total_reward
      else q_learning_loop fuel' next_state total_reward
  end.

Definition q_learning_episode (fuel : nat) : TD Qc :=
  q_learning_loop fuel (start_pos env) 0%Qc.

Definition q_learning (episodes : nat) (fuel : nat)
    : TD (gmap State adict * gmap State Action * list Qc) :=
  history ← episodes_loop (q_learning_episode fuel) episodes [];
  finish history.

(** *** [sarsa] *)

(** The loop [while not done] of lines 111-131, entered with [done]
    false. *)
Fixpoint sarsa_loop (fuel : nat) (state : State) (action : Action)
    (total_reward : Qc) : TD Qc :=
  match fuel with
  | O => out_of_fuel
  | S fuel' =>
      '(next_state, reward, done) ← env_step state action;
      let total_reward := (total_reward + reward)%Qc in
      next_action ← choose_action_e_greedy next_state (action_keys env) epsilon;
      old_value ← q_get state action;
      next_value ← q_get next_state next_action;
      let td_target := (reward + gamma * next_value)%Qc in
      let td_error := (td_target - old_value)%Qc in
      q_set state action (old_value + alpha * td_error)%Qc;;
      if (done : bool) then mret total_reward
      else sarsa_loop fuel' next_state next_action total_reward
  end.

Definition sarsa_episode (fuel : nat) : TD Qc :=
  let state := start_pos env in
  action ← choose_action_e_greedy state (action_keys env) epsilon;
  sarsa_loop fuel state action 0%Qc.

Definition sarsa (episodes : nat) (fuel : nat)
    : TD (gmap State adict * gmap State Action * list Qc) :=
  history ← episodes_loop (sarsa_episode fuel) episodes [];
  finish history.

(** *** [expected_sarsa] *)

(** The loop [for a in env.action_keys] of lines 170-175. *)
Fixpoint expected_q_loop (next_q_values : adict) (best_action : Action)
    (num_actions : nat) (acts : list Action) (expected_q : Qc) : outcome Qc :=
  match acts with
  | [] => Ok expected_q
  | a :: acts' =>
      let n := Q2Qc (inject_Z (Z.of_nat num_actions)) in
      let prob :=
        if String.eqb a best_action then (1 - epsilon + epsilon / n)%Qc
        else (epsilon / n)%Qc in
      q ← adict_getitem next_q_values a;
      expected_q_loop next_q_values best_action num_actions acts'
        (expected_q + prob * q)%Qc
  end.

(** The loop [while not done] of lines 156-181, entered with [done]
    false. *)
Fixpoint expected_sarsa_loop (fuel : nat) (state : State) (total_reward : Qc)
    : TD Qc :=
  match fuel with
  | O => out_of_fuel
  | S fuel' =>
      action ← choose_action_e_greedy state (action_keys env) epsilon;
      '(next_state, reward, done) ← env_step state action;
      let total_reward := (total_reward + reward)%Qc in
      old_value ← q_get state action;
      next_q_values ← row_of next_state;
      best_action ← lift (adict_argmax next_q_values);
      let num_actions := length (action_keys env) in
      expected_q ← lift (expected_q_loop next_q_values best_action num_actions
                           (action_keys env) 0%Qc);
      let td_target := (reward + gamma * expected_q)%Qc in
      let td_error := (td_target - old_value)%Qc in
      q_set state action (old_value + alpha * td_error)%Qc;;
      if (done : bool) then mret total_reward
      else expected_sarsa_loop fuel' next_state total_reward
  end.

Definition expected_sarsa_episode (fuel : nat) : TD Qc :=
  expected_sarsa_loop fuel (start_pos env) 0%Qc.

Definition expected_sarsa (episodes : nat) (fuel : nat)
    : TD (gmap State adict * gmap State Action * list Qc) :=
  history ← episodes_loop (expected_sarsa_episode fuel) episodes [];
  finish history.

(** *** [n_step_sarsa] *)

Variable n_steps : Z.
Variable max_steps_per_episode : Z.

(** The loops of lines 237-240 and 270-272 over [range(n)]:
    [G += (gamma ** i) * trajectory[i][2]], started at index [i]. *)
Fixpoint return_loop (trajectory : deque) (i : nat) (n : nat) (G : Qc) : outcome Qc :=
  match n with
  | O => Ok G
  | S n' =>
      match trajectory !! i with
      | None => Raised IndexError
      | Some (_, _, r) => return_loop trajectory (S i) n' (G + gamma ^ i * r)%Qc
      end
  end.

(** Lines 231-255: the update of the oldest entry once the buffer holds
    [n_steps] entries; the result is the buffer afterwards.  [next_action]
    is [None] when the episode has just terminated. *)
Definition n_step_update (trajectory : deque) (next_state : State)
    (next_action : option Action) (done : bool) : TD deque :=
  if (n_steps <=? Z.of_nat (length trajectory))%Z then
    match trajectory with
    | [] => raise IndexError
    | (s_tau, a_tau, _) :: rest =>
        G ← lift (return_loop trajectory 0 (Z.to_nat n_steps) 0%Qc);
        G ← (if negb done then
               p ← lift (pypow gamma n_steps);
               next_row ← row_of next_state;
               match next_action with
               | None => raise KeyError
               | Some a => q ← lift (adict_getitem next_row a); mret (G + p * q)%Qc
               end
             else mret G);
        old_value ← q_get s_tau a_tau;
        let td_error := (G - old_value)%Qc in
        q_set s_tau a_tau (old_value + alpha * td_error)%Qc;;
        mret rest
    end
  else mret trajectory.

(** The loop [while not done and step_counter < max_steps_per_episode] of
    lines 215-260.  [action] is [None] once the episode has terminated;
    stepping with it is rejected like any unrecognized action. *)
Fixpoint n_step_loop (fuel : nat) (state : State) (action : option Action)
    (done : bool) (step_counter : Z) (total_reward : Qc) (trajectory : deque)
    : TD (Qc * deque) :=
  if negb done && (step_counter <? max_steps_per_episode)%Z then
    match fuel with
    | O => out_of_fuel
    | S fuel' =>
        a ← match action with Some a => mret a | None => raise ValueError end;
        '(next_state, reward, done') ← env_step state a;
        let total_reward := (total_reward + reward)%Qc in
        let trajectory := trajectory ++ [(state, a, reward)] in
        next_action ←
          (if negb done' then
             a' ← choose_action_e_greedy next_state (action_keys env) epsilon;
             mret (Some a')
           else mret None);
        trajectory' ← n_step_update trajectory next_state next_action done';
        n_step_loop fuel' next_state next_action done' (step_counter + 1)%Z
          total_reward trajectory'
    end
  else mret (total_reward, trajectory).

(** The loop [while len(trajectory) > 0] of lines 264-280; the result is
    the buffer when the loop is left. *)
Fixpoint drain (fuel : nat) (trajectory : deque) : TD deque :=
  match trajectory with
  | [] => mret trajectory
  | (s_tau, a_tau, _) :: rest =>
      match fuel with
      | O => out_of_fuel
      | S fuel' =>
          G ← lift (return_loop trajectory 0 (length trajectory) 0%Qc);
          old_value ← q_get s_tau a_tau;
          let td_error := (G - old_value)%Qc in
          q_set s_tau a_tau (old_value + alpha * td_error)%Qc;;
          drain fuel' rest
      end
  end.

(** One episode (lines 204-280).  Besides [total_reward] the model
    returns the buffer left when the episode ends. *)
Definition n_step_episode (fuel : nat) : TD (Qc * deque) :=
  let state := start_pos env in
  action ← choose_action_e_greedy state (action_keys env) epsilon;
  '(total_reward, trajectory) ← n_step_loop fuel state (Some action) false 0%Z 0%Qc [];
  trajectory' ← drain fuel trajectory;
  mret (total_reward, trajectory').

Definition n_step_sarsa (episodes : nat) (fuel : nat)
    : TD (gmap State adict * gmap State Action * list Qc) :=
  history ← episodes_loop (r ← n_step_episode fuel; mret (fst r)) episodes [];
  finish history.

End Parameters.

End Learners.

(** The machine every learner starts from: an empty table, a generator,
    no events. *)
Definition boot (g : Random) : Machine :=
  {| q_table := ∅; rng := g; events := [] |}.

End Homework2.

(** ** Vocabulary of the specification *)

Module Spec.

Section Bellman.

Variable env : Env.
Variable gamma : Qc.

(** [m] is [max_a (reward(s,a) + gamma * V[next(s,a)])]: some action of
    [env.action_keys] has that action value against the table [V], and no
    action has a greater one. *)
Definition max_action_value (V : gmap State Qc) (s : State) (m : Qc) : Prop :=
  (∃ a, a ∈ action_keys env ∧ Homework1.q_value env gamma V s a = Ok m) ∧
  (∀ a q, a ∈ action_keys env → Homework1.q_value env gamma V s a = Ok q → (q <= m)%Qc).

(** [a] is a greedy action at [s] against the table [V]. *)
Definition greedy_action (V : gmap State Qc) (s : State) (a : Action) : Prop :=
  a ∈ action_keys env ∧
  ∃ m, Homework1.q_value env gamma V s a = Ok m ∧ max_action_value V s m.

(** One synchronous Bellman-optimality sweep: every non-goal state of
    [V_new] holds the maximal action value computed from [V_snapshot]
    alone, and the goal entry is untouched. *)
Definition synchronous_optimal_sweep (V_snapshot V_new : gmap State Qc) : Prop :=
  (∀ s, s ∈ states env → s ≠ goal_pos env →
        ∃ m, V_new !! s = Some m ∧ max_action_value V_snapshot s m) ∧
  V_new !! goal_pos env = V_snapshot !! goal_pos env.

(** One synchronous sweep of policy evaluation: every non-goal state of
    [V_new] holds the action value of the policy's action computed from
    [V_snapshot] alone. *)
Definition synchronous_policy_sweep (policy : gmap State Action)
    (V_snapshot V_new : gmap State Qc) : Prop :=
  (∀ s, s ∈ states env → s ≠ goal_pos env →
        ∃ a q, policy !! s = Some a ∧
               Homework1.q_value env gamma V_snapshot s a = Ok q ∧
               V_new !! s = Some q) ∧
  (∀ s, s ∉ states env ∨ s = goal_pos env → V_new !! s = V_snapshot !! s).

(** Every table of the list but the first is obtained from the one before
    it by [sweep]. *)
Definition chain (sweep : gmap State Qc → gmap State Qc → Prop)
    (tables : list (gmap State Qc)) : Prop :=
  ∀ k V V', tables !! k = Some V → tables !! S k = Some V' → sweep V V'.

(** [m] is the greatest number of the list [l]. *)
Definition greatest (l : list Qc) (m : Qc) : Prop :=
  m ∈ l ∧ Forall (fun x => (x <= m)%Qc) l.

(** An in-place sweep of policy evaluation over the states [ss], from the
    table [V] to the table [V']: the goal is skipped, and the backup of
    every other state reads the table as the backups before it in the
    same sweep have left it.  [changes] lists [abs(v_old - v[s])] for the
    states backed up, in order. *)
Inductive in_place_sweep (policy : gmap State Action)
    : list State → gmap State Qc → gmap State Qc → list Qc → Prop :=
  | sweep_end V :
      in_place_sweep policy [] V V []
  | sweep_goal ss V V' changes :
      in_place_sweep policy ss V V' changes →
      in_place_sweep policy (goal_pos env :: ss) V V' changes
  | sweep_backup s ss V V' changes a q v_old :
      s ≠ goal_pos env →
      V !! s = Some v_old →
      policy !! s = Some a →
      Homework1.q_value env gamma V s a = Ok q →
      in_place_sweep policy ss (<[s := q]> V) V' changes →
      in_place_sweep policy (s :: ss) V V' (Qcabs (v_old - q) :: changes).

(** Policy evaluation to convergence: in-place sweeps over [env.states]
    are repeated until one of them has a maximum absolute change below
    [theta]; the maximum is taken over the changes and the initial [0]. *)
Inductive evaluation_until (theta : Qc) (policy : gmap State Action)
    : gmap State Qc → gmap State Qc → Prop :=
  | evaluation_stops V V' changes delta :
      in_place_sweep policy (states env) V V' changes →
      greatest (0%Qc :: changes) delta →
      (delta < theta)%Qc →
      evaluation_until theta policy V V'
  | evaluation_repeats V V1 V' changes delta :
      in_place_sweep policy (states env) V V1 changes →
      greatest (0%Qc :: changes) delta →
      ¬ (delta < theta)%Qc →
      evaluation_until theta policy V1 V' →
      evaluation_until theta policy V V'.

(** Truncated policy evaluation: exactly [n] sweeps, each of them
    synchronous. *)
Definition truncated_evaluation (n : nat) (policy : gmap State Action)
    (V V' : gmap State Qc) : Prop :=
  ∃ tables, length tables = S n ∧ head tables = Some V ∧ last tables = Some V' ∧
            chain (synchronous_policy_sweep policy) tables.

(** A policy-improvement pass against [V]: every non-goal state gets a
    greedy action, nothing else changes. *)
Definition greedy_improvement (V : gmap State Qc)
    (policy policy' : gmap State Action) : Prop :=
  (∀ s, s ∈ states env → s ≠ goal_pos env →
        ∃ a, policy' !! s = Some a ∧ greedy_action V s a) ∧
  (∀ s, s ∉ states env ∨ s = goal_pos env → policy' !! s = policy !! s).

(** The pass has changed no state's action. *)
Definition unchanged (policy policy' : gmap State Action) : Prop :=
  ∀ s, s ∈ states env → s ≠ goal_pos env → policy' !! s = policy !! s.

(** The rounds of a policy iteration whose evaluation phase is
    [evaluation]: a round evaluates the current policy and improves it; the
    rounds end with the first improvement pass that changes no state's
    action. *)
Inductive rounds
    (evaluation : gmap State Action → gmap State Qc → gmap State Qc → Prop)
    : gmap State Qc → gmap State Action →
      gmap State Qc → gmap State Action → Prop :=
  | last_round V policy V' policy' :
      evaluation policy V V' →
      greedy_improvement V' policy policy' →
      unchanged policy policy' →
      rounds evaluation V policy V' policy'
  | next_round V policy V1 policy1 V' policy' :
      evaluation policy V V1 →
      greedy_improvement V1 policy policy1 →
      ¬ unchanged policy policy1 →
      rounds evaluation V1 policy1 V' policy' →
      rounds evaluation V policy V' policy'.

End Bellman.

(** The contract between an episodic environment and the learners: the
    start is not the goal, and [step] reports [done] exactly when the next
    state is the goal. *)
Record episodic (env : Env) : Prop := {
  start_not_goal : start_pos env ≠ goal_pos env;
  done_iff_goal : ∀ s a s' r d,
    step env s a = Return (s', r, d) → d = true ↔ s' = goal_pos env
}.

Section Learners.

Variable env : Env.

(** The goal's row, when [q_table] holds one, is the row of zeros
    [{action: 0.0 for action in env.action_keys}]. *)
Definition goal_row_zero (q : gmap State adict) : Prop :=
  ∀ row, q !! goal_pos env = Some row → row = zero_row (action_keys env).

(** No assignment [q_table[goal][action] = value] among the events. *)
Definition writes_off_goal (es : list Homework2.event) : Prop :=
  ∀ a v, Homework2.Update (goal_pos env) a v ∉ es.

(** No call [env.step(goal, action)] among the events. *)
Definition steps_off_goal (es : list Homework2.event) : Prop :=
  ∀ a s' r d, Homework2.Step (goal_pos env) a s' r d ∉ es.

(** No call of [choose_action_e_greedy] at the goal among the events. *)
Definition chooses_off_goal (es : list Homework2.event) : Prop :=
  Homework2.Choose (goal_pos env) ∉ es.

(** Some step among the events has landed on the goal. *)
Definition goal_reached (es : list Homework2.event) : Prop :=
  ∃ s a r d, Homework2.Step s a (goal_pos env) r d ∈ es.

(** Every call of [env.step] among the events is followed at once by a
    call of [choose_action_e_greedy] at the state the step has landed
    on. *)
Definition selects_after_every_step (es : list Homework2.event) : Prop :=
  ∀ i s a s' r d,
    es !! i = Some (Homework2.Step s a s' r d) →
    es !! S i = Some (Homework2.Choose s').

(** The calls of [env.step] among the events, oldest first, each with its
    arguments and its result. *)
Definition step_log (es : list Homework2.event)
    : list (State * Action * State * Qc * bool) :=
  omap (fun e => match e with
                 | Homework2.Step s a s' r d => Some (s, a, s', r, d)
                 | _ => None
                 end) es.

(** The assignments [q_table[state][action] = value] among the events,
    oldest first. *)
Definition update_log (es : list Homework2.event) : list (State * Action * Qc) :=
  omap (fun e => match e with
                 | Homework2.Update s a v => Some (s, a, v)
                 | _ => None
                 end) es.

(** The [(state, action)] pair of a step, of an update and of a buffered
    [(state, action, reward)] triple. *)
Definition step_key (x : State * Action * State * Qc * bool) : State * Action :=
  (x.1.1.1.1, x.1.1.1.2).

Definition update_key (x : State * Action * Qc) : State * Action := (x.1.1, x.1.2).

Definition entry_key (x : State * Action * Qc) : State * Action := (x.1.1, x.1.2).

(** The [done] flag a step has returned. *)
Definition step_done (x : State * Action * State * Qc * bool) : bool := x.2.

(** [sum(gamma ** i * r_i)] over the rewards [r_0, r_1, ...], written as
    [r_0 + gamma * (r_1 + gamma * (...))]. *)
Definition discounted_return (gamma : Qc) (rewards : list Qc) : Qc :=
  foldr (fun r G => (r + gamma * G)%Qc) 0%Qc rewards.

(** No step but possibly the last has returned [done]. *)
Definition stops_at_terminal (steps : list (State * Action * State * Qc * bool)) : Prop :=
  ∀ i x, steps !! i = Some x → (S i < length steps)%nat → step_done x = false.

(** The last step has returned [done]. *)
Definition ends_terminal (steps : list (State * Action * State * Qc * bool)) : Prop :=
  ∃ x, last steps = Some x ∧ step_done x = true.

(** The table [R], a function from states to rows, after
    [R[state][action] = value]. *)
Definition set_row (R : State → adict) (state : State) (action : Action)
    (value : Qc) : State → adict :=
  fun s => if decide (s = state) then adict_set (R state) action value else R s.

(** The SARSA updates along a trajectory, in the words of the
    specification (section 4.7): each step [(s, a, reward, next)] of the
    trajectory updates
    [Q[s][a] += alpha * (reward + gamma * Q[next][next_a] - Q[s][a])],
    where [next_a] is the action of the step that follows and the value
    past a terminal step is zero.  The result lists the assignments, in
    order. *)
Fixpoint sarsa_updates (alpha gamma : Qc) (R : State → adict)
    (steps : list (State * Action * State * Qc * bool))
    : list (State * Action * Qc) :=
  match steps with
  | [] => []
  | (s, a, s', reward, d) :: rest =>
      let old_value := default 0%Qc (adict_get (R s) a) in
      let next_value :=
        match rest with
        | (_, a', _, _, _) :: _ =>
            if d then 0%Qc else default 0%Qc (adict_get (R s') a')
        | [] => 0%Qc
        end in
      let value := (old_value + alpha * (reward + gamma * next_value - old_value))%Qc in
      (s, a, value) :: sarsa_updates alpha gamma (set_row R s a value) rest
  end.

(** The table after a list of assignments. *)
Definition apply_updates (R : State → adict) (updates : list (State * Action * Qc))
    : State → adict :=
  foldl (fun R u => set_row R u.1.1 u.1.2 u.2) R updates.

(** The four learners, run with the same parameters. *)
Definition td_learners (alpha gamma epsilon : Qc) (n_steps max_steps_per_episode : Z)
    (episodes fuel : nat)
    : list (Homework2.TD (gmap State adict * gmap State Action * list Qc)) :=
  [Homework2.q_learning env alpha gamma epsilon episodes fuel;
   Homework2.sarsa env alpha gamma epsilon episodes fuel;
   Homework2.expected_sarsa env alpha gamma epsilon episodes fuel;
   Homework2.n_step_sarsa env alpha gamma epsilon n_steps max_steps_per_episode
     episodes fuel].

End Learners.

End Spec.

(** ** Inputs of the example runs *)

Module Examples.

(** The generator whose every draw is zero. *)
Definition zeros : Random :=
  {| tape := fun _ => {| as_uniform := 0%Qc; as_index := 0 |}; cursor := 0 |}.

(** A generator that always explores (its uniform draws are zero) and
    picks the actions at the given indices, one after the other. *)
Definition scripted (indices : list nat) : Random :=
  {| tape := fun n => {| as_uniform := 0%Qc; as_index := nth (n / 2) indices O |};
     cursor := 0 |}.

(** On [cliffwalk1]: east, south, south, east, from the start to the
    goal. *)
Definition to_the_goal : Random := scripted [3; 1; 1; 3]%nat.

(** The environment of the example runs. *)
Definition env1 : Env := CliffWalk.as_env CliffWalk.cliffwalk1.

(** Whether an event is a call of [choose_action_e_greedy] at [s]. *)
Definition is_choose_at (s : State) (e : Homework2.event) : bool :=
  match e with
  | Homework2.Choose s' => bool_decide (s' = s)
  | _ => false
  end.

(** Whether an event is a step landing on [s]. *)
Definition is_step_to (s : State) (e : Homework2.event) : bool :=
  match e with
  | Homework2.Step _ _ s' _ _ => bool_decide (s' = s)
  | _ => false
  end.

End Examples.

(** ** Reasoning about runs of the learners *)

Module Logic.

Import Homework2.

(** The machine after an event, with another generator, with another
    table. *)
Definition add_event (e : event) (m : Machine) : Machine :=
  {| q_table := q_table m; rng := rng m; events := events m ++ [e] |}.

Definition set_rng (g : Random) (m : Machine) : Machine :=
  {| q_table := q_table m; rng := g; events := events m |}.

Definition set_table (q : gmap State adict) (m : Machine) : Machine :=
  {| q_table := q; rng := rng m; events := events m |}.

(** The updates and the steps a machine has logged. *)
Definition logged (updates : list (State * Action * Qc))
    (steps : list (State * Action * State * Qc * bool)) (m : Machine) : Prop :=
  Spec.update_log (events m) = updates ∧ Spec.step_log (events m) = steps.

(** Weakest precondition: [c] run from [m] ends with a value and machine
    satisfying [Q], or raises in a machine satisfying [E], or runs out of
    fuel in a machine satisfying [F]. *)
Definition wp {A : Type} (c : TD A) (Q : A → Machine → Prop)
    (E F : Machine → Prop) (m : Machine) : Prop :=
  match c m with
  | Val a m' => Q a m'
  | Exc _ m' => E m'
  | Fuel m' => F m'
  end.

Section Access.

Variable env : Env.

(** The row [q_table[state]] evaluates to, and the machine after that
    evaluation. *)
Definition row_at (state : State) (m : Machine) : adict :=
  default (zero_row (action_keys env)) (q_table m !! state).

Definition touch (state : State) (m : Machine) : Machine :=
  match q_table m !! state with
  | Some _ => m
  | None => set_table (<[state := zero_row (action_keys env)]> (q_table m)) m
  end.

(** The machine after [q_table[state][action] = value]. *)
Definition write (state : State) (action : Action) (value : Qc) (m : Machine) : Machine :=
  add_event (Update state action value)
    (set_table (<[state := adict_set (row_at state m) action value]> (q_table m)) m).

(** The machine has logged the updates [U] and the steps [S], and its
    table reads as [R]: [q_table[s]] evaluates to [R s] at every state. *)
Definition tracks (U : list (State * Action * Qc))
    (S : list (State * Action * State * Qc * bool)) (R : State → adict)
    (m : Machine) : Prop :=
  logged U S m ∧ ∀ s, row_at s m = R s.

(** A property of machines that the atomic actions of a learner keep.
    [choose_goal] tells whether the learner may call
    [choose_action_e_greedy] at the goal, [touch_goal] whether it may
    evaluate [q_table[goal]]; steps and assignments only happen at states
    other than the goal. *)
Record invariant (choose_goal touch_goal : bool) (I : Machine → Prop) : Prop := {
  inv_rng : ∀ m g, I m → I (set_rng g m);
  inv_choose : ∀ m s,
    (choose_goal = false → s ≠ goal_pos env) → I m → I (add_event (Choose s) m);
  inv_step : ∀ m s a s' r d,
    s ≠ goal_pos env → step env s a = Return (s', r, d) →
    I m → I (add_event (Step s a s' r d) m);
  inv_touch : ∀ m s,
    (touch_goal = false → s ≠ goal_pos env) → I m → I (touch s m);
  inv_write : ∀ m s a v, s ≠ goal_pos env → I m → I (write s a v m)
}.

(** Every step that has landed on the goal has been followed by an
    evaluation of [q_table[goal]], but possibly the latest one when its
    next state [pending] is the goal and is still to be looked up. *)
Definition goal_row_follows (pending : option State) (m : Machine) : Prop :=
  Spec.goal_reached env (events m) →
  pending = Some (goal_pos env) ∨ is_Some (q_table m !! goal_pos env).

End Access.

End Logic.

(** ** [Homework2/source/visualization.py] *)

Module Visualization.

(** [q_to_v_table] (lines 21-30): the value of a state is
    [max(action_values.values())], and [0.0] when its row is empty; the
    guard [if action_values] keeps [max] from an empty row. *)
Definition q_to_v_table (q_table : gmap State adict) : gmap State Qc :=
  (fun action_values =>
     match action_values with
     | [] => 0%Qc
     | (_, q) :: rest => max_loop q (map snd rest)
     end) <$> q_table.

End Visualization.

(** ** Further vocabulary for the properties of the code *)

Module Props.

Section Tables.

Variable env : Env.

(** The keys of a table are the states of [env.states], and the goal,
    when it is one of them, holds [x]. *)
Definition keyed_by_states {V : Type} (x : V) (T : gmap State V) : Prop :=
  dom T = list_to_set (states env) ∧
  (goal_pos env ∈ states env → T !! goal_pos env = Some x).

(** The keys of a policy of the policy iterations are the states and the
    goal, the goal holds the empty string and every other state an action
    of [env.action_keys]. *)
Definition policy_shape (policy : gmap State Action) : Prop :=
  dom policy = {[goal_pos env]} ∪ list_to_set (states env) ∧
  policy !! goal_pos env = Some EmptyString ∧
  ∀ s, s ∈ states env → s ≠ goal_pos env →
       ∃ a, policy !! s = Some a ∧ a ∈ action_keys env.

(** The environment is closed: there is an action, and [env.step] from a
    non-goal state of [env.states] with an action of [env.action_keys]
    returns, and lands on a state of [env.states]. *)
Definition closed : Prop :=
  action_keys env ≠ [] ∧
  ∀ s a, s ∈ states env → s ≠ goal_pos env → a ∈ action_keys env →
         ∃ s' r d, step env s a = Return (s', r, d) ∧ s' ∈ states env.

(** Every row of a Q-table has the keys of
    [{action: 0.0 for action in env.action_keys}], in that order. *)
Definition rows_keyed (q : gmap State adict) : Prop :=
  ∀ s row, q !! s = Some row → adict_keys row = adict_keys (zero_row (action_keys env)).

(** [env.step] returns for every state and every action of
    [env.action_keys]. *)
Definition step_total : Prop :=
  ∀ s a, a ∈ action_keys env → ∃ s' r d, step env s a = Return (s', r, d).

(** [a] is the first of the greedy actions at [s] against the table [V]:
    it stands at some position of [env.action_keys], every action at an
    earlier position has a strictly smaller action value and every action
    at a later position has one that is no greater. *)
Definition first_greedy (gamma : Qc) (V : gmap State Qc) (s : State) (a : Action)
    : Prop :=
  ∃ i q,
    action_keys env !! i = Some a ∧
    Homework1.q_value env gamma V s a = Ok q ∧
    ∀ j a' q',
      action_keys env !! j = Some a' →
      Homework1.q_value env gamma V s a' = Ok q' →
      ((j < i)%nat → (q' < q)%Qc) ∧ ((i < j)%nat → (q' <= q)%Qc).

(** Every row of a Q-table is the row of zeros. *)
Definition rows_zero (q : gmap State adict) : Prop :=
  ∀ s row, q !! s = Some row → row = zero_row (action_keys env).

(** Every reward [env.step] returns is zero. *)
Definition reward_free : Prop :=
  ∀ s a s' r d, step env s a = Return (s', r, d) → r = 0%Qc.

End Tables.

(** A logged step [(state, action, next_state, reward, done)]: where it
    starts, where it lands and what it pays. *)
Definition step_from (x : State * Action * State * Qc * bool) : State := x.1.1.1.1.

Definition step_to (x : State * Action * State * Qc * bool) : State := x.1.1.2.

Definition step_reward (x : State * Action * State * Qc * bool) : Qc := x.1.2.

(** [total_reward] after the steps: [total_reward += reward] for each of
    them, in order. *)
Definition add_rewards (total_reward : Qc)
    (steps : list (State * Action * State * Qc * bool)) : Qc :=
  foldl (fun total x => (total + step_reward x)%Qc) total_reward steps.

(** The return of an episode: its [total_reward], started at [0]. *)
Definition episode_return (steps : list (State * Action * State * Qc * bool)) : Qc :=
  add_rewards 0%Qc steps.

(** The steps form a path from [s]: the first starts at [s] and each of
    the others where the one before it has landed. *)
Fixpoint path_from (s : State) (steps : list (State * Action * State * Qc * bool))
    : Prop :=
  match steps with
  | [] => True
  | x :: rest => step_from x = s ∧ path_from (step_to x) rest
  end.

End Props.

(** ** Facts about the Python values *)

Module PyFacts.

Lemma Qcltb_lt (x y : Qc) : Qcltb x y = true ↔ (x < y)%Qc.
Proof.
  rewrite Qclt_alt. unfold Qcltb.
  destruct (x ?= y)%Qc; split; congruence.
Qed.

Lemma Qcltb_ge (x y : Qc) : Qcltb x y = false ↔ (y <= x)%Qc.
Proof.
  rewrite Qcle_ngt, <- Qcltb_lt. destruct (Qcltb x y); split; congruence.
Qed.

Lemma Qceqb_eq (x y : Qc) : Qceqb x y = true ↔ x = y.
Proof.
  rewrite Qceq_alt. unfold Qceqb.
  destruct (x ?= y)%Qc; split; congruence.
Qed.

End PyFacts.

(** ** Facts about ordered dictionaries *)

Module DictFacts.

Import PyFacts.

Lemma adict_get_set (d : adict) (k k' : Action) (x : Qc) :
  adict_get (adict_set d k x) k' = if decide (k = k') then Some x else adict_get d k'.
Proof.
  induction d as [|[k0 y] d IH]; simpl.
  - destruct (String.eqb_spec k k'); case_decide; congruence.
  - destruct (String.eqb_spec k0 k) as [->|Hne]; simpl.
    + destruct (String.eqb_spec k k'); case_decide; congruence.
    + destruct (String.eqb_spec k0 k'); [|done].
      case_decide; congruence.
Qed.

Lemma adict_keys_set (d : adict) (k : Action) (x : Qc) :
  (adict_keys d = adict_keys (adict_set d k x)) ∨ (k ∉ adict_keys d ∧ adict_keys (adict_set d k x) = adict_keys d ++ [k]).
Proof.
  induction d as [|[k0 y] d IH]; simpl.
  - right. split; [apply not_elem_of_nil | done].
  - destruct (String.eqb_spec k0 k) as [->|Hne]; simpl; [by left|].
    destruct IH as [IH|[Hn IH]]; [left; unfold adict_keys in *; by f_equal/=|right].
    split; [|unfold adict_keys in *; by f_equal/=]. unfold adict_keys; rewrite elem_of_cons. naive_solver.
Qed.

Lemma adict_set_NoDup (d : adict) (k : Action) (x : Qc) :
  NoDup (adict_keys d) → NoDup (adict_keys (adict_set d k x)).
Proof.
  intros Hd. destruct (adict_keys_set d k x) as [<-|[Hn ->]]; [done|].
  apply NoDup_app. split_and!; [done| |apply NoDup_singleton].
  intros y Hy ->%list_elem_of_singleton. done.
Qed.

Lemma adict_get_elem (d : adict) (k : Action) (x : Qc) :
  NoDup (adict_keys d) → (k, x) ∈ d ↔ adict_get d k = Some x.
Proof.
  induction d as [|[k0 y] d IH]; simpl.
  - intros _. split; [by intros ?%elem_of_nil | done].
  - intros [Hn Hd]%NoDup_cons. rewrite elem_of_cons, IH by done.
    destruct (String.eqb_spec k0 k) as [->|Hne].
    + split; [|intros [= ->]; by left].
      intros [[= ->]|Hg]; [done|].
      apply IH in Hg; [|done]. destruct Hn.
      apply (list_elem_of_fmap_2 fst) in Hg. done.
    + split; [|by right]. intros [[= ? ?]|?]; congruence.
Qed.

Lemma adict_get_key (d : adict) (k : Action) (x : Qc) :
  adict_get d k = Some x → k ∈ adict_keys d.
Proof.
  induction d as [|[k0 y] d IH]; simpl; [done|].
  destruct (String.eqb_spec k0 k) as [->|Hne]; [intros _; left|right; auto].
Qed.

Lemma adict_key_get (d : adict) (k : Action) :
  k ∈ adict_keys d → is_Some (adict_get d k).
Proof.
  induction d as [|[k0 y] d IH]; simpl; [by intros ?%elem_of_nil|].
  destruct (String.eqb_spec k0 k) as [->|Hne]; [by eauto|].
  intros [?|?]%elem_of_cons; [congruence|auto].
Qed.

(** *** The first maximal item *)

(** [(a, q)] is the first item of [d] with the greatest value. *)
Definition first_max (d : adict) (a : Action) (q : Qc) : Prop :=
  ∃ d1 d2, d = d1 ++ (a, q) :: d2 ∧
           Forall (fun item => (item.2 < q)%Qc) d1 ∧
           Forall (fun item => (item.2 <= q)%Qc) d2.

Lemma max_by_loop_first_max (d : adict) (best : Action) (best_q : Qc) :
  ∃ q, first_max ((best, best_q) :: d) (max_by_loop best best_q d) q.
Proof.
  revert best best_q.
  induction d as [|[a q] d IH]; intros best best_q; simpl.
  - exists best_q, [], []. split_and!; [done|constructor|constructor].
  - destruct (Qcltb best_q q) eqn:E.
    + apply Qcltb_lt in E.
      destruct (IH a q) as (q' & d1 & d2 & Heq & H1 & H2).
      exists q', ((best, best_q) :: d1), d2.
      split_and!; [by rewrite Heq| |done].
      constructor; [|done]. simpl.
      eapply Qclt_le_trans; [done|].
      destruct d1 as [|[a1 q1] d1]; simplify_eq/=; [apply Qcle_refl|].
      apply Forall_cons in H1 as [H1 _]. by apply Qclt_le_weak.
    + apply Qcltb_ge in E.
      destruct (IH best best_q) as (q' & d1 & d2 & Heq & H1 & H2).
      remember (max_by_loop best best_q d) as M eqn:HM. clear HM IH.
      destruct d1 as [|[a1 q1] d1]; simpl in Heq.
      * injection Heq as Ha Hq Hd. subst M q' d2.
        exists best_q, [], ((a, q) :: d). split_and!; [done|constructor|].
        by constructor.
      * injection Heq as Ha Hq Hd. subst a1 q1 d.
        exists q', ((best, best_q) :: (a, q) :: d1), d2.
        split_and!; [done| |done].
        apply Forall_cons in H1 as [H1 H1']. simpl in H1.
        constructor; [done|]. constructor; [|done]. simpl.
        eapply Qcle_lt_trans; done.
Qed.

Lemma adict_argmax_first_max (d : adict) (a : Action) :
  adict_argmax d = Ok a → ∃ q, first_max d a q.
Proof.
  destruct d as [|[a0 q0] d]; [done|]. intros [= <-].
  apply max_by_loop_first_max.
Qed.

Lemma adict_argmax_ok (d : adict) : d ≠ [] → ∃ a, adict_argmax d = Ok a.
Proof. destruct d as [|[a0 q0] d]; [done|]. intros _. by eexists. Qed.

Lemma first_max_elem (d : adict) (a : Action) (q : Qc) :
  first_max d a q → (a, q) ∈ d.
Proof. intros (d1 & d2 & -> & _). set_solver. Qed.

Lemma first_max_ge (d : adict) (a : Action) (q : Qc) (a' : Action) (q' : Qc) :
  first_max d a q → (a', q') ∈ d → (q' <= q)%Qc.
Proof.
  intros (d1 & d2 & -> & H1 & H2) [Hin|[[= -> ->]|Hin]%elem_of_cons]%elem_of_app.
  - rewrite Forall_forall in H1. apply Qclt_le_weak, (H1 _ Hin).
  - apply Qcle_refl.
  - rewrite Forall_forall in H2. apply (H2 _ Hin).
Qed.

Lemma max_loop_spec (best : Qc) (l : list Qc) :
  max_loop best l ∈ best :: l ∧ Forall (fun q => (q <= max_loop best l)%Qc) (best :: l).
Proof.
  revert best. induction l as [|q l IH]; intros best; simpl.
  - split; [left|]. repeat constructor. apply Qcle_refl.
  - destruct (Qcltb best q) eqn:E.
    + apply Qcltb_lt in E. destruct (IH q) as [Hin Hall]. split; [set_solver|].
      apply Forall_cons in Hall as [Hq Hall].
      constructor; [|by constructor].
      apply Qclt_le_weak. eapply Qclt_le_trans; done.
    + apply Qcltb_ge in E. destruct (IH best) as [Hin Hall]. split; [set_solver|].
      apply Forall_cons in Hall as [Hq Hall].
      constructor; [done|]. constructor; [|done]. by etrans.
Qed.

(** *** Rows of zeros *)

Definition all_zero (d : adict) : Prop := Forall (fun item => item.2 = 0%Qc) d.

Lemma adict_set_all_zero (d : adict) (k : Action) :
  all_zero d → all_zero (adict_set d k 0%Qc).
Proof.
  unfold all_zero. induction d as [|[k0 y] d IH]; simpl; intros Hz.
  - by repeat constructor.
  - apply Forall_cons in Hz as [Hy Hz].
    destruct (String.eqb k0 k); constructor; auto.
Qed.

Lemma adict_keys_set_elem (d : adict) (k k' : Action) (x : Qc) :
  k' ∈ adict_keys (adict_set d k x) ↔ k' ∈ adict_keys d ∨ k' = k.
Proof.
  unfold adict_keys. induction d as [|[k0 y] d IH]; simpl.
  - rewrite list_elem_of_singleton, elem_of_nil. tauto.
  - destruct (String.eqb_spec k0 k) as [->|Hne]; simpl.
    + rewrite elem_of_cons. tauto.
    + rewrite !elem_of_cons, IH. tauto.
Qed.

Lemma zero_row_from (acts : list Action) (d : adict) :
  NoDup (adict_keys d) → all_zero d →
  let row := fold_left (fun d action => adict_set d action 0%Qc) acts d in
  NoDup (adict_keys row) ∧ all_zero row ∧
  (∀ k, k ∈ adict_keys row ↔ k ∈ adict_keys d ∨ k ∈ acts).
Proof.
  revert d. induction acts as [|k acts IH]; intros d Hnd Hz; simpl.
  - split_and!; [done|done|]. intros k. rewrite elem_of_nil. tauto.
  - destruct (IH (adict_set d k 0%Qc)) as (H1 & H2 & H3);
      [by apply adict_set_NoDup|by apply adict_set_all_zero|].
    split_and!; [done|done|].
    intros k'. rewrite H3, adict_keys_set_elem, elem_of_cons. tauto.
Qed.

Lemma zero_row_NoDup (acts : list Action) : NoDup (adict_keys (zero_row acts)).
Proof. apply (zero_row_from acts []); [constructor|constructor]. Qed.

Lemma zero_row_zero (acts : list Action) : all_zero (zero_row acts).
Proof. apply (zero_row_from acts []); [constructor|constructor]. Qed.

Lemma zero_row_keys (acts : list Action) (k : Action) :
  k ∈ adict_keys (zero_row acts) ↔ k ∈ acts.
Proof.
  destruct (zero_row_from acts []) as (_ & _ & H); [constructor|constructor|].
  rewrite H. unfold adict_keys. simpl. rewrite elem_of_nil. tauto.
Qed.

Lemma fold_set_head (acts : list Action) (d : adict) (k0 : Action) (x0 : Qc) :
  ∃ x row', fold_left (fun d action => adict_set d action 0%Qc) acts ((k0, x0) :: d)
            = (k0, x) :: row'.
Proof.
  revert d x0. induction acts as [|k acts IH]; intros d x0; simpl; [by eauto|].
  destruct (String.eqb k0 k); apply IH.
Qed.

Lemma zero_row_head (a : Action) (acts : list Action) :
  ∃ row', zero_row (a :: acts) = (a, 0%Qc) :: row'.
Proof.
  unfold zero_row. simpl.
  destruct (fold_set_head acts [] a 0%Qc) as (x & row' & Heq).
  exists row'. rewrite Heq. f_equal. f_equal.
  pose proof (zero_row_zero (a :: acts)) as Hz. unfold zero_row in Hz. simpl in Hz.
  rewrite Heq in Hz. by apply Forall_cons in Hz as [Hz _].
Qed.

End DictFacts.

(** ** The dynamic-programming solvers *)

Module Homework1Facts.

Import PyFacts DictFacts Homework1 Spec.

Lemma bind_Ok {A B : Type} (m : outcome A) (k : A → outcome B) (r : B) :
  m ≫= k = Ok r ↔ ∃ a, m = Ok a ∧ k a = Ok r.
Proof.
  unfold mbind, outcome_bind, Py.bind. destruct m; split.
  - eauto.
  - by intros (? & [= <-] & ?).
  - done.
  - by intros (? & [=] & ?).
  - done.
  - by intros (? & [=] & ?).
Qed.

(** Splits a hypothesis [x ← m; k = Ok r] into the successful call of [m]
    and the rest. *)
Tactic Notation "unbind" hyp(H) "as" simple_intropattern(x) ident(E) :=
  apply bind_Ok in H as (x & E & H).

Lemma getitem_Ok {V : Type} (d : gmap State V) (k : State) (x : V) :
  getitem d k = Ok x ↔ d !! k = Some x.
Proof. unfold getitem. destruct (d !! k); split; congruence. Qed.

Lemma adict_getitem_Ok (d : adict) (k : Action) (x : Qc) :
  adict_getitem d k = Ok x ↔ adict_get d k = Some x.
Proof. unfold adict_getitem. destruct (adict_get d k); split; congruence. Qed.

Section Solvers.

Variable env : Env.
Variable gamma : Qc.

Abbreviation q_value := (q_value env gamma).
Abbreviation action_values_loop := (action_values_loop env gamma).

(** *** The action values and their maximum *)

Lemma action_values_loop_spec v s acts d0 d :
  NoDup (adict_keys d0) →
  action_values_loop v s acts d0 = Ok d →
  NoDup (adict_keys d) ∧
  (∀ a, a ∈ adict_keys d ↔ a ∈ adict_keys d0 ∨ a ∈ acts) ∧
  (∀ a, a ∈ acts → ∃ q, q_value v s a = Ok q ∧ adict_get d a = Some q) ∧
  (∀ a, a ∉ acts → adict_get d a = adict_get d0 a).
Proof.
  revert d0. induction acts as [|a0 acts IH]; intros d0 Hnd H; simpl in H.
  - injection H as <-. split_and!; [done| |by intros ? ?%elem_of_nil|done].
    intros a. rewrite elem_of_nil. tauto.
  - unbind H as q0 E.
    destruct (IH _ (adict_set_NoDup _ a0 q0 Hnd) H) as (H1 & H2 & H3 & H4).
    split_and!; [done| | |].
    + intros a. rewrite H2, adict_keys_set_elem, elem_of_cons. tauto.
    + intros a Ha. destruct (decide (a ∈ acts)) as [Hin|Hnin]; [by apply H3|].
      apply elem_of_cons in Ha as [->|?]; [|done].
      exists q0. split; [done|]. rewrite (H4 _ Hnin), adict_get_set.
      by case_decide.
    + intros a [Hne Hnin]%not_elem_of_cons. rewrite (H4 _ Hnin), adict_get_set.
      by case_decide.
Qed.

(** The action found by [max(action_values, key=action_values.get)] is
    greedy, and [action_values[best_action]] is the maximal action
    value. *)
Lemma best_action_greedy v s action_values best_action :
  action_values_loop v s (action_keys env) [] = Ok action_values →
  adict_argmax action_values = Ok best_action →
  ∃ m, adict_getitem action_values best_action = Ok m ∧
       q_value v s best_action = Ok m ∧
       best_action ∈ action_keys env ∧
       max_action_value env gamma v s m.
Proof.
  intros Hav Hmax.
  destruct (action_values_loop_spec v s (action_keys env) [] action_values)
    as (Hnd & Hk & Hq & _); [apply NoDup_nil_2|done|].
  destruct (adict_argmax_first_max _ _ Hmax) as [m Hfm].
  pose proof (first_max_elem _ _ _ Hfm) as Hin.
  pose proof (proj1 (adict_get_elem _ _ _ Hnd) Hin) as Hget.
  assert (best_action ∈ action_keys env) as Hba.
  { apply adict_get_key, Hk in Hget as [[]%elem_of_nil|?]. done. }
  destruct (Hq _ Hba) as (q & Hqv & Hget'). assert (q = m) as -> by congruence.
  exists m. split_and!; [by apply adict_getitem_Ok|done|done|].
  split; [by eauto|]. intros a q Ha Hqa.
  destruct (Hq _ Ha) as (q' & Hqv' & Hg). assert (q' = q) as -> by congruence.
  eapply first_max_ge; [done|]. by apply adict_get_elem.
Qed.

(** *** Value iteration: one sweep *)

Lemma vi_sweep_spec v_old_iter ss v policy delta v' policy' delta' :
  vi_sweep env gamma v_old_iter ss v policy delta = Ok (v', policy', delta') →
  (∀ s, s ∈ ss → s ≠ goal_pos env →
        ∃ a m, v' !! s = Some m ∧ policy' !! s = Some a ∧
               q_value v_old_iter s a = Ok m ∧ a ∈ action_keys env ∧
               max_action_value env gamma v_old_iter s m) ∧
  (∀ s, s ∉ ss ∨ s = goal_pos env → v' !! s = v !! s ∧ policy' !! s = policy !! s).
Proof.
  revert v policy delta.
  induction ss as [|s0 ss IH]; intros v policy delta H; simpl in H.
  - injection H as <- <- <-. split; [by intros ? ?%elem_of_nil|done].
  - case_decide as Hg.
    + destruct (IH _ _ _ H) as [H1 H2]. split.
      * intros s [->|Hin]%elem_of_cons Hne; [done|by apply H1].
      * intros s [[Hne Hnin]%not_elem_of_cons| ->].
        -- apply H2. by left.
        -- apply H2. by right.
    + unbind H as v_old Ev. unbind H as action_values E0.
      unbind H as best_action E1. unbind H as q E2. unbind H as v_s E3.
      destruct (best_action_greedy _ _ _ _ E0 E1) as (m & Hm & Hqv & Hba & Hmax).
      assert (m = q) as -> by congruence. clear Hm.
      destruct (IH _ _ _ H) as [H1 H2]. split.
      * intros s Hin Hne. destruct (decide (s ∈ ss)) as [Hin'|Hnin]; [by apply H1|].
        apply elem_of_cons in Hin as [->|?]; [|done].
        destruct (H2 s0) as [Hv Hp]; [by left|].
        exists best_action, q. rewrite Hv, Hp, !lookup_insert_eq. done.
      * intros s Hs. destruct (decide (s = goal_pos env)) as [->|Hne].
        -- destruct (H2 (goal_pos env)) as [Hv Hp]; [by right|].
           rewrite Hv, Hp, !lookup_insert_ne by done. done.
        -- destruct Hs as [[Hne' Hnin]%not_elem_of_cons|?]; [|done].
           destruct (H2 s) as [Hv Hp]; [by left|].
           rewrite Hv, Hp, !lookup_insert_ne by done. done.
Qed.

(** Every sweep of value iteration is synchronous: started on the table
    [V], with [V] as its snapshot, it leaves at every non-goal state the
    maximal action value computed from [V] as it stood before the sweep. *)
Lemma vi_sweep_synchronous V policy V' policy' delta :
  vi_sweep env gamma V (states env) V policy 0%Qc = Ok (V', policy', delta) →
  synchronous_optimal_sweep env gamma V V'.
Proof.
  intros [H1 H2]%vi_sweep_spec. split.
  - intros s Hin Hne. destruct (H1 s Hin Hne) as (a & m & ? & _ & _ & _ & ?). eauto.
  - apply H2. by right.
Qed.

Lemma chain_snoc sweep tables V V' :
  last tables = Some V → chain sweep tables → sweep V V' →
  chain sweep (tables ++ [V']).
Proof.
  intros Hlast Hc Hs k T T' Hk HSk.
  destruct (decide (S k < length tables)) as [Hlt|Hge].
  - rewrite lookup_app_l in Hk, HSk by lia. by eapply Hc.
  - rewrite last_lookup in Hlast.
    assert (k < length tables)%nat as Hk'.
    { apply lookup_lt_Some in HSk. rewrite length_app in HSk. simpl in HSk. lia. }
    assert (k = pred (length tables)) as -> by lia.
    rewrite lookup_app_l in Hk by lia.
    rewrite lookup_app_r in HSk by lia.
    replace (S (pred (length tables)) - length tables)%nat with 0%nat in HSk by lia.
    simpl in HSk. congruence.
Qed.

Lemma vi_loop_spec fuel theta V policy history v policy' history' :
  vi_loop env gamma fuel theta V policy history = Ok (v, policy', history') →
  last history = Some V →
  chain (synchronous_optimal_sweep env gamma) history →
  history `prefix_of` history' ∧
  length history < length history' ∧
  last history' = Some v ∧
  chain (synchronous_optimal_sweep env gamma) history'.
Proof.
  revert V policy history.
  induction fuel as [|fuel IH]; intros V policy history H Hlast Hc; [done|].
  simpl in H. unbind H as [[V1 policy1] delta] E.
  pose proof (vi_sweep_synchronous _ _ _ _ _ E) as Hsync.
  pose proof (chain_snoc _ _ _ _ Hlast Hc Hsync) as Hc'.
  destruct (Qcltb delta theta).
  - injection H as <- <- <-. split_and!; [by apply prefix_app_r| |by rewrite last_snoc|done].
    rewrite length_app. simpl. lia.
  - destruct (IH _ _ _ H) as (Hp & Hl & Hlast' & Hc''); [by rewrite last_snoc|done|].
    split_and!; [|rewrite length_app in Hl; lia|done|done].
    etrans; [|done]. by apply prefix_app_r.
Qed.

(** Claim C1.  [value_iteration] updates synchronously.  The history of a
    run holds the table before the first sweep and the table after every
    sweep, so two consecutive entries are the snapshot and the result of
    one sweep: at every non-goal state the new value is the maximum over
    the actions of [reward(s,a) + gamma * V_snapshot[next(s,a)]], computed
    from the table as it stood before any state of that sweep was
    updated.  The history starts at the all-zero table and ends at the
    returned table. *)
Theorem value_iteration_synchronous theta fuel v policy history :
  value_iteration env gamma theta fuel = Ok (v, policy, history) →
  head history = Some (dict_from_states env 0%Qc) ∧
  last history = Some v ∧
  ∀ k V_snapshot V_new s,
    history !! k = Some V_snapshot →
    history !! S k = Some V_new →
    s ∈ states env → s ≠ goal_pos env →
    ∃ m, V_new !! s = Some m ∧ max_action_value env gamma V_snapshot s m.
Proof.
  unfold value_iteration. intros H.
  apply vi_loop_spec in H as ([rest ->] & _ & Hlast & Hc); [|done|].
  - split_and!; [done|done|].
    intros k V_snapshot V_new s Hk HSk Hin Hne.
    destruct (Hc k V_snapshot V_new Hk HSk) as [Hs _]. by apply Hs.
  - intros [|k] ? ? ? ?; simplify_eq/=.
Qed.

(** *** Policy improvement *)

(** [max(action_values, key=action_values.get)] as a function of the table
    and the state. *)
Definition best_action_of (v : gmap State Qc) (s : State) : outcome Action :=
  action_values_loop v s (action_keys env) [] ≫= adict_argmax.

Lemma best_action_of_greedy v s a :
  best_action_of v s = Ok a → greedy_action env gamma v s a.
Proof.
  intros H. unfold best_action_of in H. unbind H as action_values E.
  destruct (best_action_greedy _ _ _ _ E H) as (m & _ & Hq & Hin & Hmax).
  split; [done|]. eauto.
Qed.

Lemma improve_sweep_spec v ss policy stable policy' stable' :
  improve_sweep env gamma v ss policy stable = Ok (policy', stable') →
  (∀ s, s ∈ ss → s ≠ goal_pos env →
        ∃ a, best_action_of v s = Ok a ∧ policy' !! s = Some a) ∧
  (∀ s, s ∉ ss ∨ s = goal_pos env → policy' !! s = policy !! s) ∧
  (stable' = true ↔
   stable = true ∧ ∀ s, s ∈ ss → s ≠ goal_pos env → policy' !! s = policy !! s).
Proof.
  revert policy stable.
  induction ss as [|s0 ss IH]; intros policy stable H; simpl in H.
  - injection H as <- <-. split_and!; [by intros ? ?%elem_of_nil|done|].
    split; [|tauto]. intros ->. split; [done|]. by intros ? ?%elem_of_nil.
  - case_decide as Hg.
    + destruct (IH _ _ H) as (H1 & H2 & H3). split_and!.
      * intros s [->|Hin]%elem_of_cons Hne; [done|by apply H1].
      * intros s [[Hne Hnin]%not_elem_of_cons| ->]; apply H2; auto.
      * rewrite H3. split; intros [Hs Hall]; (split; [done|]).
        -- intros s [->|Hin]%elem_of_cons Hne; [done|by apply Hall].
        -- intros s Hin Hne. apply Hall; [by right|done].
    + unbind H as old_action Eo. apply getitem_Ok in Eo.
      unbind H as action_values Ea. unbind H as best_action Eb.
      assert (best_action_of v s0 = Ok best_action) as Hbest.
      { unfold best_action_of. apply bind_Ok. eauto. }
      destruct (IH _ _ H) as (H1 & H2 & H3).
      assert (policy' !! s0 = Some best_action) as Hs0.
      { destruct (decide (s0 ∈ ss)) as [Hin|Hnin].
        - destruct (H1 s0 Hin Hg) as (a & Ha & Hp).
          rewrite Hbest in Ha. injection Ha as <-. done.
        - rewrite H2 by auto. apply lookup_insert_eq. }
      split_and!.
      * intros s [->|Hin]%elem_of_cons Hne; [by eauto|by apply H1].
      * intros s Hs. destruct (decide (s = s0)) as [->|Hne].
        -- destruct Hs as [[? ?]%not_elem_of_cons|?]; done.
        -- rewrite H2; [by rewrite lookup_insert_ne|].
           destruct Hs as [[? ?]%not_elem_of_cons|?]; auto.
      * rewrite H3. destruct (String.eqb_spec old_action best_action) as [->|Hne].
        -- split; intros [Hs Hall]; (split; [done|]).
           ++ intros s [->|Hin]%elem_of_cons Hn; [congruence|].
              rewrite Hall by done. destruct (decide (s = s0)) as [->|Hne].
              ** rewrite lookup_insert_eq. done.
              ** by rewrite lookup_insert_ne.
           ++ intros s Hin Hn. destruct (decide (s = s0)) as [->|Hne].
              ** by rewrite lookup_insert_eq.
              ** rewrite lookup_insert_ne by done. apply Hall; [by right|done].
        -- split; [by intros [[=] _]|]. intros [_ Hall].
           specialize (Hall s0 ltac:(by left) Hg).
           rewrite Hs0, Eo in Hall. by injection Hall as <-.
Qed.

Lemma improve_sweep_improvement v policy policy' stable' :
  improve_sweep env gamma v (states env) policy true = Ok (policy', stable') →
  greedy_improvement env gamma v policy policy' ∧
  (stable' = true ↔ unchanged env policy policy').
Proof.
  intros (H1 & H2 & H3)%improve_sweep_spec. split; [split|].
  - intros s Hin Hne. destruct (H1 s Hin Hne) as (a & Ha & Hp).
    eauto using best_action_of_greedy.
  - done.
  - rewrite H3. unfold unchanged. tauto.
Qed.

(** *** Truncated policy evaluation *)

Lemma tpe_sweep_spec policy v_old ss v v' :
  tpe_sweep env gamma policy v_old ss v = Ok v' →
  (∀ s, s ∈ ss → s ≠ goal_pos env →
        ∃ a q, policy !! s = Some a ∧ q_value v_old s a = Ok q ∧ v' !! s = Some q) ∧
  (∀ s, s ∉ ss ∨ s = goal_pos env → v' !! s = v !! s).
Proof.
  revert v. induction ss as [|s0 ss IH]; intros v H; simpl in H.
  - injection H as <-. split; [by intros ? ?%elem_of_nil|done].
  - case_decide as Hg.
    + destruct (IH _ H) as [H1 H2]. split.
      * intros s [->|Hin]%elem_of_cons Hne; [done|by apply H1].
      * intros s [[Hne Hnin]%not_elem_of_cons| ->]; apply H2; auto.
    + unbind H as action Ea. apply getitem_Ok in Ea. unbind H as q Eq.
      destruct (IH _ H) as [H1 H2]. split.
      * intros s Hin Hne. destruct (decide (s ∈ ss)) as [Hin'|Hnin]; [by apply H1|].
        apply elem_of_cons in Hin as [->|?]; [|done].
        exists action, q. rewrite H2 by auto. by rewrite lookup_insert_eq.
      * intros s Hs. destruct (decide (s = s0)) as [->|Hne].
        -- destruct Hs as [[? ?]%not_elem_of_cons|?]; done.
        -- rewrite H2; [by rewrite lookup_insert_ne|].
           destruct Hs as [[? ?]%not_elem_of_cons|?]; auto.
Qed.

Lemma tpe_loop_spec n policy V V' :
  tpe_loop env gamma n policy V = Ok V' →
  truncated_evaluation env gamma n policy V V'.
Proof.
  revert V. induction n as [|n IH]; intros V H; simpl in H.
  - injection H as <-. exists [V]. split_and!; [done|done|done|].
    intros [|k] ? ? ? ?; simplify_eq/=.
  - unbind H as V1 E. apply tpe_sweep_spec in E.
    destruct (IH _ H) as (tables & Hlen & Hhead & Hlast & Hc).
    exists (V :: tables). split_and!; [simpl; lia|done| |].
    + destruct tables; [done|]. done.
    + intros [|k] T T' Hk HSk; simpl in *.
      * destruct tables as [|T0 tables]; simplify_eq/=. done.
      * by eapply Hc.
Qed.

Lemma tpi_loop_spec fuel j_truncate V policy history v policy' history' :
  tpi_loop env gamma fuel j_truncate V policy history = Ok (v, policy', history') →
  rounds env gamma (truncated_evaluation env gamma (Z.to_nat j_truncate))
         V policy v policy'.
Proof.
  revert V policy history.
  induction fuel as [|fuel IH]; intros V policy history H; [done|].
  simpl in H. unbind H as V1 Ev. apply tpe_loop_spec in Ev.
  unbind H as [policy1 stable] Ei.
  apply improve_sweep_improvement in Ei as [Hgi Hst].
  destruct stable.
  - injection H as <- <- <-. apply last_round; [done|done|by apply Hst].
  - eapply next_round; [done|done| |by eapply IH].
    rewrite <- Hst. done.
Qed.

(** Claim C5.  In [truncated_policy_iteration] every evaluation phase is
    exactly [j_truncate] sweeps, whatever the values do, and every one of
    these sweeps is synchronous: all its backups read the copy of the table
    made when the sweep began.  The run is a sequence of rounds, from the
    all-zero table and the initial policy to the returned table and policy,
    that ends with the first improvement pass that changes no action. *)
Theorem truncated_evaluation_exact_and_synchronous j_truncate g fuel v policy history :
  truncated_policy_iteration env gamma j_truncate g fuel = Ok (v, policy, history) →
  ∃ policy0,
    initial_policy env g = Ok policy0 ∧
    rounds env gamma (truncated_evaluation env gamma (Z.to_nat j_truncate))
           (dict_from_states env 0%Qc) policy0 v policy.
Proof.
  unfold truncated_policy_iteration. intros H. unbind H as policy0 E.
  exists policy0. split; [done|]. by eapply tpi_loop_spec.
Qed.

(** *** Policy evaluation in place *)

Lemma max_loop_pymax2 (d c : Qc) (cs : list Qc) :
  max_loop d (c :: cs) = max_loop (pymax2 d c) cs.
Proof. simpl. unfold pymax2. by destruct (Qcltb d c). Qed.

Lemma max_loop_greatest (d : Qc) (cs : list Qc) : greatest (d :: cs) (max_loop d cs).
Proof. apply max_loop_spec. Qed.

Lemma pe_sweep_spec policy ss V delta V' delta' :
  pe_sweep env gamma policy ss V delta = Ok (V', delta') →
  ∃ changes, in_place_sweep env gamma policy ss V V' changes ∧
             delta' = max_loop delta changes.
Proof.
  revert V delta. induction ss as [|s0 ss IH]; intros V delta H; simpl in H.
  - injection H as <- <-. exists []. split; [constructor|done].
  - case_decide as Hg.
    + destruct (IH _ _ H) as (changes & Hs & ->). exists changes.
      split; [|done]. rewrite Hg. by constructor.
    + unbind H as v_old Ev. apply getitem_Ok in Ev.
      unbind H as action Ea. apply getitem_Ok in Ea.
      unbind H as q Eq. unbind H as v_s Es.
      apply getitem_Ok in Es. rewrite lookup_insert_eq in Es. injection Es as <-.
      destruct (IH _ _ H) as (changes & Hs & ->).
      exists (Qcabs (v_old - q) :: changes). split.
      * by eapply sweep_backup.
      * by rewrite max_loop_pymax2.
Qed.

Lemma pe_loop_spec fuel theta policy V V' :
  pe_loop env gamma fuel theta policy V = Ok V' →
  evaluation_until env gamma theta policy V V'.
Proof.
  revert V. induction fuel as [|fuel IH]; intros V H; [done|].
  simpl in H. unbind H as [V1 delta] E.
  apply pe_sweep_spec in E as (changes & Hs & ->).
  destruct (Qcltb (max_loop 0%Qc changes) theta) eqn:Hlt.
  - injection H as <-. eapply evaluation_stops; [done|apply max_loop_greatest|].
    by apply Qcltb_lt.
  - eapply evaluation_repeats; [done|apply max_loop_greatest| |by apply IH].
    rewrite <- Qcltb_lt. by rewrite Hlt.
Qed.

Lemma pi_loop_spec fuel eval_fuel theta V policy history v policy' history' :
  pi_loop env gamma fuel eval_fuel theta V policy history = Ok (v, policy', history') →
  rounds env gamma (evaluation_until env gamma theta) V policy v policy'.
Proof.
  revert V policy history.
  induction fuel as [|fuel IH]; intros V policy history H; [done|].
  simpl in H. unbind H as V1 Ev. apply pe_loop_spec in Ev.
  unbind H as [policy1 stable] Ei.
  apply improve_sweep_improvement in Ei as [Hgi Hst].
  destruct stable.
  - injection H as <- <- <-. apply last_round; [done|done|by apply Hst].
  - eapply next_round; [done|done| |by eapply IH].
    rewrite <- Hst. done.
Qed.

(** The policy the rounds end with is greedy for the table they end with:
    it comes out of an improvement pass against that very table. *)
Lemma rounds_end_greedy evaluation V policy V' policy' :
  rounds env gamma evaluation V policy V' policy' →
  ∀ s, s ∈ states env → s ≠ goal_pos env →
       ∃ a, policy' !! s = Some a ∧ greedy_action env gamma V' s a.
Proof.
  induction 1 as [V policy V' policy' _ [Hg _] _|]; [|done].
  intros s Hin Hne. by apply Hg.
Qed.

(** Claim C6.  A run of [policy_iteration] is a sequence of rounds from the
    all-zero table and the initial policy to the returned table and policy.
    The evaluation phase of a round repeats in-place sweeps, in which a
    backup reads the table as the earlier backups of the same sweep have
    left it, until the maximum absolute change of a sweep is below [theta].
    Every improvement pass but the last changes the action of some state
    and the last changes none.  The returned policy is greedy for the
    returned table at every non-goal state. *)
Theorem policy_iteration_rounds theta g fuel eval_fuel v policy history :
  policy_iteration env gamma theta g fuel eval_fuel = Ok (v, policy, history) →
  ∃ policy0,
    initial_policy env g = Ok policy0 ∧
    rounds env gamma (evaluation_until env gamma theta)
           (dict_from_states env 0%Qc) policy0 v policy ∧
    ∀ s, s ∈ states env → s ≠ goal_pos env →
         ∃ a, policy !! s = Some a ∧ greedy_action env gamma v s a.
Proof.
  unfold policy_iteration. intros H. unbind H as policy0 E.
  apply pi_loop_spec in H.
  exists policy0. split_and!; [done|done|]. by eapply rounds_end_greedy.
Qed.

End Solvers.

(** A run on the 3x3 layout [cliffwalk1]. *)
Lemma value_iteration_synchronous_witness :
  ∃ v policy history,
    value_iteration (CliffWalk.as_env CliffWalk.cliffwalk1)
      (Q2Qc (9 # 10)) (Q2Qc (1 # 1000000)) 20 = Ok (v, policy, history) ∧
    head history = Some (dict_from_states (CliffWalk.as_env CliffWalk.cliffwalk1) 0%Qc) ∧
    last history = Some v ∧
    ∀ k V_snapshot V_new s,
      history !! k = Some V_snapshot →
      history !! S k = Some V_new →
      s ∈ states (CliffWalk.as_env CliffWalk.cliffwalk1) →
      s ≠ goal_pos (CliffWalk.as_env CliffWalk.cliffwalk1) →
      ∃ m, V_new !! s = Some m ∧
           max_action_value (CliffWalk.as_env CliffWalk.cliffwalk1)
             (Q2Qc (9 # 10)) V_snapshot s m.
Proof.
  assert (match value_iteration (CliffWalk.as_env CliffWalk.cliffwalk1)
                  (Q2Qc (9 # 10)) (Q2Qc (1 # 1000000)) 20
          with Ok _ => True | _ => False end) as Hok.
  { vm_compute. exact I. }
  destruct (value_iteration (CliffWalk.as_env CliffWalk.cliffwalk1)
              (Q2Qc (9 # 10)) (Q2Qc (1 # 1000000)) 20)
    as [[[v policy] history]| |] eqn:E; [|destruct Hok..].
  exists v, policy, history. split; [reflexivity|].
  apply (value_iteration_synchronous _ _ _ _ _ _ _ E).
Defined.

(** A run on [cliffwalk1] with two sweeps per evaluation phase. *)
Lemma truncated_evaluation_exact_and_synchronous_witness :
  ∃ v policy history policy0,
    truncated_policy_iteration (CliffWalk.as_env CliffWalk.cliffwalk1)
      (Q2Qc (9 # 10)) 2 Examples.zeros 20 = Ok (v, policy, history) ∧
    initial_policy (CliffWalk.as_env CliffWalk.cliffwalk1) Examples.zeros = Ok policy0 ∧
    rounds (CliffWalk.as_env CliffWalk.cliffwalk1) (Q2Qc (9 # 10))
      (truncated_evaluation (CliffWalk.as_env CliffWalk.cliffwalk1) (Q2Qc (9 # 10)) 2)
      (dict_from_states (CliffWalk.as_env CliffWalk.cliffwalk1) 0%Qc) policy0 v policy.
Proof.
  assert (match truncated_policy_iteration (CliffWalk.as_env CliffWalk.cliffwalk1)
                  (Q2Qc (9 # 10)) 2 Examples.zeros 20
          with Ok _ => True | _ => False end) as Hok.
  { vm_compute. exact I. }
  destruct (truncated_policy_iteration (CliffWalk.as_env CliffWalk.cliffwalk1)
              (Q2Qc (9 # 10)) 2 Examples.zeros 20)
    as [[[v policy] history]| |] eqn:E; [|destruct Hok..].
  destruct (truncated_evaluation_exact_and_synchronous _ _ _ _ _ _ _ _ E)
    as (policy0 & H0 & Hr).
  exists v, policy, history, policy0. split; [reflexivity|]. split; [exact H0|exact Hr].
Defined.

(** A run on [cliffwalk1]. *)
Lemma policy_iteration_rounds_witness :
  ∃ v policy history policy0,
    policy_iteration (CliffWalk.as_env CliffWalk.cliffwalk1)
      (Q2Qc (1 # 2)) (Q2Qc (1 # 10)) Examples.zeros 20 20 = Ok (v, policy, history) ∧
    initial_policy (CliffWalk.as_env CliffWalk.cliffwalk1) Examples.zeros = Ok policy0 ∧
    rounds (CliffWalk.as_env CliffWalk.cliffwalk1) (Q2Qc (1 # 2))
      (evaluation_until (CliffWalk.as_env CliffWalk.cliffwalk1) (Q2Qc (1 # 2))
         (Q2Qc (1 # 10)))
      (dict_from_states (CliffWalk.as_env CliffWalk.cliffwalk1) 0%Qc) policy0 v policy ∧
    ∀ s, s ∈ states (CliffWalk.as_env CliffWalk.cliffwalk1) →
         s ≠ goal_pos (CliffWalk.as_env CliffWalk.cliffwalk1) →
         ∃ a, policy !! s = Some a ∧
              greedy_action (CliffWalk.as_env CliffWalk.cliffwalk1) (Q2Qc (1 # 2)) v s a.
Proof.
  assert (match policy_iteration (CliffWalk.as_env CliffWalk.cliffwalk1)
                  (Q2Qc (1 # 2)) (Q2Qc (1 # 10)) Examples.zeros 20 20
          with Ok _ => True | _ => False end) as Hok.
  { vm_compute. exact I. }
  destruct (policy_iteration (CliffWalk.as_env CliffWalk.cliffwalk1)
              (Q2Qc (1 # 2)) (Q2Qc (1 # 10)) Examples.zeros 20 20)
    as [[[v policy] history]| |] eqn:E; [|destruct Hok..].
  destruct (policy_iteration_rounds _ _ _ _ _ _ _ _ _ E) as (policy0 & H0 & Hr & Hg).
  exists v, policy, history, policy0.
  split; [reflexivity|]. split; [exact H0|]. split; [exact Hr|exact Hg].
Defined.

End Homework1Facts.

(** ** The cliff-walk environment *)

Module CliffWalkFacts.

Import CliffWalk Spec.

Lemma maze_step_done e s a s' r d :
  maze_step e s a = Return (s', r, d) → d = true ↔ s' = goal_pos e.
Proof.
  unfold maze_step. case_decide as Hs; [by intros [= <- <- <-]|].
  destruct (actions_get _ _) as [move|]; [|done].
  destruct (in_bounds _ _ && _).
  - case_decide as Hn; intros [= <- <- <-]; [done|]. split; [done|]. by intros.
  - intros [= <- <- <-]. split; [done|]. by intros.
Qed.

(** A cliff walk whose start is not its goal keeps the contract of an
    episodic environment. *)
Lemma cliff_walk_episodic e :
  start_pos e ≠ goal_pos e → episodic (as_env e).
Proof.
  intros Hsg. split; [done|]. simpl. intros s a s' r d. unfold step.
  case_decide as Hs; [by intros [= <- <- <-]|].
  destruct (actions_get _ _) as [move|] eqn:Ha; [|done].
  destruct (in_bounds _ _ && _).
  - intros [= <- <- <-]. split; [done|]. by intros.
  - apply maze_step_done.
Qed.

Lemma env1_episodic : episodic Examples.env1.
Proof. by apply cliff_walk_episodic. Qed.

Lemma maze_step_recognized e s a :
  is_Some (actions_get (actions e) a) → ∃ triple, maze_step e s a = Return triple.
Proof.
  intros [move Hmove]. unfold maze_step. rewrite Hmove.
  case_decide; [by eauto|].
  destruct (in_bounds _ _ && _); [case_decide|]; eauto.
Qed.

(** The claim C7 fails as it stands: at the goal [step] returns for an
    action that is not in the action set. *)
Lemma step_at_goal_accepts_any_action :
  actions_get (actions cliffwalk1) "X" = None ∧
  step cliffwalk1 (goal_pos cliffwalk1) "X" = Return (goal_pos cliffwalk1, 0%Qc, true).
Proof. split; reflexivity. Qed.

(** Claim C7, amended.  [CliffWalkEnv.step] raises, and then raises the
    invalid-action [ValueError], exactly when it is called at a state other
    than the goal with an action outside the action set.  At the goal it
    returns [(goal, 0, True)] whatever the action, and with an action of
    the action set it returns a triple at every state. *)
Theorem step_raises_iff_unrecognized_off_goal e s a :
  (∀ ex, step e s a = Raise ex → ex = ValueError) ∧
  (step e s a = Raise ValueError ↔
   s ≠ goal_pos e ∧ actions_get (actions e) a = None) ∧
  (s = goal_pos e → step e s a = Return (goal_pos e, 0%Qc, true)) ∧
  (is_Some (actions_get (actions e) a) →
   ∃ next_state reward done, step e s a = Return (next_state, reward, done)).
Proof.
  unfold step. case_decide as Hs.
  - split_and!; [done| |done|by eauto]. split; [done|]. by intros [? _].
  - destruct (actions_get (actions e) a) as [move|] eqn:Ha.
    + destruct (maze_step_recognized e s a) as [[[s' r] d] Hm]; [by rewrite Ha|].
      rewrite Hm. destruct (in_bounds _ _ && _).
      * split_and!; [done| |done|by eauto]. split; [done|]. by intros [_ ?].
      * split_and!; [done| |done|by eauto]. split; [done|]. by intros [_ ?].
    + split_and!; [by intros ex [= <-]|done|done|by intros [? ?]].
Qed.

(** The amended claim on [cliffwalk1]: an unknown action off the goal, the
    same action at the goal, a known action. *)
Lemma step_raises_iff_unrecognized_off_goal_witness :
  step cliffwalk1 (0, 0)%Z "X" = Raise ValueError ∧
  step cliffwalk1 (2, 2)%Z "X" = Return ((2, 2)%Z, 0%Qc, true) ∧
  ∃ next_state reward done,
    step cliffwalk1 (0, 0)%Z "E" = Return (next_state, reward, done).
Proof.
  destruct (step_raises_iff_unrecognized_off_goal cliffwalk1 (0, 0)%Z "X")
    as (_ & H1 & _ & _).
  destruct (step_raises_iff_unrecognized_off_goal cliffwalk1 (2, 2)%Z "X")
    as (_ & _ & H2 & _).
  destruct (step_raises_iff_unrecognized_off_goal cliffwalk1 (0, 0)%Z "E")
    as (_ & _ & _ & H3).
  split_and!.
  - apply H1. split; [discriminate|reflexivity].
  - apply H2. reflexivity.
  - apply H3. by eexists.
Defined.

End CliffWalkFacts.

(** ** The machine of the learners *)

Module MachineFacts.

Import PyFacts DictFacts Homework2 Logic.

Lemma wp_ret {A : Type} (a : A) Q E F m : Q a m → wp (mret a) Q E F m.
Proof. done. Qed.

Lemma wp_bind {A B : Type} (c : TD A) (k : A → TD B) Q E F m :
  wp c (fun a m' => wp (k a) Q E F m') E F m → wp (c ≫= k) Q E F m.
Proof. unfold wp, mbind, td_bind, bind. by destruct (c m). Qed.

Lemma wp_mono {A : Type} (c : TD A) (Q Q' : A → Machine → Prop)
    (E E' F F' : Machine → Prop) m :
  (∀ a m', Q a m' → Q' a m') → (∀ m', E m' → E' m') → (∀ m', F m' → F' m') →
  wp c Q E F m → wp c Q' E' F' m.
Proof. unfold wp. intros HQ HE HF. destruct (c m); auto. Qed.

Lemma wp_final {A : Type} (c : TD A) (I : Machine → Prop) m :
  wp c (fun _ => I) I I m ↔ I (final (c m)).
Proof. unfold wp, final. by destruct (c m). Qed.

Lemma wp_raise {A : Type} (e : exn) (Q : A → Machine → Prop) E F m :
  E m → wp (raise e) Q E F m.
Proof. done. Qed.

Lemma wp_out_of_fuel {A : Type} (Q : A → Machine → Prop) E F m :
  F m → wp out_of_fuel Q E F m.
Proof. done. Qed.

Lemma wp_lift {A : Type} (o : outcome A) Q E F m :
  match o with Ok a => Q a m | Raised _ => E m | OutOfFuel => F m end →
  wp (lift o) Q E F m.
Proof. unfold wp, lift. by destruct o. Qed.

Lemma wp_emit (e : event) Q E F m : Q tt (add_event e m) → wp (emit e) Q E F m.
Proof. done. Qed.

Lemma wp_uniform Q E F m : (∀ u g, Q u (set_rng g m)) → wp uniform Q E F m.
Proof. intros H. unfold wp, uniform, random_uniform. apply H. Qed.

Lemma wp_choice {A : Type} (l : list A) Q E F m :
  (∀ x g, x ∈ l → Q x (set_rng g m)) → (∀ g, E (set_rng g m)) →
  wp (choice l) Q E F m.
Proof.
  intros HQ HE. unfold wp, choice, random_choice.
  destruct (l !! _) as [x|] eqn:Hx; simpl.
  - apply HQ. by eapply list_elem_of_lookup_2.
  - apply HE.
Qed.

Section Access.

Variable env : Env.

Lemma row_of_eq state m : row_of env state m = Val (row_at env state m) (touch env state m).
Proof. unfold row_of, row_at, touch. by destruct (q_table m !! state). Qed.

Lemma wp_row_of state Q E F m :
  Q (row_at env state m) (touch env state m) → wp (row_of env state) Q E F m.
Proof. unfold wp. by rewrite row_of_eq. Qed.

Lemma touch_lookup state m : q_table (touch env state m) !! state = Some (row_at env state m).
Proof.
  unfold touch, row_at. destruct (q_table m !! state) eqn:H; simpl; [done|].
  by rewrite lookup_insert_eq.
Qed.

Lemma touch_lookup_ne state s m : state ≠ s → q_table (touch env state m) !! s = q_table m !! s.
Proof.
  intros Hne. unfold touch. destruct (q_table m !! state); simpl; [done|].
  by rewrite lookup_insert_ne.
Qed.

Lemma touch_events state m : events (touch env state m) = events m.
Proof. unfold touch. by destruct (q_table m !! state). Qed.

Lemma touch_rng state m : rng (touch env state m) = rng m.
Proof. unfold touch. by destruct (q_table m !! state). Qed.

Lemma touch_set_rng state g m :
  touch env state (set_rng g m) = set_rng g (touch env state m).
Proof. unfold touch. simpl. by destruct (q_table m !! state). Qed.

Lemma touch_add_event state e m :
  touch env state (add_event e m) = add_event e (touch env state m).
Proof. unfold touch. simpl. by destruct (q_table m !! state). Qed.

Lemma row_at_set_rng state g m : row_at env state (set_rng g m) = row_at env state m.
Proof. done. Qed.

Lemma row_at_add_event state e m : row_at env state (add_event e m) = row_at env state m.
Proof. done. Qed.

Lemma touch_touch state m : touch env state (touch env state m) = touch env state m.
Proof. unfold touch at 1. by rewrite touch_lookup. Qed.

Lemma row_at_touch state m : row_at env state (touch env state m) = row_at env state m.
Proof. unfold row_at at 1. by rewrite touch_lookup. Qed.

Lemma insert_touch state row m :
  <[state := row]> (q_table (touch env state m)) = <[state := row]> (q_table m).
Proof.
  unfold touch. destruct (q_table m !! state); simpl; [done|].
  by rewrite insert_insert_eq.
Qed.

Lemma wp_q_get state action Q E F m :
  match adict_get (row_at env state m) action with
  | Some x => Q x (touch env state m)
  | None => E (touch env state m)
  end →
  wp (q_get env state action) Q E F m.
Proof.
  intros H. unfold q_get. apply wp_bind, wp_row_of, wp_lift.
  unfold adict_getitem. by destruct (adict_get _ _).
Qed.

Lemma q_set_eq state action value m :
  q_set env state action value m = Val tt (write env state action value m).
Proof.
  unfold q_set, mbind, td_bind, bind. rewrite row_of_eq. simpl.
  unfold emit, write, add_event, set_table. simpl.
  by rewrite insert_touch, touch_events, touch_rng.
Qed.

Lemma wp_q_set state action value Q E F m :
  Q tt (write env state action value m) → wp (q_set env state action value) Q E F m.
Proof. unfold wp. by rewrite q_set_eq. Qed.

Lemma wp_env_step state action Q E F m :
  match step env state action with
  | Return (next_state, reward, done) =>
      Q (next_state, reward, done) (add_event (Step state action next_state reward done) m)
  | Raise _ => E m
  end →
  wp (env_step env state action) Q E F m.
Proof.
  intros H. unfold env_step. apply wp_bind, wp_lift.
  destruct (step env state action) as [[[next_state reward] d]|]; simpl; [|done].
  by apply wp_bind, wp_emit, wp_ret.
Qed.

Lemma adict_max_value_ok (d : adict) :
  match adict_max_value d with
  | Ok q => d ≠ [] ∧ q ∈ d.*2 ∧ Forall (fun item => (item.2 <= q)%Qc) d
  | Raised _ => d = []
  | OutOfFuel => False
  end.
Proof.
  destruct d as [|[a q] d]; simpl; [done|].
  destruct (max_loop_spec q (map snd d)) as [Hin Hall].
  split_and!; [done|exact Hin|].
  apply Forall_cons in Hall as [Hq Hall]. constructor; [done|].
  change (map snd d) with (snd <$> d) in *.
  rewrite Forall_forall in Hall. apply Forall_forall. intros [a' q'] Hin'.
  apply Hall, list_elem_of_fmap. by exists (a', q').
Qed.

Lemma wp_choose state actions epsilon Q E F m :
  (∀ a g, a ∈ actions → Q a (set_rng g (add_event (Choose state) m))) →
  (∀ a g, a ∈ adict_keys (row_at env state m) →
          Q a (set_rng g (touch env state (add_event (Choose state) m)))) →
  (∀ g, E (set_rng g (add_event (Choose state) m))) →
  (∀ g, E (set_rng g (touch env state (add_event (Choose state) m)))) →
  wp (choose_action_e_greedy env state actions epsilon) Q E F m.
Proof.
  intros HQ1 HQ2 HE1 HE2. unfold choose_action_e_greedy.
  apply wp_bind, wp_emit, wp_bind, wp_uniform. intros u g.
  destruct (Qcltb u epsilon).
  - apply wp_choice; [|intros g'; apply (HE1 g')].
    intros a g' Ha. by apply (HQ1 a g').
  - apply wp_bind, wp_row_of, wp_bind, wp_lift.
    rewrite touch_set_rng, row_at_set_rng, row_at_add_event.
    pose proof (adict_max_value_ok (row_at env state m)) as Hmax.
    destruct (adict_max_value _) as [max_q| |]; [|apply HE2|done].
    apply wp_choice; [|intros g'; apply (HE2 g')].
    intros a g' Ha. apply (HQ2 a g').
    apply list_elem_of_fmap in Ha as ([a' q] & -> & Hin).
    apply list_elem_of_In, filter_In in Hin as [Hin _].
    apply list_elem_of_In in Hin. unfold adict_keys.
    apply list_elem_of_fmap. by exists (a', q).
Qed.

End Access.

(** *** Rules for a property kept by the atomic actions *)

Section Invariant.

Variable env : Env.
Variables choose_goal touch_goal : bool.
Variable I : Machine → Prop.
Hypothesis HI : invariant env choose_goal touch_goal I.

Lemma inv_lift {A : Type} (o : outcome A) (Q : A → Machine → Prop) m :
  I m → (∀ a, o = Ok a → Q a m) → wp (lift o) Q I I m.
Proof using HI. intros Hm HQ. apply wp_lift. destruct o; auto. Qed.

Lemma inv_row_of state (Q : adict → Machine → Prop) m :
  I m → (touch_goal = false → state ≠ goal_pos env) →
  (∀ m', I m' → Q (row_at env state m) m') →
  wp (row_of env state) Q I I m.
Proof. intros Hm Hs HQ. apply wp_row_of, HQ. by apply HI. Qed.

Lemma inv_q_get state action (Q : Qc → Machine → Prop) m :
  I m → (touch_goal = false → state ≠ goal_pos env) →
  (∀ x m', I m' → Q x m') →
  wp (q_get env state action) Q I I m.
Proof.
  intros Hm Hs HQ. apply wp_q_get.
  destruct (adict_get _ _); [apply HQ|]; by apply HI.
Qed.

Lemma inv_q_set state action value (Q : unit → Machine → Prop) m :
  I m → state ≠ goal_pos env → (∀ m', I m' → Q tt m') →
  wp (q_set env state action value) Q I I m.
Proof. intros Hm Hs HQ. apply wp_q_set, HQ. by apply HI. Qed.

Lemma inv_env_step state action (Q : State * Qc * bool → Machine → Prop) m :
  I m → state ≠ goal_pos env →
  (∀ next_state reward d m',
     step env state action = Return (next_state, reward, d) →
     I m' → Q (next_state, reward, d) m') →
  wp (env_step env state action) Q I I m.
Proof.
  intros Hm Hs HQ. apply wp_env_step.
  destruct (step env state action) as [[[next_state reward] d]|] eqn:E; [|done].
  apply HQ; [done|]. by eapply HI.
Qed.

Lemma inv_choose state actions epsilon (Q : Action → Machine → Prop) m :
  I m →
  (choose_goal = false → state ≠ goal_pos env) →
  (touch_goal = false → state ≠ goal_pos env) →
  (∀ a m', I m' → Q a m') →
  wp (choose_action_e_greedy env state actions epsilon) Q I I m.
Proof.
  intros Hm Hc Ht HQ.
  assert (I (add_event (Choose state) m)) as H1 by by apply HI.
  assert (∀ g, I (set_rng g (add_event (Choose state) m))) as H2
    by (intros; by apply HI).
  assert (∀ g, I (set_rng g (touch env state (add_event (Choose state) m)))) as H3.
  { intros. apply HI. by apply HI. }
  apply wp_choose; auto.
Qed.

End Invariant.

End MachineFacts.

(** ** What every run of a learner keeps *)

Module LearnerFacts.

Import PyFacts DictFacts Homework2 Logic Spec MachineFacts.

Lemma finish_Val history m q policy history' m' :
  finish history m = Val (q, policy, history') m' →
  m' = m ∧ q = q_table m ∧ derive_policy (q_table m) = Ok policy.
Proof.
  unfold finish. destruct (derive_policy _) as [policy0| |]; [|done..].
  by intros [= <- <- <- <-].
Qed.

Section Kept.

Variable env : Env.
Hypothesis Henv : episodic env.
Variables alpha gamma epsilon : Qc.

Lemma continues_off_goal s a s' r :
  step env s a = Return (s', r, false) → s' ≠ goal_pos env.
Proof. intros H Hs. by apply (done_iff_goal env Henv _ _ _ _ _ H) in Hs. Qed.

Lemma finish_final history m : final (finish history m) = m.
Proof. unfold finish. by destruct (derive_policy _). Qed.

Lemma episodes_loop_inv (I E F : Machine → Prop) (episode : TD Qc) n history m :
  (∀ m, I m → wp episode (fun _ => I) E F m) →
  I m → wp (episodes_loop episode n history) (fun _ => I) E F m.
Proof.
  intros Hep. revert history m. induction n as [|n IH]; intros history m Hm; simpl.
  - by apply wp_ret.
  - apply wp_bind. eapply wp_mono; [| | |by apply Hep]; simpl; auto.
Qed.

Lemma learner_inv (I : Machine → Prop) (episode : TD Qc) n m :
  (∀ m, I m → wp episode (fun _ => I) I I m) →
  I m → I (final ((history ← episodes_loop episode n []; finish history) m)).
Proof.
  intros Hep Hm. apply wp_final, wp_bind.
  eapply wp_mono; [| | |by apply episodes_loop_inv]; simpl; auto.
  intros history m' Hm'. apply wp_final. by rewrite finish_final.
Qed.

(** *** [q_learning] and [expected_sarsa] *)

Section OffGoal.

Variable I : Machine → Prop.
Hypothesis HI : invariant env false true I.

Lemma q_learning_loop_inv fuel state total_reward m :
  state ≠ goal_pos env → I m →
  wp (q_learning_loop env alpha gamma epsilon fuel state total_reward)
     (fun _ => I) I I m.
Proof.
  revert state total_reward m.
  induction fuel as [|fuel IH]; intros state total_reward m Hs Hm; simpl.
  - by apply wp_out_of_fuel.
  - apply wp_bind, (inv_choose _ _ _ _ HI); [done|done|done|].
    intros action m1 Hm1.
    apply wp_bind, (inv_env_step _ _ _ _ HI); [done|done|].
    intros next_state reward d m2 Hstep Hm2. simpl.
    apply wp_bind, (inv_q_get _ _ _ _ HI); [done|done|].
    intros old_value m3 Hm3.
    apply wp_bind, (inv_row_of _ _ _ _ HI); [done|done|].
    intros m4 Hm4.
    apply wp_bind, (inv_lift _ _ _ _ HI); [done|].
    intros next_max _.
    apply wp_bind, (inv_q_set _ _ _ _ HI); [done|done|].
    intros m5 Hm5.
    destruct d; [by apply wp_ret|].
    apply IH; [|done]. by eapply continues_off_goal.
Qed.

Lemma q_learning_inv episodes fuel m :
  I m → I (final (q_learning env alpha gamma epsilon episodes fuel m)).
Proof.
  intros Hm. unfold q_learning. apply learner_inv; [|done]. intros m' Hm'.
  apply q_learning_loop_inv; [apply Henv|done].
Qed.

Lemma expected_sarsa_loop_inv fuel state total_reward m :
  state ≠ goal_pos env → I m →
  wp (expected_sarsa_loop env alpha gamma epsilon fuel state total_reward)
     (fun _ => I) I I m.
Proof.
  revert state total_reward m.
  induction fuel as [|fuel IH]; intros state total_reward m Hs Hm; simpl.
  - by apply wp_out_of_fuel.
  - apply wp_bind, (inv_choose _ _ _ _ HI); [done|done|done|].
    intros action m1 Hm1.
    apply wp_bind, (inv_env_step _ _ _ _ HI); [done|done|].
    intros next_state reward d m2 Hstep Hm2. simpl.
    apply wp_bind, (inv_q_get _ _ _ _ HI); [done|done|].
    intros old_value m3 Hm3.
    apply wp_bind, (inv_row_of _ _ _ _ HI); [done|done|].
    intros m4 Hm4.
    apply wp_bind, (inv_lift _ _ _ _ HI); [done|].
    intros best_action _.
    apply wp_bind, (inv_lift _ _ _ _ HI); [done|].
    intros expected_q _.
    apply wp_bind, (inv_q_set _ _ _ _ HI); [done|done|].
    intros m5 Hm5.
    destruct d; [by apply wp_ret|].
    apply IH; [|done]. by eapply continues_off_goal.
Qed.

Lemma expected_sarsa_inv episodes fuel m :
  I m → I (final (expected_sarsa env alpha gamma epsilon episodes fuel m)).
Proof.
  intros Hm. unfold expected_sarsa. apply learner_inv; [|done]. intros m' Hm'.
  apply expected_sarsa_loop_inv; [apply Henv|done].
Qed.

End OffGoal.

(** *** [sarsa] *)

Section Sarsa.

Variable I : Machine → Prop.
Hypothesis HI : invariant env true true I.

Lemma sarsa_loop_inv fuel state action total_reward m :
  state ≠ goal_pos env → I m →
  wp (sarsa_loop env alpha gamma epsilon fuel state action total_reward)
     (fun _ => I) I I m.
Proof.
  revert state action total_reward m.
  induction fuel as [|fuel IH]; intros state action total_reward m Hs Hm; simpl.
  - by apply wp_out_of_fuel.
  - apply wp_bind, (inv_env_step _ _ _ _ HI); [done|done|].
    intros next_state reward d m2 Hstep Hm2. simpl.
    apply wp_bind, (inv_choose _ _ _ _ HI); [done|done|done|].
    intros next_action m1 Hm1.
    apply wp_bind, (inv_q_get _ _ _ _ HI); [done|done|].
    intros old_value m3 Hm3.
    apply wp_bind, (inv_q_get _ _ _ _ HI); [done|done|].
    intros next_value m4 Hm4.
    apply wp_bind, (inv_q_set _ _ _ _ HI); [done|done|].
    intros m5 Hm5.
    destruct d; [by apply wp_ret|].
    apply IH; [|done]. by eapply continues_off_goal.
Qed.

Lemma sarsa_inv episodes fuel m :
  I m → I (final (sarsa env alpha gamma epsilon episodes fuel m)).
Proof.
  intros Hm. unfold sarsa. apply learner_inv; [|done]. intros m' Hm'.
  unfold sarsa_episode.
  apply wp_bind, (inv_choose _ _ _ _ HI); [done|done|done|].
  intros action m1 Hm1.
  apply sarsa_loop_inv; [apply Henv|done].
Qed.

End Sarsa.

(** *** [n_step_sarsa] *)

Section NStep.

Variables n_steps max_steps_per_episode : Z.
Variable I : Machine → Prop.
Hypothesis HI : invariant env false false I.

(** No entry of the buffer is a step taken at the goal. *)
Definition off_goal (trajectory : deque) : Prop :=
  Forall (fun entry => entry.1.1 ≠ goal_pos env) trajectory.

Lemma n_step_update_inv trajectory next_state next_action d m :
  off_goal trajectory → (d = false → next_state ≠ goal_pos env) → I m →
  wp (n_step_update env alpha gamma n_steps trajectory next_state next_action d)
     (fun trajectory' m' => I m' ∧ off_goal trajectory') I I m.
Proof.
  intros Ht Hn Hm. unfold n_step_update.
  destruct (n_steps <=? _)%Z; [|by apply wp_ret].
  destruct trajectory as [|[[s_tau a_tau] r_tau] rest]; [by apply wp_raise|].
  apply Forall_cons in Ht as [Hs Hrest]. simpl in Hs.
  apply wp_bind, (inv_lift _ _ _ _ HI); [done|]. intros G _.
  apply wp_bind.
  assert (wp (if negb d
              then p ← lift (pypow gamma n_steps);
                   next_row ← row_of env next_state;
                   match next_action with
                   | Some a => q ← lift (adict_getitem next_row a); mret (G + p * q)%Qc
                   | None => raise KeyError
                   end
              else mret G) (fun _ => I) I I m) as Hboot.
  { destruct d; simpl; [by apply wp_ret|].
    apply wp_bind, (inv_lift _ _ _ _ HI); [done|]. intros p _.
    apply wp_bind, (inv_row_of _ _ _ _ HI); [done|auto|]. intros m1 Hm1.
    destruct next_action as [a|]; [|by apply wp_raise].
    apply wp_bind, (inv_lift _ _ _ _ HI); [done|]. intros q _.
    by apply wp_ret. }
  eapply wp_mono; [| | |exact Hboot]; simpl; [|done|done].
  intros G' m1 Hm1.
  apply wp_bind, (inv_q_get _ _ _ _ HI); [done|done|]. intros old_value m2 Hm2.
  apply wp_bind, (inv_q_set _ _ _ _ HI); [done|done|]. intros m3 Hm3.
  by apply wp_ret.
Qed.

Lemma n_step_loop_inv fuel state action d step_counter total_reward trajectory m :
  (d = false → state ≠ goal_pos env) → off_goal trajectory → I m →
  wp (n_step_loop env alpha gamma epsilon n_steps max_steps_per_episode
        fuel state action d step_counter total_reward trajectory)
     (fun r m' => I m' ∧ off_goal r.2) I I m.
Proof.
  revert state action d step_counter total_reward trajectory m.
  induction fuel as [|fuel IH];
    intros state action d step_counter total_reward trajectory m Hs Ht Hm;
    simpl; (destruct (negb d && _) eqn:Hcond; [|by apply wp_ret]).
  - by apply wp_out_of_fuel.
  - apply andb_true_iff in Hcond as [Hd%negb_true_iff _].
    apply wp_bind. destruct action as [a|]; [apply wp_ret|by apply wp_raise].
    apply wp_bind, (inv_env_step _ _ _ _ HI); [done|auto|].
    intros next_state reward d' m1 Hstep Hm1. simpl.
    assert (d' = false → next_state ≠ goal_pos env) as Hnext.
    { intros ->. by eapply continues_off_goal. }
    apply wp_bind.
    assert (wp (if negb d'
                then a' ← choose_action_e_greedy env next_state (action_keys env) epsilon;
                     mret (Some a')
                else mret None) (fun _ => I) I I m1) as Hchoose.
    { destruct d'; simpl; [by apply wp_ret|].
      apply wp_bind, (inv_choose _ _ _ _ HI); auto. }
    eapply wp_mono; [| | |exact Hchoose]; simpl; [|done|done].
    intros next_action m2 Hm2.
    apply wp_bind.
    eapply wp_mono; [| | |apply n_step_update_inv]; simpl; [|done|done| |done|done].
    + intros trajectory' m3 [Hm3 Ht']. by apply IH.
    + apply Forall_app. split; [done|]. constructor; [|done]. simpl. auto.
Qed.

Lemma drain_inv fuel trajectory m :
  off_goal trajectory → I m →
  wp (drain env alpha gamma fuel trajectory) (fun _ => I) I I m.
Proof.
  revert trajectory m. induction fuel as [|fuel IH]; intros trajectory m Ht Hm;
    (destruct trajectory as [|[[s_tau a_tau] r_tau] rest]; simpl;
     [by apply wp_ret|]).
  - by apply wp_out_of_fuel.
  - apply Forall_cons in Ht as [Hs Hrest]. simpl in Hs.
    apply wp_bind. apply (inv_lift _ _ _ _ HI); [done|]. intros G _.
    apply wp_bind, (inv_q_get _ _ _ _ HI); [done|done|]. intros old_value m2 Hm2.
    apply wp_bind, (inv_q_set _ _ _ _ HI); [done|done|]. intros m3 Hm3.
    by apply IH.
Qed.

Lemma n_step_episode_inv fuel m :
  I m →
  wp (n_step_episode env alpha gamma epsilon n_steps max_steps_per_episode fuel)
     (fun _ => I) I I m.
Proof.
  intros Hm. unfold n_step_episode.
  apply wp_bind, (inv_choose _ _ _ _ HI); [done|intros; apply Henv..|].
  intros action m1 Hm1. apply wp_bind.
  eapply wp_mono; [| | |apply n_step_loop_inv]; simpl;
    [|done|done|intros; apply Henv|constructor|done].
  intros [total_reward trajectory] m2 [Hm2 Ht]. simpl in Ht.
  apply wp_bind. eapply wp_mono; [| | |by apply drain_inv]; simpl; [|done|done].
  intros trajectory' m3 Hm3. by apply wp_ret.
Qed.

Lemma n_step_sarsa_inv episodes fuel m :
  I m →
  I (final (n_step_sarsa env alpha gamma epsilon n_steps max_steps_per_episode
              episodes fuel m)).
Proof.
  intros Hm. unfold n_step_sarsa. apply learner_inv; [|done]. intros m' Hm'.
  apply wp_bind. eapply wp_mono; [| | |by apply n_step_episode_inv]; simpl; auto.
Qed.

End NStep.

End Kept.

(** *** Three properties kept by the atomic actions *)

Section Instances.

Variable env : Env.

Lemma not_elem_of_snoc {A : Type} (x y : A) (l : list A) :
  x ∉ l → x ≠ y → x ∉ l ++ [y].
Proof. intros Hl Hne [?|?%list_elem_of_singleton]%elem_of_app; done. Qed.

Lemma untouched_goal_invariant choose_goal touch_goal :
  invariant env choose_goal touch_goal (fun m =>
    goal_row_zero env (q_table m) ∧ writes_off_goal env (events m) ∧
    steps_off_goal env (events m)).
Proof.
  split.
  - done.
  - intros m s _ (Hq & Hw & Hs). split_and!; [done| |]; simpl.
    + intros a v. by apply not_elem_of_snoc.
    + intros a s' r d. by apply not_elem_of_snoc.
  - intros m s a s' r d Hne _ (Hq & Hw & Hs). split_and!; [done| |]; simpl.
    + intros a' v. by apply not_elem_of_snoc.
    + intros a' s'' r' d'. apply not_elem_of_snoc; [done|]. congruence.
  - intros m s _ (Hq & Hw & Hs). rewrite touch_events. split_and!; [|done|done].
    intros row. destruct (decide (s = goal_pos env)) as [->|Hne].
    + rewrite touch_lookup. unfold row_at. intros [= <-].
      destruct (q_table m !! goal_pos env) as [row|] eqn:E; simpl; [|done].
      by apply Hq.
    + rewrite touch_lookup_ne by done. apply Hq.
  - intros m s a v Hne (Hq & Hw & Hs). split_and!; simpl.
    + intros row. rewrite lookup_insert_ne by done. apply Hq.
    + intros a' v'. apply not_elem_of_snoc; [done|]. congruence.
    + intros a' s'' r' d'. by apply not_elem_of_snoc.
Qed.

Lemma chooses_off_goal_invariant touch_goal :
  invariant env false touch_goal (fun m => chooses_off_goal env (events m)).
Proof.
  unfold chooses_off_goal. split; simpl.
  - done.
  - intros m s Hs Hm. apply not_elem_of_snoc; [done|].
    intros [= Heq]. by destruct Hs.
  - intros. by apply not_elem_of_snoc.
  - intros m s _ Hm. by rewrite touch_events.
  - intros. by apply not_elem_of_snoc.
Qed.

Lemma goal_absent_invariant choose_goal :
  invariant env choose_goal false (fun m => q_table m !! goal_pos env = None).
Proof.
  split; simpl; try done.
  - intros m s Hs Hm. by rewrite touch_lookup_ne by auto.
  - intros m s a v Hs Hm. by rewrite lookup_insert_ne.
Qed.

End Instances.

(** What a learner returns as [q_table] is the table of the machine it
    stops in. *)
Lemma td_learners_Val env alpha gamma epsilon n_steps max_steps_per_episode
    episodes fuel run m q policy history m' :
  run ∈ td_learners env alpha gamma epsilon n_steps max_steps_per_episode episodes fuel →
  run m = Val (q, policy, history) m' →
  q = q_table m' ∧ derive_policy q = Ok policy ∧ m' = final (run m).
Proof.
  intros Hrun Hval. rewrite Hval. simpl. split_and!; [| |done].
  all: unfold td_learners in Hrun;
    repeat (apply elem_of_cons in Hrun as [->|Hrun]);
    try (by apply elem_of_nil in Hrun);
    unfold q_learning, sarsa, expected_sarsa, n_step_sarsa, mbind, td_bind, bind in Hval;
    destruct (episodes_loop _ _ _ m) as [h m1|e m1|m1]; try done;
    apply finish_Val in Hval as (-> & -> & Hp); done.
Qed.

(** *** The derived policy *)

Lemma derive_policy_Ok q policy :
  derive_policy q = Ok policy →
  dom policy = dom q ∧
  ∀ s row, q !! s = Some row → ∃ a, adict_argmax row = Ok a ∧ policy !! s = Some a.
Proof.
  unfold derive_policy. case_decide as Hq; [|done]. intros [= <-]. split.
  - apply dom_fmap_L.
  - intros s row Hs. rewrite lookup_fmap, Hs. simpl.
    specialize (Hq s row Hs). simpl in Hq.
    destruct row as [|[a x] row]; [done|]. by eexists.
Qed.

Lemma max_by_loop_no_greater (d : adict) (best : Action) (best_q : Qc) :
  Forall (fun item => (item.2 <= best_q)%Qc) d → max_by_loop best best_q d = best.
Proof.
  induction d as [|[a q] d IH]; simpl; [done|].
  intros [Hq Hd]%Forall_cons. simpl in Hq.
  apply Qcltb_ge in Hq. rewrite Hq. by apply IH.
Qed.

(** [max] over a row of zeros is the first action. *)
Lemma argmax_zero_row a0 acts : adict_argmax (zero_row (a0 :: acts)) = Ok a0.
Proof.
  destruct (zero_row_head a0 acts) as [row' Heq].
  pose proof (zero_row_zero (a0 :: acts)) as Hz. rewrite Heq in Hz |- *.
  simpl. f_equal. apply max_by_loop_no_greater.
  apply Forall_cons in Hz as [_ Hz]. eapply Forall_impl; [exact Hz|].
  intros [a q] Hq. simpl in *. rewrite Hq. apply Qcle_refl.
Qed.

(** *** Landing on the goal materializes its row *)

Section Reached.

Variable env : Env.
Variables alpha gamma epsilon : Qc.

Notation J := (goal_row_follows env).
Notation top := (fun _ : Machine => True).

Lemma follows_rng p m g : J p m → J p (set_rng g m).
Proof. done. Qed.

Lemma follows_touch p s m : J p m → J p (touch env s m).
Proof.
  unfold goal_row_follows. rewrite touch_events. intros H Hr.
  destruct (H Hr) as [?|Hg]; [by left|right].
  destruct (decide (s = goal_pos env)) as [->|Hne].
  - by rewrite touch_lookup.
  - by rewrite touch_lookup_ne.
Qed.

Lemma follows_resolve s m : J (Some s) m → J None (touch env s m).
Proof.
  unfold goal_row_follows. rewrite touch_events. intros H Hr. right.
  destruct (H Hr) as [[= ->]|Hg].
  - by rewrite touch_lookup.
  - destruct (decide (s = goal_pos env)) as [->|Hne].
    + by rewrite touch_lookup.
    + by rewrite touch_lookup_ne.
Qed.

Lemma follows_choose_event p s m : J p m → J p (add_event (Choose s) m).
Proof.
  unfold goal_row_follows, goal_reached. simpl. intros H (s0 & a & r & d & Hin).
  apply H. apply elem_of_app in Hin as [?|[=]%list_elem_of_singleton]. eauto.
Qed.

Lemma follows_write p s a v m : J p m → J p (write env s a v m).
Proof.
  unfold goal_row_follows, goal_reached. simpl. intros H (s0 & a0 & r & d & Hin).
  apply elem_of_app in Hin as [Hin|[=]%list_elem_of_singleton].
  destruct H as [?|Hg]; [by eauto|by left|right].
  destruct (decide (s = goal_pos env)) as [->|Hne].
  - by rewrite lookup_insert_eq.
  - by rewrite lookup_insert_ne.
Qed.

Lemma follows_step s a s' r d m :
  J None m → J (Some s') (add_event (Step s a s' r d) m).
Proof.
  unfold goal_row_follows, goal_reached. simpl. intros H (s0 & a0 & r0 & d0 & Hin).
  apply elem_of_app in Hin as [Hin|[= -> -> <- -> ->]%list_elem_of_singleton].
  - destruct H as [[=]|Hg]; [by eauto|by right].
  - by left.
Qed.

Lemma reach_choose p state actions (Q : Action → Machine → Prop) m :
  J p m → (∀ a m', J p m' → Q a m') →
  wp (choose_action_e_greedy env state actions epsilon) Q top top m.
Proof.
  intros Hm HQ. apply wp_choose; try done; intros a g _; apply HQ.
  - by apply follows_rng, follows_choose_event.
  - by apply follows_rng, follows_touch, follows_choose_event.
Qed.

Lemma reach_env_step state action (Q : State * Qc * bool → Machine → Prop) m :
  J None m →
  (∀ next_state reward d m', J (Some next_state) m' → Q (next_state, reward, d) m') →
  wp (env_step env state action) Q top top m.
Proof.
  intros Hm HQ. apply wp_env_step.
  destruct (step env state action) as [[[next_state reward] d]|]; [|done].
  by apply HQ, follows_step.
Qed.

Lemma reach_q_get p state action (Q : Qc → Machine → Prop) m :
  J p m → (∀ x m', J p m' → Q x m') → wp (q_get env state action) Q top top m.
Proof.
  intros Hm HQ. apply wp_q_get. destruct (adict_get _ _); [|done].
  by apply HQ, follows_touch.
Qed.

Lemma reach_q_get_resolve state action (Q : Qc → Machine → Prop) m :
  J (Some state) m → (∀ x m', J None m' → Q x m') →
  wp (q_get env state action) Q top top m.
Proof.
  intros Hm HQ. apply wp_q_get. destruct (adict_get _ _); [|done].
  by apply HQ, follows_resolve.
Qed.

Lemma reach_row_of_resolve state (Q : adict → Machine → Prop) m :
  J (Some state) m → (∀ row m', J None m' → Q row m') →
  wp (row_of env state) Q top top m.
Proof. intros Hm HQ. by apply wp_row_of, HQ, follows_resolve. Qed.

Lemma reach_q_set p state action value (Q : unit → Machine → Prop) m :
  J p m → (∀ m', J p m' → Q tt m') → wp (q_set env state action value) Q top top m.
Proof. intros Hm HQ. by apply wp_q_set, HQ, follows_write. Qed.

Lemma reach_lift {A : Type} (o : outcome A) (Q : A → Machine → Prop) m :
  (∀ a, Q a m) → wp (lift o) Q top top m.
Proof. intros HQ. apply wp_lift. by destruct o. Qed.

Lemma q_learning_loop_reach fuel state total_reward m :
  J None m →
  wp (q_learning_loop env alpha gamma epsilon fuel state total_reward)
     (fun _ => J None) top top m.
Proof.
  revert state total_reward m.
  induction fuel as [|fuel IH]; intros state total_reward m Hm; simpl; [done|].
  apply wp_bind, (reach_choose None); [done|]. intros action m1 Hm1.
  apply wp_bind, reach_env_step; [done|]. intros next_state reward d m2 Hm2. simpl.
  apply wp_bind, (reach_q_get (Some next_state)); [done|]. intros old_value m3 Hm3.
  apply wp_bind, reach_row_of_resolve; [done|]. intros next_row m4 Hm4.
  apply wp_bind, reach_lift. intros next_max.
  apply wp_bind, (reach_q_set None); [done|]. intros m5 Hm5.
  destruct d; [by apply wp_ret|]. by apply IH.
Qed.

Lemma expected_sarsa_loop_reach fuel state total_reward m :
  J None m →
  wp (expected_sarsa_loop env alpha gamma epsilon fuel state total_reward)
     (fun _ => J None) top top m.
Proof.
  revert state total_reward m.
  induction fuel as [|fuel IH]; intros state total_reward m Hm; simpl; [done|].
  apply wp_bind, (reach_choose None); [done|]. intros action m1 Hm1.
  apply wp_bind, reach_env_step; [done|]. intros next_state reward d m2 Hm2. simpl.
  apply wp_bind, (reach_q_get (Some next_state)); [done|]. intros old_value m3 Hm3.
  apply wp_bind, reach_row_of_resolve; [done|]. intros next_row m4 Hm4.
  apply wp_bind, reach_lift. intros best_action.
  apply wp_bind, reach_lift. intros expected_q.
  apply wp_bind, (reach_q_set None); [done|]. intros m5 Hm5.
  destruct d; [by apply wp_ret|]. by apply IH.
Qed.

Lemma sarsa_loop_reach fuel state action total_reward m :
  J None m →
  wp (sarsa_loop env alpha gamma epsilon fuel state action total_reward)
     (fun _ => J None) top top m.
Proof.
  revert state action total_reward m.
  induction fuel as [|fuel IH]; intros state action total_reward m Hm; simpl; [done|].
  apply wp_bind, reach_env_step; [done|]. intros next_state reward d m2 Hm2. simpl.
  apply wp_bind, (reach_choose (Some next_state)); [done|]. intros next_action m1 Hm1.
  apply wp_bind, (reach_q_get (Some next_state)); [done|]. intros old_value m3 Hm3.
  apply wp_bind, reach_q_get_resolve; [done|]. intros next_value m4 Hm4.
  apply wp_bind, (reach_q_set None); [done|]. intros m5 Hm5.
  destruct d; [by apply wp_ret|]. by apply IH.
Qed.

Lemma boot_follows g : J None (boot g).
Proof. intros (s & a & r & d & Hin). simpl in Hin. by apply elem_of_nil in Hin. Qed.

Lemma learner_reach (episode : TD Qc) n g r m' :
  (∀ m, J None m → wp episode (fun _ => J None) top top m) →
  (history ← episodes_loop episode n []; finish history) (boot g) = Val r m' →
  J None m'.
Proof.
  intros Hep Hval.
  assert (wp (history ← episodes_loop episode n []; finish history)
            (fun _ => J None) top top (boot g)) as Hwp.
  { apply wp_bind. eapply wp_mono; [| | |apply episodes_loop_inv, boot_follows];
      simpl; [|done|done|done].
    intros history m1 Hm1. unfold wp.
    destruct (finish history m1) as [[[q policy] h] m2| |] eqn:E; [|done..].
    by apply finish_Val in E as (-> & _ & _). }
  unfold wp in Hwp. by rewrite Hval in Hwp.
Qed.

End Reached.

(** *** [sarsa] selects after every step *)

Lemma selects_nil : selects_after_every_step [].
Proof. intros i s a s' r d Hi. by rewrite lookup_nil in Hi. Qed.

Lemma selects_snoc es e :
  selects_after_every_step es →
  (∀ s a s' r d, e ≠ Step s a s' r d) →
  selects_after_every_step (es ++ [e]).
Proof.
  intros H He i s a s' r d Hi.
  destruct (decide (i < length es)%nat) as [Hlt|Hge].
  - rewrite lookup_app_l in Hi by done.
    pose proof (H _ _ _ _ _ _ Hi) as Hn.
    rewrite lookup_app_l; [done|]. by eapply lookup_lt_Some.
  - rewrite lookup_app_r in Hi by lia.
    destruct (i - length es)%nat as [|n]; simpl in Hi; [|done].
    injection Hi as ->. by destruct (He s a s' r d).
Qed.

Lemma selects_step_choose es s a s' r d :
  selects_after_every_step es →
  selects_after_every_step ((es ++ [Step s a s' r d]) ++ [Choose s']).
Proof.
  intros H i s0 a0 s0' r0 d0 Hi.
  rewrite <- app_assoc in Hi |- *.
  destruct (decide (i < length es)%nat) as [Hlt|Hge].
  - rewrite lookup_app_l in Hi by done.
    pose proof (H _ _ _ _ _ _ Hi) as Hn.
    rewrite lookup_app_l; [done|]. by eapply lookup_lt_Some.
  - rewrite lookup_app_r in Hi by lia.
    rewrite lookup_app_r by lia.
    replace (S i - length es)%nat with (S (i - length es)) by lia.
    destruct (i - length es)%nat as [|[|n]]; simpl in *; [|done|done].
    congruence.
Qed.

Lemma selects_reaches_goal env es :
  selects_after_every_step es → goal_reached env es → ¬ chooses_off_goal env es.
Proof.
  intros H (s & a & r & d & Hin) Hoff. apply Hoff.
  apply list_elem_of_lookup_1 in Hin as [i Hi].
  apply H in Hi. by eapply list_elem_of_lookup_2.
Qed.

Section Selects.

Variable env : Env.
Variables alpha gamma epsilon : Qc.

Notation Sel := (fun m : Machine => selects_after_every_step (events m)).

Lemma sel_choose state actions (Q : Action → Machine → Prop) m :
  Sel m → (∀ a m', Sel m' → Q a m') →
  wp (choose_action_e_greedy env state actions epsilon) Q Sel Sel m.
Proof.
  intros Hm HQ.
  assert (selects_after_every_step (events m ++ [Choose state])) as H1.
  { apply selects_snoc; [done|]. intros; discriminate. }
  apply wp_choose; intros; try apply HQ; simpl; by rewrite ?touch_events.
Qed.

Lemma sel_choose_pending es s a s' r d actions (Q : Action → Machine → Prop) m :
  selects_after_every_step es →
  events m = es ++ [Step s a s' r d] →
  (∀ a m', Sel m' → Q a m') →
  wp (choose_action_e_greedy env s' actions epsilon) Q Sel Sel m.
Proof.
  intros Hes Hm HQ.
  assert (selects_after_every_step (events m ++ [Choose s'])) as H1.
  { rewrite Hm. by apply selects_step_choose. }
  apply wp_choose; intros; try apply HQ; simpl; by rewrite ?touch_events.
Qed.

Lemma sel_q_get state action (Q : Qc → Machine → Prop) m :
  Sel m → (∀ x m', Sel m' → Q x m') → wp (q_get env state action) Q Sel Sel m.
Proof.
  intros Hm HQ. apply wp_q_get.
  destruct (adict_get _ _); [apply HQ|]; by rewrite touch_events.
Qed.

Lemma sel_q_set state action value (Q : unit → Machine → Prop) m :
  Sel m → (∀ m', Sel m' → Q tt m') → wp (q_set env state action value) Q Sel Sel m.
Proof.
  intros Hm HQ. apply wp_q_set, HQ. simpl.
  apply selects_snoc; [done|]. intros; discriminate.
Qed.

Lemma sarsa_loop_selects fuel state action total_reward m :
  Sel m →
  wp (sarsa_loop env alpha gamma epsilon fuel state action total_reward)
     (fun _ => Sel) Sel Sel m.
Proof.
  revert state action total_reward m.
  induction fuel as [|fuel IH]; intros state action total_reward m Hm; simpl.
  - by apply wp_out_of_fuel.
  - apply wp_bind, wp_env_step.
    destruct (step env state action) as [[[next_state reward] d]|]; [|done].
    apply wp_bind, (sel_choose_pending (events m) state action next_state reward d);
      [done|done|].
    intros next_action m1 Hm1.
    apply wp_bind, sel_q_get; [done|]. intros old_value m2 Hm2.
    apply wp_bind, sel_q_get; [done|]. intros next_value m3 Hm3.
    apply wp_bind, sel_q_set; [done|]. intros m4 Hm4.
    destruct d; [by apply wp_ret|]. by apply IH.
Qed.

Lemma sarsa_selects episodes fuel m :
  Sel m → Sel (final (sarsa env alpha gamma epsilon episodes fuel m)).
Proof.
  intros Hm. unfold sarsa. apply (learner_inv Sel); [|done]. intros m' Hm'.
  unfold sarsa_episode. apply wp_bind, sel_choose; [done|].
  intros action m1 Hm1. by apply sarsa_loop_selects.
Qed.

End Selects.

(** The machine a learner stops in, whatever the way it stops, has kept
    the goal's row at zero, and has neither written to it nor stepped from
    the goal. *)
Lemma untouched_goal_kept env alpha gamma epsilon n_steps max_steps_per_episode
    episodes fuel g run :
  episodic env →
  run ∈ td_learners env alpha gamma epsilon n_steps max_steps_per_episode episodes fuel →
  goal_row_zero env (q_table (final (run (boot g)))) ∧
  writes_off_goal env (events (final (run (boot g)))) ∧
  steps_off_goal env (events (final (run (boot g)))).
Proof.
  intros Henv Hrun.
  assert (goal_row_zero env (q_table (boot g)) ∧
          writes_off_goal env (events (boot g)) ∧
          steps_off_goal env (events (boot g))) as H0.
  { split_and!.
    - intros row Hrow. simpl in Hrow. by rewrite lookup_empty in Hrow.
    - intros a v. apply not_elem_of_nil.
    - intros a s' r d. apply not_elem_of_nil. }
  unfold td_learners in Hrun.
  repeat (apply elem_of_cons in Hrun as [->|Hrun]); [| | | |by apply elem_of_nil in Hrun].
  - by apply (q_learning_inv env Henv _ _ _ _ (untouched_goal_invariant env false true)).
  - by apply (sarsa_inv env Henv _ _ _ _ (untouched_goal_invariant env true true)).
  - by apply (expected_sarsa_inv env Henv _ _ _ _ (untouched_goal_invariant env false true)).
  - by apply (n_step_sarsa_inv env Henv _ _ _ _ _ _ (untouched_goal_invariant env false false)).
Qed.

Lemma returned_goal_row_zero env alpha gamma epsilon n_steps max_steps_per_episode
    episodes fuel g run q policy history m' :
  episodic env →
  run ∈ td_learners env alpha gamma epsilon n_steps max_steps_per_episode episodes fuel →
  run (boot g) = Val (q, policy, history) m' →
  goal_row_zero env q.
Proof.
  intros Henv Hrun Hval.
  destruct (td_learners_Val _ _ _ _ _ _ _ _ _ _ _ _ _ _ Hrun Hval) as (-> & _ & ->).
  by apply (untouched_goal_kept env alpha gamma epsilon n_steps max_steps_per_episode
              episodes fuel g run).
Qed.

(** Claim C9.  In an episodic environment, whatever the parameters, the
    generator and the fuel, the machine in which a learner stops, be it at
    its return, at an exception or out of fuel, holds for the goal either
    no row or the row of zeros; no assignment to [q_table[goal]] and no
    step taken at the goal has happened.  In particular the goal's row of
    a returned [q_table] is the row of zeros. *)
Theorem goal_row_stays_zero env alpha gamma epsilon n_steps max_steps_per_episode
    episodes fuel g run :
  episodic env →
  run ∈ td_learners env alpha gamma epsilon n_steps max_steps_per_episode episodes fuel →
  (goal_row_zero env (q_table (final (run (boot g)))) ∧
   writes_off_goal env (events (final (run (boot g)))) ∧
   steps_off_goal env (events (final (run (boot g))))) ∧
  ∀ q policy history m',
    run (boot g) = Val (q, policy, history) m' → goal_row_zero env q.
Proof.
  intros Henv Hrun. split.
  - by apply (untouched_goal_kept env alpha gamma epsilon n_steps max_steps_per_episode
                episodes fuel).
  - intros q policy history m' Hval.
    by apply (returned_goal_row_zero env alpha gamma epsilon n_steps
                max_steps_per_episode episodes fuel g run q policy history m').
Qed.

(** One episode of [sarsa] on [cliffwalk1]: the run returns a table
    that holds a row for the goal, and that row is the row of zeros. *)
Lemma goal_row_stays_zero_witness :
  ∃ q policy history m',
    sarsa Examples.env1 (Q2Qc (1 # 2)) 1%Qc (Q2Qc (1 # 10)) 1 50
      (boot Examples.to_the_goal) = Val (q, policy, history) m' ∧
    is_Some (q !! goal_pos Examples.env1) ∧
    goal_row_zero Examples.env1 q ∧
    writes_off_goal Examples.env1 (events m') ∧
    steps_off_goal Examples.env1 (events m').
Proof.
  assert (match sarsa Examples.env1 (Q2Qc (1 # 2)) 1%Qc (Q2Qc (1 # 10)) 1 50
                  (boot Examples.to_the_goal) with
          | Val (q, policy, history) m' =>
              match q !! goal_pos Examples.env1 with Some _ => true | None => false end
          | _ => false
          end = true) as Hrun.
  { vm_compute. reflexivity. }
  destruct (sarsa _ _ _ _ _ _ _) as [[[q policy] history] m'| |] eqn:E; [|done..].
  exists q, policy, history, m'.
  destruct (goal_row_stays_zero Examples.env1 (Q2Qc (1 # 2)) 1%Qc (Q2Qc (1 # 10)) 2 50 1 50
              Examples.to_the_goal
              (sarsa Examples.env1 (Q2Qc (1 # 2)) 1%Qc (Q2Qc (1 # 10)) 1 50)
              CliffWalkFacts.env1_episodic)
    as [(_ & Hw & Hs) Hq].
  { unfold td_learners. apply elem_of_cons. right. apply elem_of_cons. by left. }
  rewrite E in Hw, Hs. simpl in Hw, Hs.
  split_and!; [done| |by apply (Hq q policy history m')|done|done].
  by destruct (q !! goal_pos Examples.env1).
Defined.

Lemma existsb_elem_of {A : Type} (f : A → bool) (l : list A) :
  existsb f l = true → ∃ x, x ∈ l ∧ f x = true.
Proof.
  intros (x & Hin & Hf)%existsb_exists. exists x. by rewrite list_elem_of_In.
Qed.

(** Claim C4, amended.  In an episodic environment (it starts off the
    goal and reports [done] exactly on landing on the goal) [q_learning],
    [expected_sarsa] and [n_step_sarsa] never call
    [choose_action_e_greedy] with the goal as its state: whatever the
    parameters, the generator and the fuel, no such call is among the
    events of the machine the learner stops in.  [sarsa], in every
    environment, calls it at [next_state] directly after every
    [env.step], the terminal one included: a run of [sarsa] in which a
    step has landed on the goal has called it with the goal. *)
Theorem chooses_off_goal_but_sarsa env alpha gamma epsilon n_steps
    max_steps_per_episode episodes fuel g :
  (episodic env →
   chooses_off_goal env
     (events (final (q_learning env alpha gamma epsilon episodes fuel (boot g)))) ∧
   chooses_off_goal env
     (events (final (expected_sarsa env alpha gamma epsilon episodes fuel (boot g)))) ∧
   chooses_off_goal env
     (events (final (n_step_sarsa env alpha gamma epsilon n_steps max_steps_per_episode
                       episodes fuel (boot g))))) ∧
  selects_after_every_step
    (events (final (sarsa env alpha gamma epsilon episodes fuel (boot g)))) ∧
  (goal_reached env
     (events (final (sarsa env alpha gamma epsilon episodes fuel (boot g)))) →
   ¬ chooses_off_goal env
       (events (final (sarsa env alpha gamma epsilon episodes fuel (boot g))))).
Proof.
  assert (selects_after_every_step
            (events (final (sarsa env alpha gamma epsilon episodes fuel (boot g)))))
    as Hsel.
  { apply sarsa_selects. apply selects_nil. }
  split; [|split; [done|by apply selects_reaches_goal]].
  intros Henv.
  assert (chooses_off_goal env (events (boot g))) as H0 by apply not_elem_of_nil.
  split_and!.
  - by apply (q_learning_inv env Henv _ _ _ _ (chooses_off_goal_invariant env true)).
  - by apply (expected_sarsa_inv env Henv _ _ _ _ (chooses_off_goal_invariant env true)).
  - by apply (n_step_sarsa_inv env Henv _ _ _ _ _ _ (chooses_off_goal_invariant env false)).
Qed.

(** Three episodes of [q_learning], [expected_sarsa] and 2-step SARSA on
    [cliffwalk1], and one episode of [sarsa] that walks east, south, south,
    east onto the goal. *)
Lemma chooses_off_goal_but_sarsa_witness :
  (chooses_off_goal Examples.env1
     (events (final (q_learning Examples.env1 (Q2Qc (1 # 2)) 1%Qc (Q2Qc (1 # 10)) 3 50
                       (boot Examples.to_the_goal)))) ∧
   chooses_off_goal Examples.env1
     (events (final (expected_sarsa Examples.env1 (Q2Qc (1 # 2)) 1%Qc (Q2Qc (1 # 10)) 3 50
                       (boot Examples.to_the_goal)))) ∧
   chooses_off_goal Examples.env1
     (events (final (n_step_sarsa Examples.env1 (Q2Qc (1 # 2)) 1%Qc (Q2Qc (1 # 10)) 2 50
                       3 50 (boot Examples.to_the_goal))))) ∧
  selects_after_every_step
    (events (final (sarsa Examples.env1 (Q2Qc (1 # 2)) 1%Qc (Q2Qc (1 # 10)) 1 50
                      (boot Examples.to_the_goal)))) ∧
  goal_reached Examples.env1
    (events (final (sarsa Examples.env1 (Q2Qc (1 # 2)) 1%Qc (Q2Qc (1 # 10)) 1 50
                      (boot Examples.to_the_goal)))) ∧
  ¬ chooses_off_goal Examples.env1
      (events (final (sarsa Examples.env1 (Q2Qc (1 # 2)) 1%Qc (Q2Qc (1 # 10)) 1 50
                        (boot Examples.to_the_goal)))).
Proof.
  destruct (chooses_off_goal_but_sarsa Examples.env1 (Q2Qc (1 # 2)) 1%Qc (Q2Qc (1 # 10))
              2 50 3 50 Examples.to_the_goal) as [H1 _].
  destruct (chooses_off_goal_but_sarsa Examples.env1 (Q2Qc (1 # 2)) 1%Qc (Q2Qc (1 # 10))
              2 50 1 50 Examples.to_the_goal) as (_ & H2 & H3).
  assert (goal_reached Examples.env1
            (events (final (sarsa Examples.env1 (Q2Qc (1 # 2)) 1%Qc (Q2Qc (1 # 10)) 1 50
                              (boot Examples.to_the_goal))))) as Hreached.
  { assert (existsb (Examples.is_step_to (goal_pos Examples.env1))
              (events (final (sarsa Examples.env1 (Q2Qc (1 # 2)) 1%Qc (Q2Qc (1 # 10)) 1 50
                                (boot Examples.to_the_goal)))) = true) as Hex.
    { vm_compute. reflexivity. }
    apply existsb_elem_of in Hex as (e & Hin & He).
    destruct e as [s|s a s' r d|s a v]; [discriminate He| |discriminate He].
    simpl in He. apply bool_decide_eq_true in He. subst s'.
    exists s, a, r, d. exact Hin. }
  split; [exact (H1 CliffWalkFacts.env1_episodic)|].
  split; [exact H2|]. split; [exact Hreached|]. exact (H3 Hreached).
Defined.

(** [sarsa] does call [choose_action_e_greedy] at the goal: one episode on
    [cliffwalk1] that walks east, south, south, east. *)
Lemma sarsa_chooses_at_goal :
  ¬ chooses_off_goal Examples.env1
      (events (final (sarsa Examples.env1 (Q2Qc (1 # 2)) 1%Qc (Q2Qc (1 # 10)) 1 50
                        (boot Examples.to_the_goal)))).
Proof.
  intros H. apply H.
  assert (existsb (Examples.is_choose_at (goal_pos Examples.env1))
            (events (final (sarsa Examples.env1 (Q2Qc (1 # 2)) 1%Qc (Q2Qc (1 # 10)) 1 50
                              (boot Examples.to_the_goal)))) = true) as Hex.
  { vm_compute. reflexivity. }
  apply existsb_elem_of in Hex as (e & Hin & He).
  destruct e as [s| |]; try done. simpl in He.
  apply bool_decide_eq_true in He as ->. done.
Qed.

(** The claim C10 fails for [n_step_sarsa]: one episode on [cliffwalk1]
    walks east, south, south, east onto the goal, and the returned policy
    has no entry for the goal. *)
Lemma n_step_policy_omits_reached_goal :
  ∃ q policy history m',
    n_step_sarsa Examples.env1 (Q2Qc (1 # 2)) 1%Qc (Q2Qc (1 # 10)) 2 50 1 50
      (boot Examples.to_the_goal) = Val (q, policy, history) m' ∧
    goal_reached Examples.env1 (events m') ∧
    policy !! goal_pos Examples.env1 = None.
Proof.
  assert (match n_step_sarsa Examples.env1 (Q2Qc (1 # 2)) 1%Qc (Q2Qc (1 # 10)) 2 50 1 50
                  (boot Examples.to_the_goal) with
          | Val (q, policy, history) m' =>
              existsb (Examples.is_step_to (goal_pos Examples.env1)) (events m')
              && bool_decide (policy !! goal_pos Examples.env1 = None)
          | _ => false
          end = true) as Hrun.
  { vm_compute. reflexivity. }
  destruct (n_step_sarsa _ _ _ _ _ _ _ _ _) as [[[q policy] history] m'| |];
    [|done..].
  apply andb_true_iff in Hrun as [Hex Hp].
  exists q, policy, history, m'. split; [done|]. split.
  - apply existsb_elem_of in Hex as (e & Hin & He).
    destruct e as [|s a s' r d|]; try done. simpl in He.
    apply bool_decide_eq_true in He as ->. by exists s, a, r, d.
  - by apply bool_decide_eq_true in Hp.
Qed.

(** Claim C10, amended.  In an episodic environment the policy a learner
    returns has exactly the keys of the returned [q_table], the states
    whose rows the run has materialized, and it maps the goal, when the goal
    is among them, to the first action of [env.action_keys].  For
    [q_learning], [sarsa] and [expected_sarsa] the goal is among them
    whenever a step of the run has landed on it; [n_step_sarsa] never
    materializes the goal's row, so the goal is never among them. *)
Theorem policy_domain_is_materialized env alpha gamma epsilon n_steps
    max_steps_per_episode episodes fuel g :
  episodic env →
  (∀ run q policy history m',
     run ∈ td_learners env alpha gamma epsilon n_steps max_steps_per_episode
             episodes fuel →
     run (boot g) = Val (q, policy, history) m' →
     q = q_table m' ∧ dom policy = dom q ∧
     ∀ a0 acts, action_keys env = a0 :: acts → goal_pos env ∈ dom policy →
                policy !! goal_pos env = Some a0) ∧
  (∀ run q policy history m',
     run ∈ [q_learning env alpha gamma epsilon episodes fuel;
            sarsa env alpha gamma epsilon episodes fuel;
            expected_sarsa env alpha gamma epsilon episodes fuel] →
     run (boot g) = Val (q, policy, history) m' →
     goal_reached env (events m') → goal_pos env ∈ dom policy) ∧
  (∀ q policy history m',
     n_step_sarsa env alpha gamma epsilon n_steps max_steps_per_episode episodes fuel
       (boot g) = Val (q, policy, history) m' →
     goal_pos env ∉ dom policy).
Proof.
  intros Henv. split_and!.
  - intros run q policy history m' Hrun Hval.
    pose proof (returned_goal_row_zero env alpha gamma epsilon n_steps
                  max_steps_per_episode episodes fuel g run q policy history m'
                  Henv Hrun Hval) as Hzero.
    destruct (td_learners_Val _ _ _ _ _ _ _ _ _ _ _ _ _ _ Hrun Hval) as (Hq & Hp & _).
    apply derive_policy_Ok in Hp as [Hdom Hp].
    split_and!; [done|done|].
    intros a0 acts Hacts Hg. rewrite Hdom in Hg.
    apply elem_of_dom in Hg as [row Hrow].
    destruct (Hp _ _ Hrow) as (a & Ha & ->).
    rewrite (Hzero _ Hrow), Hacts, argmax_zero_row in Ha. by injection Ha as <-.
  - intros run q policy history m' Hrun Hval Hreached.
    assert (goal_row_follows env None m') as HJ.
    { repeat (apply elem_of_cons in Hrun as [->|Hrun]);
        [| | |by apply elem_of_nil in Hrun].
      - eapply learner_reach; [|exact Hval]. intros m Hm.
        by apply q_learning_loop_reach.
      - eapply learner_reach; [|exact Hval]. intros m Hm.
        unfold sarsa_episode. apply wp_bind, (reach_choose _ _ None); [done|].
        intros action m1 Hm1. by apply sarsa_loop_reach.
      - eapply learner_reach; [|exact Hval]. intros m Hm.
        by apply expected_sarsa_loop_reach. }
    assert (run ∈ td_learners env alpha gamma epsilon n_steps max_steps_per_episode
                    episodes fuel) as Hrun'.
    { unfold td_learners. set_solver. }
    destruct (td_learners_Val _ _ _ _ _ _ _ _ _ _ _ _ _ _ Hrun' Hval) as (-> & Hp & _).
    apply derive_policy_Ok in Hp as [-> _].
    destruct (HJ Hreached) as [[=]|Hg]. by apply elem_of_dom.
  - intros q policy history m' Hval.
    pose proof (n_step_sarsa_inv env Henv alpha gamma epsilon n_steps
                  max_steps_per_episode _ (goal_absent_invariant env false)
                  episodes fuel (boot g) (lookup_empty _)) as Habs.
    rewrite Hval in Habs. simpl in Habs.
    assert (n_step_sarsa env alpha gamma epsilon n_steps max_steps_per_episode
              episodes fuel
            ∈ td_learners env alpha gamma epsilon n_steps max_steps_per_episode
                episodes fuel) as Hrun.
    { unfold td_learners. set_solver. }
    destruct (td_learners_Val _ _ _ _ _ _ _ _ _ _ _ _ _ _ Hrun Hval) as (-> & Hp & _).
    apply derive_policy_Ok in Hp as [-> _]. by apply not_elem_of_dom.
Qed.

(** One episode of [sarsa] on [cliffwalk1]: the run lands on the goal,
    the returned policy has the keys of the returned table, the goal among
    them, and maps the goal to ['N'], the first action. *)
Lemma policy_domain_is_materialized_witness :
  ∃ q policy history m',
    sarsa Examples.env1 (Q2Qc (1 # 2)) 1%Qc (Q2Qc (1 # 10)) 1 50
      (boot Examples.to_the_goal) = Val (q, policy, history) m' ∧
    q = q_table m' ∧ dom policy = dom q ∧
    goal_pos Examples.env1 ∈ dom policy ∧
    policy !! goal_pos Examples.env1 = Some "N"%string.
Proof.
  assert (match sarsa Examples.env1 (Q2Qc (1 # 2)) 1%Qc (Q2Qc (1 # 10)) 1 50
                  (boot Examples.to_the_goal) with
          | Val _ m' => existsb (Examples.is_step_to (goal_pos Examples.env1)) (events m')
          | _ => false
          end = true) as Hrun.
  { vm_compute. reflexivity. }
  destruct (sarsa _ _ _ _ _ _ _) as [[[q policy] history] m'| |] eqn:E; [|done..].
  exists q, policy, history, m'.
  destruct (policy_domain_is_materialized Examples.env1 (Q2Qc (1 # 2)) 1%Qc
              (Q2Qc (1 # 10)) 2 50 1 50 Examples.to_the_goal
              CliffWalkFacts.env1_episodic) as (Hall & Hthree & _).
  assert (goal_reached Examples.env1 (events m')) as Hreached.
  { apply existsb_elem_of in Hrun as (e & Hin & He).
    destruct e as [|s a s' r d|]; [discriminate He| |discriminate He].
    cbn [Examples.is_step_to] in He.
    apply bool_decide_eq_true in He. subst s'.
    exists s, a, r, d. exact Hin. }
  assert (goal_pos Examples.env1 ∈ dom policy) as Hdom.
  { apply (Hthree (sarsa Examples.env1 (Q2Qc (1 # 2)) 1%Qc (Q2Qc (1 # 10)) 1 50)
             q policy history m'); [|exact E|exact Hreached].
    apply elem_of_cons. right. apply elem_of_cons. by left. }
  destruct (Hall (sarsa Examples.env1 (Q2Qc (1 # 2)) 1%Qc (Q2Qc (1 # 10)) 1 50)
              q policy history m') as (Hq & Hd & Hfirst); [|exact E|].
  { unfold td_learners. apply elem_of_cons. right. apply elem_of_cons. by left. }
  split_and!; [reflexivity|exact Hq|exact Hd|exact Hdom|].
  apply (Hfirst "N"%string ["S"; "W"; "E"]%string); [reflexivity|exact Hdom].
Defined.

End LearnerFacts.

(** ** The trajectory buffer of n-step SARSA *)

Module NStepFacts.

Import PyFacts DictFacts Homework2 Logic Spec MachineFacts.

(** *** Calls that cannot run out of fuel *)

Lemma call_fuel {A : Type} (r : returned A) : call r ≠ OutOfFuel.
Proof. by destruct r. Qed.

Lemma adict_getitem_fuel d k : adict_getitem d k ≠ OutOfFuel.
Proof. unfold adict_getitem. by destruct (adict_get d k). Qed.

Lemma pypow_fuel x n : pypow x n ≠ OutOfFuel.
Proof. unfold pypow. by repeat case_match. Qed.

Lemma return_loop_fuel gamma trajectory i n G :
  return_loop gamma trajectory i n G ≠ OutOfFuel.
Proof.
  revert i G. induction n as [|n IH]; intros i G; simpl; [done|].
  destruct (trajectory !! i) as [[[? ?] r]|]; [apply IH|done].
Qed.

(** *** The logs *)

Lemma update_log_app es es' : update_log (es ++ es') = update_log es ++ update_log es'.
Proof. apply omap_app. Qed.

Lemma step_log_app es es' : step_log (es ++ es') = step_log es ++ step_log es'.
Proof. apply omap_app. Qed.

Section Logged.

Variable env : Env.

Lemma logged_rng U S g m : logged U S m → logged U S (set_rng g m).
Proof. done. Qed.

Lemma logged_touch U S s m : logged U S m → logged U S (touch env s m).
Proof. unfold logged. by rewrite touch_events. Qed.

Lemma logged_choose_event U S s m : logged U S m → logged U S (add_event (Choose s) m).
Proof.
  unfold logged. simpl. rewrite update_log_app, step_log_app. simpl.
  by rewrite !app_nil_r.
Qed.

Lemma logged_step U S s a s' r d m :
  logged U S m → logged U (S ++ [(s, a, s', r, d)]) (add_event (Step s a s' r d) m).
Proof.
  unfold logged. simpl. rewrite update_log_app, step_log_app. simpl.
  rewrite !app_nil_r. by intros [-> ->].
Qed.

Lemma logged_write U S s a v m :
  logged U S m → logged (U ++ [(s, a, v)]) S (write env s a v m).
Proof.
  unfold logged. simpl. rewrite update_log_app, step_log_app. simpl.
  rewrite !app_nil_r. by intros [-> ->].
Qed.

(** Rules for a computation that cannot run out of fuel; [E] is what must
    hold if it raises. *)
Notation never := (fun _ : Machine => False).

Lemma log_choose U S state actions epsilon (Q : Action → Machine → Prop) E m :
  logged U S m → (∀ m', logged U S m' → E m') → (∀ a m', logged U S m' → Q a m') →
  wp (choose_action_e_greedy env state actions epsilon) Q E never m.
Proof.
  intros Hm HE HQ.
  apply wp_choose; intros; first [apply HQ|apply HE];
    auto using logged_rng, logged_touch, logged_choose_event.
Qed.

Lemma log_env_step U S state action (Q : State * Qc * bool → Machine → Prop) E m :
  logged U S m → (∀ m', logged U S m' → E m') →
  (∀ next_state reward d m',
     step env state action = Return (next_state, reward, d) →
     logged U (S ++ [(state, action, next_state, reward, d)]) m' →
     Q (next_state, reward, d) m') →
  wp (env_step env state action) Q E never m.
Proof.
  intros Hm HE HQ. apply wp_env_step.
  destruct (step env state action) as [[[next_state reward] d]|] eqn:Hs; [|by apply HE].
  apply HQ; [done|]. by apply logged_step.
Qed.

Lemma log_row_of U S state (Q : adict → Machine → Prop) E m :
  logged U S m → (∀ row m', logged U S m' → Q row m') →
  wp (row_of env state) Q E never m.
Proof. intros Hm HQ. by apply wp_row_of, HQ, logged_touch. Qed.

Lemma log_q_get U S state action (Q : Qc → Machine → Prop) E m :
  logged U S m → (∀ m', logged U S m' → E m') → (∀ x m', logged U S m' → Q x m') →
  wp (q_get env state action) Q E never m.
Proof.
  intros Hm HE HQ. apply wp_q_get.
  destruct (adict_get _ _); [apply HQ|apply HE]; by apply logged_touch.
Qed.

Lemma log_q_set U S state action value (Q : unit → Machine → Prop) E m :
  logged U S m →
  (∀ m', logged (U ++ [(state, action, value)]) S m' → Q tt m') →
  wp (q_set env state action value) Q E never m.
Proof. intros Hm HQ. by apply wp_q_set, HQ, logged_write. Qed.

Lemma log_lift {A : Type} (o : outcome A) (Q : A → Machine → Prop) (E : Machine → Prop) m :
  o ≠ OutOfFuel → E m → (∀ a, o = Ok a → Q a m) → wp (lift o) Q E never m.
Proof. intros Ho HE HQ. apply wp_lift. destruct o; auto. Qed.

End Logged.

(** *** The loops of an episode *)

Section Episode.

Variable env : Env.
Variables alpha gamma epsilon : Qc.
Variables n_steps max_steps_per_episode : Z.

Notation never := (fun _ : Machine => False).
Notation n_step_update := (n_step_update env alpha gamma n_steps).
Notation n_step_loop :=
  (n_step_loop env alpha gamma epsilon n_steps max_steps_per_episode).
Notation drain := (drain env alpha gamma).
Notation n_step_episode :=
  (n_step_episode env alpha gamma epsilon n_steps max_steps_per_episode).

Lemma n_step_update_log U S trajectory next_state next_action d (E : Machine → Prop) m :
  logged U S m → (∀ m', logged U S m' → E m') →
  wp (n_step_update trajectory next_state next_action d)
     (fun trajectory' m' =>
        ∃ U', logged (U ++ U') S m' ∧
              (update_key <$> U') ++ (entry_key <$> trajectory')
              = entry_key <$> trajectory)
     E never m.
Proof.
  intros Hm HE. unfold Homework2.n_step_update.
  destruct (n_steps <=? _)%Z.
  2:{ apply wp_ret. exists []. by rewrite app_nil_r. }
  destruct trajectory as [|[[s_tau a_tau] r_tau] rest]; [by apply wp_raise, HE|].
  apply wp_bind, log_lift; [apply return_loop_fuel|by apply HE|]. intros G _.
  apply wp_bind.
  assert (wp (if negb d
              then p ← lift (pypow gamma n_steps);
                   next_row ← row_of env next_state;
                   match next_action with
                   | Some a => q ← lift (adict_getitem next_row a); mret (G + p * q)%Qc
                   | None => raise KeyError
                   end
              else mret G) (fun _ => logged U S) E never m) as Hboot.
  { destruct d; simpl; [by apply wp_ret|].
    apply wp_bind, log_lift; [apply pypow_fuel|by apply HE|]. intros p _.
    apply wp_bind, (log_row_of _ U S); [done|]. intros next_row m1 Hm1.
    destruct next_action as [a|]; [|by apply wp_raise, HE].
    apply wp_bind, log_lift; [apply adict_getitem_fuel|by apply HE|]. intros q _.
    by apply wp_ret. }
  eapply wp_mono; [| | |exact Hboot]; simpl; [|done|done].
  intros G' m1 Hm1.
  apply wp_bind, (log_q_get _ U S); [done|done|]. intros old_value m2 Hm2.
  apply wp_bind, (log_q_set _ U S); [done|]. intros m3 Hm3.
  apply wp_ret. eexists [_]. split; [exact Hm3|]. done.
Qed.

Lemma stops_at_terminal_cons x steps :
  (steps ≠ [] → step_done x = false) → stops_at_terminal steps →
  stops_at_terminal (x :: steps).
Proof.
  intros Hx Hs [|i] y Hy Hlen; simpl in *.
  - injection Hy as <-. apply Hx. by destruct steps; simpl in *; [lia|].
  - apply (Hs i y Hy). lia.
Qed.

Lemma stops_at_terminal_nil : stops_at_terminal [].
Proof. by intros [|i] x Hx. Qed.

(** What the main loop of an episode logs, entered with [done] equal to
    [d] and the step counter at [step_counter]. *)
Definition main_loop_post (d : bool) (step_counter : Z) (trajectory : deque)
    (U : list (State * Action * Qc))
    (S : list (State * Action * State * Qc * bool))
    (r : Qc * deque) (m' : Machine) : Prop :=
  ∃ U' S',
    logged (U ++ U') (S ++ S') m' ∧
    (update_key <$> U') ++ (entry_key <$> r.2)
    = (entry_key <$> trajectory) ++ (step_key <$> S') ∧
    (length S' ≤ Z.to_nat (max_steps_per_episode - step_counter))%nat ∧
    stops_at_terminal S' ∧
    (d = true → S' = []) ∧
    (d = true ∨ ends_terminal S' ∨
     length S' = Z.to_nat (max_steps_per_episode - step_counter)).

Definition main_loop_exc (d : bool) (step_counter : Z)
    (S : list (State * Action * State * Qc * bool)) (m' : Machine) : Prop :=
  ∃ S',
    step_log (events m') = S ++ S' ∧
    (length S' ≤ Z.to_nat (max_steps_per_episode - step_counter))%nat ∧
    stops_at_terminal S' ∧
    (d = true → S' = []).

Lemma n_step_loop_log fuel state action d step_counter total_reward trajectory U S m :
  (Z.to_nat (max_steps_per_episode - step_counter) ≤ fuel)%nat →
  logged U S m →
  wp (n_step_loop fuel state action d step_counter total_reward trajectory)
     (main_loop_post d step_counter trajectory U S)
     (main_loop_exc d step_counter S) never m.
Proof.
  revert state action d step_counter total_reward trajectory U S m.
  induction fuel as [|fuel IH];
    intros state action d step_counter total_reward trajectory U S m Hfuel Hm;
    simpl; (destruct (negb d && _) eqn:Hcond;
    [apply andb_true_iff in Hcond as [Hd%negb_true_iff Hlt%Z.ltb_lt]|]).
  - lia.
  - apply wp_ret. exists [], []. rewrite !app_nil_r. simpl.
    split_and!; [done|by rewrite ?app_nil_r|lia|apply stops_at_terminal_nil|done|].
    destruct d; [by left|right; right]. simpl in Hcond.
    apply Z.ltb_ge in Hcond. lia.
  - subst d.
    assert (∀ m', logged U S m' → main_loop_exc false step_counter S m') as HE.
    { intros m' [_ Hs]. exists []. rewrite app_nil_r.
      split_and!; [done|simpl; lia|apply stops_at_terminal_nil|done]. }
    apply wp_bind. destruct action as [a|]; [apply wp_ret|by apply wp_raise, HE].
    apply wp_bind, (log_env_step _ U S); [done|done|].
    intros next_state reward d' m1 Hstep Hm1. simpl.
    set (x := (state, a, next_state, reward, d')) in *.
    assert (∀ U' m', logged (U ++ U') (S ++ [x]) m' →
                     main_loop_exc false step_counter S m') as HE1.
    { intros U' m' [_ Hs]. exists [x].
      split_and!; [done|simpl; lia| |done].
      apply stops_at_terminal_cons; [done|apply stops_at_terminal_nil]. }
    apply wp_bind.
    assert (wp (if negb d'
                then a' ← choose_action_e_greedy env next_state (action_keys env) epsilon;
                     mret (Some a')
                else mret None)
              (fun _ => logged U (S ++ [x])) (main_loop_exc false step_counter S)
              never m1) as Hchoose.
    { destruct d'; simpl; [by apply wp_ret|].
      apply wp_bind, (log_choose _ U (S ++ [x])); [done| |].
      - intros m' Hm'. apply (HE1 []). by rewrite app_nil_r.
      - intros a' m' Hm'. by apply wp_ret. }
    eapply wp_mono; [| | |exact Hchoose]; simpl; [|done|done].
    intros next_action m2 Hm2.
    apply wp_bind.
    eapply wp_mono;
      [| | |apply (n_step_update_log U (S ++ [x]) _ _ _ _
                     (main_loop_exc false step_counter S))]; simpl;
      [|done|done|done|].
    2:{ intros m' Hm'. apply (HE1 []). by rewrite app_nil_r. }
    intros trajectory' m3 (U1 & Hm3 & Hkeys).
    assert (Z.to_nat (max_steps_per_episode - (step_counter + 1)) ≤ fuel)%nat
      as Hfuel' by lia.
    eapply wp_mono; [| | |apply (IH _ _ _ _ _ _ _ _ _ Hfuel' Hm3)]; simpl; [| |done].
    + intros r m4 (U2 & S2 & Hm4 & Hk2 & Hlen & Hstop & Hd & Hexit).
      exists (U1 ++ U2), (x :: S2).
      rewrite <- !app_assoc in Hm4. simpl in Hm4.
      split_and!; [done| | | |done|].
      * rewrite fmap_app, <- app_assoc, Hk2, app_assoc, Hkeys.
        rewrite fmap_app, <- app_assoc. done.
      * simpl. lia.
      * apply stops_at_terminal_cons; [|done]. intros HS2.
        destruct d'; [by destruct HS2; apply Hd|done].
      * right. destruct Hexit as [->|[(y & Hy & Hdone)|Hlen']].
        -- left. rewrite (Hd eq_refl). by exists x.
        -- left. exists y. split; [|done].
           destruct S2; [done|]. by rewrite last_cons, Hy.
        -- right. simpl. lia.
    + intros m4 (S2 & Hs & Hlen & Hstop & Hd).
      exists (x :: S2). rewrite <- app_assoc in Hs.
      split_and!; [done|simpl; lia| |done].
      apply stops_at_terminal_cons; [|done]. intros HS2.
      destruct d'; [by destruct HS2; apply Hd|done].
  - apply wp_ret. exists [], []. rewrite !app_nil_r. simpl.
    split_and!; [done|by rewrite ?app_nil_r|lia|apply stops_at_terminal_nil|done|].
    destruct d; [by left|right; right]. simpl in Hcond.
    apply Z.ltb_ge in Hcond. lia.
Qed.

Lemma drain_log fuel trajectory U S (E : Machine → Prop) m :
  (length trajectory ≤ fuel)%nat → logged U S m →
  (∀ U' m', logged (U ++ U') S m' → E m') →
  wp (drain fuel trajectory)
     (fun trajectory' m' =>
        trajectory' = [] ∧
        ∃ U', logged (U ++ U') S m' ∧ update_key <$> U' = entry_key <$> trajectory)
     E never m.
Proof.
  revert trajectory U m. induction fuel as [|fuel IH]; intros trajectory U m Hlen Hm HE;
    (destruct trajectory as [|[[s_tau a_tau] r_tau] rest]; simpl;
     [apply wp_ret; split; [done|]; exists []; by rewrite app_nil_r|]).
  - simpl in Hlen. lia.
  - assert (∀ m', logged U S m' → E m') as HE0.
    { intros m' Hm'. apply (HE []). by rewrite app_nil_r. }
    apply wp_bind, log_lift; [apply return_loop_fuel|by apply HE0|]. intros G _.
    apply wp_bind, (log_q_get _ U S); [done|done|]. intros old_value m2 Hm2.
    apply wp_bind, (log_q_set _ U S); [done|]. intros m3 Hm3.
    assert (length rest ≤ fuel)%nat as Hlen' by (simpl in Hlen; lia).
    eapply wp_mono; [| | |apply (IH rest _ _ Hlen' Hm3)]; simpl; [|done|done|].
    + intros trajectory' m4 (-> & U' & Hm4 & Hk). split; [done|].
      eexists (_ :: U'). rewrite <- app_assoc in Hm4. split; [exact Hm4|].
      by rewrite !fmap_cons, Hk.
    + intros U' m' Hm'. rewrite <- app_assoc in Hm'. by eapply HE.
Qed.

(** What an episode logs. *)
Definition episode_post (U : list (State * Action * Qc))
    (S : list (State * Action * State * Qc * bool))
    (r : Qc * deque) (m' : Machine) : Prop :=
  r.2 = [] ∧
  ∃ U' S',
    logged (U ++ U') (S ++ S') m' ∧
    update_key <$> U' = step_key <$> S' ∧
    (length S' ≤ Z.to_nat max_steps_per_episode)%nat ∧
    stops_at_terminal S' ∧
    (ends_terminal S' ∨ length S' = Z.to_nat max_steps_per_episode).

Definition episode_exc (S : list (State * Action * State * Qc * bool))
    (m' : Machine) : Prop :=
  ∃ S',
    step_log (events m') = S ++ S' ∧
    (length S' ≤ Z.to_nat max_steps_per_episode)%nat ∧
    stops_at_terminal S'.

Lemma n_step_episode_log fuel U S m :
  (Z.to_nat max_steps_per_episode ≤ fuel)%nat → logged U S m →
  wp (n_step_episode fuel) (episode_post U S) (episode_exc S) never m.
Proof.
  intros Hfuel Hm. unfold Homework2.n_step_episode.
  assert (∀ m', logged U S m' → episode_exc S m') as HE.
  { intros m' [_ Hs]. exists []. rewrite app_nil_r.
    split_and!; [done|simpl; lia|apply stops_at_terminal_nil]. }
  apply wp_bind, (log_choose _ U S); [done|done|]. intros action m1 Hm1.
  apply wp_bind.
  eapply wp_mono; [| | |apply (n_step_loop_log fuel _ _ _ _ _ _ U S)]; simpl;
    [| |done|rewrite Z.sub_0_r; lia|done].
  - intros [total_reward trajectory] m2
      (U1 & S1 & Hm2 & Hk & Hlen & Hstop & _ & Hexit).
    simpl in Hk. rewrite Z.sub_0_r in Hlen, Hexit.
    assert (length trajectory ≤ fuel)%nat as Hbuf.
    { apply (f_equal length) in Hk. rewrite length_app, !length_fmap in Hk. lia. }
    apply wp_bind.
    eapply wp_mono;
      [| | |apply (drain_log fuel trajectory (U ++ U1) (S ++ S1) (episode_exc S))];
      simpl; [|done|done|done|done|].
    + intros trajectory' m3 (-> & U2 & Hm3 & Hk2). apply wp_ret.
      split; [done|]. exists (U1 ++ U2), S1. rewrite app_assoc.
      split_and!; [done| |done|done|].
      * by rewrite fmap_app, Hk2.
      * destruct Hexit as [[=]|Hexit]. done.
    + intros U' m' [_ Hs]. by exists S1.
  - intros m' (S1 & Hs & Hlen & Hstop & _). rewrite Z.sub_0_r in Hlen.
    by exists S1.
Qed.

(** *** The return of the drain phase *)

Lemma return_loop_discounted (trajectory : deque) i n G :
  (i + n ≤ length trajectory)%nat →
  return_loop gamma trajectory i n G
  = Ok (G + gamma ^ i * discounted_return gamma (take n (drop i (trajectory.*2))))%Qc.
Proof.
  revert i G. induction n as [|n IH]; intros i G Hlen; cbn [return_loop].
  - rewrite take_0. simpl. f_equal. ring.
  - destruct (trajectory !! i) as [[[s a] r]|] eqn:Hi.
    2:{ apply lookup_ge_None in Hi. lia. }
    rewrite IH by lia. f_equal.
    assert (trajectory.*2 !! i = Some r) as Hr by by rewrite list_lookup_fmap, Hi.
    rewrite (drop_S _ _ _ Hr). simpl. ring.
Qed.

Lemma drain_step fuel s_tau a_tau r rest m :
  drain (S fuel) ((s_tau, a_tau, r) :: rest) m
  = (old_value ← q_get env s_tau a_tau;
     q_set env s_tau a_tau
       (old_value + alpha * (discounted_return gamma (r :: rest.*2) - old_value))%Qc;;
     drain fuel rest) m.
Proof.
  cbn [Homework2.drain].
  rewrite return_loop_discounted by done.
  rewrite drop_0, take_ge by (by rewrite length_fmap).
  rewrite fmap_cons. cbn [snd].
  replace (0 + gamma ^ 0 * discounted_return gamma (r :: rest.*2))%Qc
    with (discounted_return gamma (r :: rest.*2)).
  2:{ simpl. ring. }
  done.
Qed.

(** Claim C3.  The drain phase of [n_step_sarsa] takes the entries of the
    buffer oldest first: it updates the first entry with the discounted sum
    of the rewards still in the buffer, without any bootstrap term, drops
    it and goes on with the rest.  Given fuel for as many iterations as the
    buffer has entries, it never runs out of fuel, and when it returns the
    buffer is empty and the updates it has made are those of the buffered
    pairs, in order.  So every episode that ends leaves the buffer empty,
    and the [(state, action)] pairs it has updated are the pairs it has
    stepped with and stored, in the same order, each stored pair updated
    once. *)
Theorem drain_updates_every_entry fuel m :
  (Z.to_nat max_steps_per_episode ≤ fuel)%nat →
  (∀ f s_tau a_tau r rest m0,
     drain (S f) ((s_tau, a_tau, r) :: rest) m0
     = (old_value ← q_get env s_tau a_tau;
        q_set env s_tau a_tau
          (old_value + alpha * (discounted_return gamma (r :: rest.*2) - old_value))%Qc;;
        drain f rest) m0) ∧
  (∀ (trajectory : deque) m0,
     (length trajectory ≤ fuel)%nat →
     (∀ m', drain fuel trajectory m0 ≠ Fuel m') ∧
     ∀ trajectory' m',
       drain fuel trajectory m0 = Val trajectory' m' →
       trajectory' = [] ∧
       step_log (events m') = step_log (events m0) ∧
       ∃ U', update_log (events m') = update_log (events m0) ++ U' ∧
             update_key <$> U' = entry_key <$> trajectory) ∧
  (∀ total_reward trajectory m',
     n_step_episode fuel m = Val (total_reward, trajectory) m' →
     trajectory = [] ∧
     ∃ U' S', update_log (events m') = update_log (events m) ++ U' ∧
              step_log (events m') = step_log (events m) ++ S' ∧
              update_key <$> U' = step_key <$> S').
Proof.
  intros Hfuel. split_and!.
  - intros. apply drain_step.
  - intros trajectory m0 Hlen.
    pose proof (drain_log fuel trajectory (update_log (events m0))
                  (step_log (events m0)) (fun _ => True) m0 Hlen
                  (conj eq_refl eq_refl) (fun _ _ _ => I)) as Hwp.
    unfold wp in Hwp. split.
    + intros m' Hf. by rewrite Hf in Hwp.
    + intros trajectory' m' Hv. rewrite Hv in Hwp.
      destruct Hwp as (-> & U' & [HU HS] & Hk). eauto.
  - intros total_reward trajectory m' Hv.
    pose proof (n_step_episode_log fuel (update_log (events m))
                  (step_log (events m)) m Hfuel (conj eq_refl eq_refl)) as Hwp.
    unfold wp in Hwp. rewrite Hv in Hwp.
    destruct Hwp as (Ht & U' & S' & [HU HS] & Hk & _). simpl in Ht. eauto 10.
Qed.

(** Claim C8.  Given fuel for [max_steps_per_episode] iterations, an
    episode of [n_step_sarsa] never runs out of fuel: its loops end.
    Whatever way the episode ends, it has made at most
    [max_steps_per_episode] calls of [env.step], and none after a call
    that returned [done]; when it returns, the last call returned [done]
    or the number of calls is the cap.  This holds for every environment.
    Hence a whole run never runs out of fuel either. *)
Theorem n_step_episode_terminates fuel m :
  (Z.to_nat max_steps_per_episode ≤ fuel)%nat →
  (∀ m', n_step_episode fuel m ≠ Fuel m') ∧
  (∃ S', step_log (events (final (n_step_episode fuel m)))
         = step_log (events m) ++ S' ∧
         (length S' ≤ Z.to_nat max_steps_per_episode)%nat ∧
         stops_at_terminal S' ∧
         ∀ r m', n_step_episode fuel m = Val r m' →
                 ends_terminal S' ∨ length S' = Z.to_nat max_steps_per_episode) ∧
  (∀ episodes g m',
     n_step_sarsa env alpha gamma epsilon n_steps max_steps_per_episode
       episodes fuel (boot g) ≠ Fuel m').
Proof.
  intros Hfuel.
  assert (∀ m0, wp (n_step_episode fuel)
                  (episode_post (update_log (events m0)) (step_log (events m0)))
                  (episode_exc (step_log (events m0))) never m0) as Hep.
  { intros m0. by apply n_step_episode_log. }
  split_and!.
  - intros m' Hf. specialize (Hep m). unfold wp in Hep. by rewrite Hf in Hep.
  - specialize (Hep m). unfold wp in Hep.
    destruct (n_step_episode fuel m) as [r m'|e m'|m'] eqn:Hrun; simpl; [| |done].
    + destruct Hep as (_ & U' & S' & [_ HS] & _ & Hlen & Hstop & Hexit).
      exists S'. split_and!; [done|done|done|]. intros r0 m0 [= -> ->]. done.
    + destruct Hep as (S' & HS & Hlen & Hstop).
      exists S'. split_and!; [done|done|done|]. by intros.
  - intros episodes g m' Hf.
    assert (wp (n_step_sarsa env alpha gamma epsilon n_steps max_steps_per_episode
                  episodes fuel)
              (fun _ _ => True) (fun _ => True) never (boot g)) as Hwp.
    { unfold n_step_sarsa. apply wp_bind.
      eapply wp_mono;
        [| | |apply (LearnerFacts.episodes_loop_inv (fun _ => True) (fun _ => True) never)];
        simpl; [|done|tauto| |done].
      - intros history m1 _. unfold wp, finish, derive_policy. by case_decide.
      - intros m1 _. apply wp_bind.
        eapply wp_mono; [| | |apply (Hep m1)]; simpl; [|done|done].
        intros r m2 _. by apply wp_ret. }
    unfold wp in Hwp. by rewrite Hf in Hwp.
Qed.

End Episode.

(** One episode of 2-step SARSA on [cliffwalk1]. *)
Lemma drain_updates_every_entry_witness :
  ∃ total_reward m',
    n_step_episode Examples.env1 (Q2Qc (1 # 2)) 1%Qc (Q2Qc (1 # 10)) 2 50 50
      (boot Examples.to_the_goal) = Val (total_reward, []) m' ∧
    ∃ U' S', update_log (events m') = U' ∧ step_log (events m') = S' ∧
             update_key <$> U' = step_key <$> S' ∧ length S' = 4%nat.
Proof.
  assert (match n_step_episode Examples.env1 (Q2Qc (1 # 2)) 1%Qc (Q2Qc (1 # 10)) 2 50 50
                  (boot Examples.to_the_goal) with
          | Val _ m' => Nat.eqb (length (step_log (events m'))) 4
          | _ => false
          end = true) as Hrun.
  { vm_compute. reflexivity. }
  destruct (n_step_episode _ _ _ _ _ _ _ _) as [[total_reward trajectory] m'| |] eqn:E;
    [|done..].
  apply Nat.eqb_eq in Hrun.
  destruct (drain_updates_every_entry Examples.env1 (Q2Qc (1 # 2)) 1%Qc (Q2Qc (1 # 10))
              2 50 50 (boot Examples.to_the_goal)) as (_ & _ & Hep); [simpl; lia|].
  destruct (Hep _ _ _ E) as (-> & U' & S' & HU & HS & Hk).
  exists total_reward, m'. split; [reflexivity|].
  exists U', S'. simpl in HU, HS. rewrite HU, HS. split_and!; [done|done|done|].
  by rewrite <- HS.
Defined.

(** A run of 2-step SARSA on [cliffwalk1] with a cap of three steps. *)
Lemma n_step_episode_terminates_witness :
  (∀ m', n_step_episode Examples.env1 (Q2Qc (1 # 2)) 1%Qc (Q2Qc (1 # 10)) 2 3 3
           (boot Examples.to_the_goal) ≠ Fuel m') ∧
  (∃ S', step_log (events (final (n_step_episode Examples.env1 (Q2Qc (1 # 2)) 1%Qc
                                    (Q2Qc (1 # 10)) 2 3 3 (boot Examples.to_the_goal))))
         = S' ∧ (length S' ≤ 3)%nat ∧ stops_at_terminal S') ∧
  (∀ episodes g m',
     n_step_sarsa Examples.env1 (Q2Qc (1 # 2)) 1%Qc (Q2Qc (1 # 10)) 2 3
       episodes 3 (boot g) ≠ Fuel m').
Proof.
  destruct (n_step_episode_terminates Examples.env1 (Q2Qc (1 # 2)) 1%Qc (Q2Qc (1 # 10))
              2 3 3 (boot Examples.to_the_goal)) as (H1 & (S' & HS & Hlen & Hstop & _) & H3);
    [simpl; lia|].
  split_and!; [exact H1| |exact H3].
  exists S'. simpl in HS. split_and!; [exact HS|exact Hlen|exact Hstop].
Defined.

End NStepFacts.

(** ** One-step n-step SARSA against SARSA *)

Module EquivalenceFacts.

Import PyFacts DictFacts Homework1Facts Homework2 Logic Spec MachineFacts NStepFacts.

Section Tracking.

Variable env : Env.

Notation top := (fun _ : Machine => True).

Lemma tracks_rng U S R g m : tracks env U S R m → tracks env U S R (set_rng g m).
Proof. done. Qed.

Lemma row_at_touch_any s s' m : row_at env s (touch env s' m) = row_at env s m.
Proof.
  destruct (decide (s = s')) as [->|Hne]; [apply row_at_touch|].
  unfold row_at. by rewrite touch_lookup_ne.
Qed.

Lemma tracks_touch U S R s m : tracks env U S R m → tracks env U S R (touch env s m).
Proof.
  intros [Hl HR]. split; [by apply logged_touch|].
  intros s'. by rewrite row_at_touch_any.
Qed.

Lemma tracks_choose_event U S R s m :
  tracks env U S R m → tracks env U S R (add_event (Choose s) m).
Proof. intros [Hl HR]. split; [by apply logged_choose_event|done]. Qed.

Lemma tracks_step U S R s a s' r d m :
  tracks env U S R m →
  tracks env U (S ++ [(s, a, s', r, d)]) R (add_event (Step s a s' r d) m).
Proof. intros [Hl HR]. split; [by apply logged_step|done]. Qed.

Lemma tracks_write U S R s a v m :
  tracks env U S R m →
  tracks env (U ++ [(s, a, v)]) S (set_row R s a v) (write env s a v m).
Proof.
  intros [Hl HR]. split; [by apply logged_write|].
  intros s'. unfold set_row, row_at. simpl. case_decide as Hs.
  - subst s'. rewrite lookup_insert_eq. simpl. by rewrite <- HR.
  - rewrite lookup_insert_ne by done. apply HR.
Qed.

Lemma track_choose U S R state actions epsilon (Q : Action → Machine → Prop) m :
  tracks env U S R m → (∀ a m', tracks env U S R m' → Q a m') →
  wp (choose_action_e_greedy env state actions epsilon) Q top top m.
Proof.
  intros Hm HQ. apply wp_choose; try done; intros a g _; apply HQ;
    auto using tracks_rng, tracks_touch, tracks_choose_event.
Qed.

Lemma track_env_step U S R state action (Q : State * Qc * bool → Machine → Prop) m :
  tracks env U S R m →
  (∀ next_state reward d m',
     step env state action = Return (next_state, reward, d) →
     tracks env U (S ++ [(state, action, next_state, reward, d)]) R m' →
     Q (next_state, reward, d) m') →
  wp (env_step env state action) Q top top m.
Proof.
  intros Hm HQ. apply wp_env_step.
  destruct (step env state action) as [[[next_state reward] d]|] eqn:Hs; [|done].
  apply HQ; [done|]. by apply tracks_step.
Qed.

Lemma track_row_of U S R state (Q : adict → Machine → Prop) m :
  tracks env U S R m → (∀ m', tracks env U S R m' → Q (R state) m') →
  wp (row_of env state) Q top top m.
Proof.
  intros Hm HQ. apply wp_row_of. rewrite (proj2 Hm state).
  by apply HQ, tracks_touch.
Qed.

Lemma track_q_get U S R state action (Q : Qc → Machine → Prop) m :
  tracks env U S R m →
  (∀ x m', adict_get (R state) action = Some x → tracks env U S R m' → Q x m') →
  wp (q_get env state action) Q top top m.
Proof.
  intros Hm HQ. apply wp_q_get. rewrite (proj2 Hm state).
  destruct (adict_get _ _) eqn:Hg; [|done]. apply HQ; [done|]. by apply tracks_touch.
Qed.

Lemma track_q_set U S R state action value (Q : unit → Machine → Prop) m :
  tracks env U S R m →
  (∀ m', tracks env (U ++ [(state, action, value)]) S (set_row R state action value) m' →
         Q tt m') →
  wp (q_set env state action value) Q top top m.
Proof. intros Hm HQ. by apply wp_q_set, HQ, tracks_write. Qed.

Lemma track_lift {A : Type} (o : outcome A) (Q : A → Machine → Prop) m :
  (∀ a, o = Ok a → Q a m) → wp (lift o) Q top top m.
Proof. intros HQ. apply wp_lift. destruct o; auto. Qed.

End Tracking.

Section Replay.

Variable env : Env.
Hypothesis Henv : episodic env.
Variables alpha gamma epsilon : Qc.
Variable max_steps_per_episode : Z.

Notation top := (fun _ : Machine => True).
Notation zero := (zero_row (action_keys env)).

Lemma zero_row_get a x : adict_get zero a = Some x → x = 0%Qc.
Proof.
  intros Hg. pose proof (zero_row_zero (action_keys env)) as Hz.
  apply adict_get_elem in Hg; [|apply zero_row_NoDup].
  unfold all_zero in Hz. rewrite Forall_forall in Hz. apply (Hz _ Hg).
Qed.

Lemma set_row_ne (R : State → adict) s a v s' : s' ≠ s → set_row R s a v s' = R s'.
Proof. intros Hne. unfold set_row. by case_decide. Qed.

Lemma apply_updates_app (R : State → adict) U U' :
  apply_updates R (U ++ U') = apply_updates (apply_updates R U) U'.
Proof. apply foldl_app. Qed.

(** What a whole [while not done] loop of [sarsa] logs. *)
Definition sarsa_loop_post (state : State) (action : Action)
    (U : list (State * Action * Qc))
    (S : list (State * Action * State * Qc * bool)) (R : State → adict)
    (m' : Machine) : Prop :=
  ∃ S',
    tracks env (U ++ sarsa_updates alpha gamma R S') (S ++ S')
      (apply_updates R (sarsa_updates alpha gamma R S')) m' ∧
    ends_terminal S' ∧
    (∃ x rest, S' = x :: rest ∧ step_key x = (state, action)) ∧
    apply_updates R (sarsa_updates alpha gamma R S') (goal_pos env) = zero.

Lemma sarsa_loop_replay fuel state action total_reward U S R m :
  state ≠ goal_pos env → R (goal_pos env) = zero → tracks env U S R m →
  wp (sarsa_loop env alpha gamma epsilon fuel state action total_reward)
     (fun _ => sarsa_loop_post state action U S R) top top m.
Proof.
  revert state action total_reward U S R m.
  induction fuel as [|fuel IH]; intros state action total_reward U S R m Hs HR Hm;
    simpl; [done|].
  apply wp_bind; eapply track_env_step; [exact Hm|].
  intros next_state reward d m1 Hstep Hm1. simpl.
  apply wp_bind; eapply track_choose; [exact Hm1|]. intros next_action m2 Hm2.
  apply wp_bind; eapply track_q_get; [exact Hm2|]. intros old_value m3 Hold Hm3.
  apply wp_bind; eapply track_q_get; [exact Hm3|]. intros next_value m4 Hnext Hm4.
  apply wp_bind; eapply track_q_set; [exact Hm4|]. intros m5 Hm5.
  set (x := (state, action, next_state, reward, d)) in *.
  destruct d.
  - apply wp_ret. exists [x].
    assert (next_state = goal_pos env) as ->
      by by apply (done_iff_goal env Henv _ _ _ _ _ Hstep).
    rewrite HR in Hnext. apply zero_row_get in Hnext as ->.
    simpl. rewrite Hold. simpl. split_and!.
    + done.
    + by exists x.
    + by exists x, [].
    + by rewrite set_row_ne by done.
  - assert (next_state ≠ goal_pos env) as Hns.
    { intros Hg. by apply (done_iff_goal env Henv _ _ _ _ _ Hstep) in Hg. }
    assert (set_row R state action
              (old_value + alpha * (reward + gamma * next_value - old_value))%Qc
              (goal_pos env) = zero) as HR'.
    { by rewrite set_row_ne by done. }
    eapply wp_mono; [| | |apply (IH _ _ _ _ _ _ _ Hns HR' Hm5)]; simpl; [|done|done].
    intros _ m6 (S' & Hm6 & Hend & (x' & rest & -> & Hkey) & Hzero).
    destruct x' as [[[[s1 a1] s1'] r1] d1]. injection Hkey as -> ->.
    exists (x :: (next_state, next_action, s1', r1, d1) :: rest).
    assert (sarsa_updates alpha gamma R
              (x :: (next_state, next_action, s1', r1, d1) :: rest)
            = (state, action,
               (old_value + alpha * (reward + gamma * next_value - old_value))%Qc)
              :: sarsa_updates alpha gamma
                   (set_row R state action
                      (old_value + alpha * (reward + gamma * next_value - old_value))%Qc)
                   ((next_state, next_action, s1', r1, d1) :: rest)) as Heq.
    { cbn [sarsa_updates x]. by rewrite Hold, Hnext. }
    rewrite Heq. rewrite <- !app_assoc in Hm6. simpl in Hm6.
    split_and!; [done| |by eauto|done].
    destruct Hend as (y & Hy & Hd). exists y. split; [|done].
    by rewrite last_cons, Hy.
Qed.

Lemma n_step_loop_done fuel state action step_counter total_reward trajectory n :
  n_step_loop env alpha gamma epsilon n max_steps_per_episode fuel state action true
    step_counter total_reward trajectory
  = mret (total_reward, trajectory).
Proof. by destruct fuel. Qed.

(** What the main loop of 1-step SARSA logs when entered with an empty
    buffer. *)
Definition one_step_loop_post (state : State) (action : Action)
    (U : list (State * Action * Qc))
    (S : list (State * Action * State * Qc * bool)) (R : State → adict)
    (r : Qc * deque) (m' : Machine) : Prop :=
  ∃ U' S',
    tracks env (U ++ U') (S ++ S') (apply_updates R U') m' ∧
    r.2 = [] ∧
    (S' ≠ [] → ∃ x rest, S' = x :: rest ∧ step_key x = (state, action)) ∧
    (ends_terminal S' → U' = sarsa_updates alpha gamma R S').

Lemma one_step_loop_replay fuel state action step_counter total_reward U S R m :
  tracks env U S R m →
  wp (n_step_loop env alpha gamma epsilon 1 max_steps_per_episode fuel state
        (Some action) false step_counter total_reward [])
     (one_step_loop_post state action U S R) top top m.
Proof.
  revert state action step_counter total_reward U S R m.
  induction fuel as [|fuel IH]; intros state action step_counter total_reward U S R m Hm;
    simpl; (destruct (step_counter <? max_steps_per_episode)%Z; [|
      apply wp_ret; exists [], []; rewrite !app_nil_r;
      split_and!; [done|done|done|by intros (? & [=] & _)]]).
  - done.
  - apply wp_bind, wp_ret.
    apply wp_bind; eapply track_env_step; [exact Hm|].
    intros next_state reward d m1 Hstep Hm1. cbn beta iota.
    set (x := (state, action, next_state, reward, d)) in *.
    destruct d; cbn [negb].
    + (* the step is terminal *)
      apply wp_bind, wp_ret. apply wp_bind. unfold n_step_update. simpl.
      apply wp_bind, wp_ret. apply wp_bind, wp_ret.
      apply wp_bind; eapply track_q_get; [exact Hm1|]. intros old_value m3 Hold Hm3.
      apply wp_bind; eapply track_q_set; [exact Hm3|]. intros m4 Hm4.
      apply wp_ret. rewrite n_step_loop_done. apply wp_ret.
      eexists [_], [x]. split_and!; [exact Hm4|done|by eauto|].
      intros _. simpl. rewrite Hold. simpl. do 3 f_equal. ring.
    + (* the episode goes on *)
      apply wp_bind, wp_bind; eapply track_choose; [exact Hm1|].
      intros next_action m2 Hm2. apply wp_ret.
      apply wp_bind. unfold n_step_update. simpl.
      apply wp_bind, wp_ret. apply wp_bind.
      apply wp_bind, wp_ret.
      apply wp_bind; eapply track_row_of; [exact Hm2|]. intros m3 Hm3.
      apply wp_bind, track_lift. intros q Hq. apply wp_ret.
      apply wp_bind; eapply track_q_get; [exact Hm3|]. intros old_value m4 Hold Hm4.
      apply wp_bind; eapply track_q_set; [exact Hm4|]. intros m5 Hm5.
      apply wp_ret.
      eapply wp_mono; [| | |apply (IH _ _ _ _ _ _ _ _ Hm5)]; simpl; [|done|done].
      intros r m6 (U' & S' & Hm6 & Hr & Hhead & Hrep).
      eexists (_ :: U'), (x :: S'). rewrite <- !app_assoc in Hm6.
      split_and!; [exact Hm6|done|by eauto|].
      intros (y & Hy & Hd).
      destruct S' as [|x' rest]; [by injection Hy as <-|].
      destruct (Hhead ltac:(done)) as (x'' & rest' & [= <- <-] & Hkey).
      destruct x' as [[[[s1 a1] s1'] r1] d1]. injection Hkey as -> ->.
      rewrite last_cons_cons in Hy.
      assert (ends_terminal ((next_state, next_action, s1', r1, d1) :: rest)) as Hend.
      { by exists y. }
      apply adict_getitem_Ok in Hq.
      cbn [sarsa_updates x]. rewrite Hold, Hq. simpl.
      assert (∀ a b : Qc, a = b → ∀ l l' : list (State * Action * Qc),
                l = l' → (state, action, a) :: l = (state, action, b) :: l') as Hcong
        by (by intros ? ? -> ? ? ->).
      apply Hcong; [ring|]. rewrite (Hrep Hend).
      replace (old_value + alpha * (0 + 1 * reward + gamma * 1 * q - old_value))%Qc
        with (old_value + alpha * (reward + gamma * q - old_value))%Qc by ring.
      done.
Qed.

Lemma drain_nil fuel : drain env alpha gamma fuel [] = mret [].
Proof. by destruct fuel. Qed.

Lemma goal_row_zero_row_at m :
  goal_row_zero env (q_table m) ↔ row_at env (goal_pos env) m = zero.
Proof.
  unfold goal_row_zero, row_at. destruct (q_table m !! goal_pos env) as [row|]; simpl.
  - split; [intros H; by apply H|]. by intros -> ? [= <-].
  - split; [done|]. by intros _ ? [=].
Qed.

(** Claim C2.  Take an episode of [sarsa] and an episode of
    [n_step_sarsa] with [n_steps = 1], both run to their end in an
    episodic environment, from tables that read the same at every state
    and hold zeros for the goal.  If the two episodes make the same steps
    [S'], the same states, actions, rewards and next states in the same
    order, then they make the same assignments [U'] to their tables, with
    the same values in the same order: the SARSA updates along [S'].  Their
    tables still read the same afterwards. *)
Theorem one_step_sarsa_is_sarsa fuel1 fuel2 m1 m2 r1 m1' r2 m2' S' :
  (∀ s, row_at env s m1 = row_at env s m2) →
  goal_row_zero env (q_table m1) →
  sarsa_episode env alpha gamma epsilon fuel1 m1 = Val r1 m1' →
  n_step_episode env alpha gamma epsilon 1 max_steps_per_episode fuel2 m2
  = Val r2 m2' →
  step_log (events m1') = step_log (events m1) ++ S' →
  step_log (events m2') = step_log (events m2) ++ S' →
  ∃ U',
    update_log (events m1') = update_log (events m1) ++ U' ∧
    update_log (events m2') = update_log (events m2) ++ U' ∧
    U' = sarsa_updates alpha gamma (fun s => row_at env s m1) S' ∧
    (∀ s, row_at env s m1' = row_at env s m2') ∧
    goal_row_zero env (q_table m1').
Proof.
  intros Hagree Hzero Hrun1 Hrun2 Hlog1 Hlog2.
  set (R := fun s => row_at env s m1).
  assert (R (goal_pos env) = zero) as HR by by apply goal_row_zero_row_at.
  (* the episode of sarsa *)
  assert (wp (sarsa_episode env alpha gamma epsilon fuel1)
            (fun _ m' => ∃ action, sarsa_loop_post (start_pos env) action
                                     (update_log (events m1)) (step_log (events m1)) R m')
            top top m1) as Hwp1.
  { unfold sarsa_episode.
    apply wp_bind; eapply (track_choose env _ _ R); [by split|].
    intros action m Hm.
    eapply wp_mono; [| | |apply sarsa_loop_replay; [apply Henv|exact HR|exact Hm]];
      simpl; [|done|done].
    intros _ m' Hpost. by exists action. }
  unfold wp in Hwp1. rewrite Hrun1 in Hwp1.
  destruct Hwp1 as (action1 & S1 & [[HU1 HS1] HR1] & Hend & _ & Hz1).
  rewrite HS1 in Hlog1. apply app_inv_head in Hlog1 as ->.
  (* the episode of 1-step sarsa *)
  assert (wp (n_step_episode env alpha gamma epsilon 1 max_steps_per_episode fuel2)
            (fun _ m' => ∃ action, ∃ r, one_step_loop_post (start_pos env) action
                                     (update_log (events m2)) (step_log (events m2)) R r m')
            top top m2) as Hwp2.
  { unfold n_step_episode.
    apply wp_bind; eapply (track_choose env _ _ R);
      [split; [by split|intros s; symmetry; apply Hagree]|].
    intros action m Hm. apply wp_bind.
    eapply wp_mono; [| | |apply one_step_loop_replay; exact Hm]; simpl; [|done|done].
    intros [total_reward trajectory] m' Hpost.
    pose proof Hpost as (_ & _ & _ & Ht & _). simpl in Ht. subst trajectory.
    rewrite drain_nil. apply wp_bind, wp_ret, wp_ret. by exists action, (total_reward, []). }
  unfold wp in Hwp2. rewrite Hrun2 in Hwp2.
  destruct Hwp2 as (action2 & r & U2 & S2 & [[HU2 HS2] HR2] & _ & _ & Hrep).
  rewrite HS2 in Hlog2. apply app_inv_head in Hlog2 as ->.
  specialize (Hrep Hend). subst U2.
  exists (sarsa_updates alpha gamma R S'). split_and!; [done|done|done| |].
  - intros s. by rewrite HR1, HR2.
  - apply goal_row_zero_row_at. by rewrite HR1.
Qed.

End Replay.

(** The walk east, south, south, east on [cliffwalk1], by both learners
    from the empty table. *)
Lemma one_step_sarsa_is_sarsa_witness :
  ∃ r1 m1' r2 m2' U',
    sarsa_episode Examples.env1 (Q2Qc (1 # 2)) 1%Qc (Q2Qc (1 # 10)) 50
      (boot Examples.to_the_goal) = Val r1 m1' ∧
    n_step_episode Examples.env1 (Q2Qc (1 # 2)) 1%Qc (Q2Qc (1 # 10)) 1 50 50
      (boot Examples.to_the_goal) = Val r2 m2' ∧
    step_log (events m1') = step_log (events m2') ∧
    update_log (events m1') = U' ∧
    update_log (events m2') = U' ∧
    length U' = 4%nat.
Proof.
  assert (match sarsa_episode Examples.env1 (Q2Qc (1 # 2)) 1%Qc (Q2Qc (1 # 10)) 50
                  (boot Examples.to_the_goal),
                n_step_episode Examples.env1 (Q2Qc (1 # 2)) 1%Qc (Q2Qc (1 # 10)) 1 50 50
                  (boot Examples.to_the_goal) with
          | Val _ m1', Val _ m2' =>
              bool_decide (step_log (events m1') = step_log (events m2'))
              && Nat.eqb (length (step_log (events m1'))) 4
          | _, _ => false
          end = true) as Hrun.
  { vm_compute. reflexivity. }
  destruct (sarsa_episode _ _ _ _ _ _) as [r1 m1'| |] eqn:E1; [|done..].
  destruct (n_step_episode _ _ _ _ _ _ _ _) as [r2 m2'| |] eqn:E2; [|done..].
  apply andb_true_iff in Hrun as [Hsame%bool_decide_eq_true Hlen%Nat.eqb_eq].
  destruct (one_step_sarsa_is_sarsa Examples.env1 CliffWalkFacts.env1_episodic
              (Q2Qc (1 # 2)) 1%Qc (Q2Qc (1 # 10)) 50 50 50
              (boot Examples.to_the_goal) (boot Examples.to_the_goal)
              r1 m1' r2 m2' (step_log (events m1')))
    as (U' & HU1 & HU2 & HU' & _); [done| |exact E1|exact E2|done|by rewrite Hsame|].
  { intros row Hrow. simpl in Hrow. by rewrite lookup_empty in Hrow. }
  exists r1, m1', r2, m2', U'. simpl in HU1, HU2.
  split_and!; [reflexivity|reflexivity|exact Hsame|exact HU1|exact HU2|].
  assert (length (update_log (events m1')) = length (step_log (events m1'))) as Hl.
  { rewrite HU1, HU'. clear. generalize (fun s => row_at Examples.env1 s (boot Examples.to_the_goal)).
    induction (step_log (events m1')) as [|[[[[s a] s'] r] d] l IH]; intros R; [done|].
    simpl. f_equal. apply IH. }
  by rewrite <- HU1, Hl.
Defined.

End EquivalenceFacts.

(** ** More on the dynamic-programming solvers *)

Module SolverFacts.

Import PyFacts DictFacts Homework1 Spec Props Homework1Facts.

Lemma pymax2_l (a b : Qc) : (a <= pymax2 a b)%Qc.
Proof.
  unfold pymax2. destruct (Qcltb a b) eqn:E; [|apply Qcle_refl].
  apply Qcltb_lt in E. by apply Qclt_le_weak.
Qed.

Lemma pymax2_r (a b : Qc) : (b <= pymax2 a b)%Qc.
Proof.
  unfold pymax2. destruct (Qcltb a b) eqn:E; [apply Qcle_refl|].
  by apply Qcltb_ge in E.
Qed.

Section Solvers.

Variable env : Env.
Variable gamma : Qc.

(** *** The last sweep of value iteration *)

(** [delta] only grows along a sweep and ends no smaller than the change
    of any state the sweep has backed up. *)
Lemma vi_sweep_delta v_old_iter ss v policy delta v' policy' delta' :
  vi_sweep env gamma v_old_iter ss v policy delta = Ok (v', policy', delta') →
  (delta <= delta')%Qc ∧
  ∀ s, s ∈ ss → s ≠ goal_pos env →
       ∃ x y, v_old_iter !! s = Some x ∧ v' !! s = Some y ∧
              (Qcabs (x - y) <= delta')%Qc.
Proof.
  revert v policy delta.
  induction ss as [|s0 ss IH]; intros v policy delta H; simpl in H.
  - injection H as <- <- <-. split; [apply Qcle_refl|by intros ? ?%elem_of_nil].
  - case_decide as Hg.
    + destruct (IH _ _ _ H) as [H1 H2]. split; [done|].
      intros s [->|Hin]%elem_of_cons Hne; [done|by apply H2].
    + unbind H as v_old Ev. apply getitem_Ok in Ev.
      unbind H as action_values E0. unbind H as best_action E1.
      unbind H as q E2. unbind H as v_s E3.
      apply getitem_Ok in E3. rewrite lookup_insert_eq in E3. injection E3 as <-.
      destruct (IH _ _ _ H) as [H1 H2].
      pose proof (vi_sweep_spec env gamma _ _ _ _ _ _ _ _ H) as [_ Hkeep].
      split; [etrans; [apply pymax2_l|exact H1]|].
      intros s Hin Hne. destruct (decide (s ∈ ss)) as [Hin'|Hnin]; [by apply H2|].
      apply elem_of_cons in Hin as [->|?]; [|done].
      exists v_old, q. split_and!; [done| |].
      * destruct (Hkeep s0) as [-> _]; [by left|]. apply lookup_insert_eq.
      * etrans; [apply pymax2_r|exact H1].
Qed.

(** A run that returns has ended with a sweep whose [delta] is below
    [theta]; the history ends with the table before that sweep and the
    table after it. *)
Lemma vi_loop_last fuel theta V policy history v policy' history' :
  vi_loop env gamma fuel theta V policy history = Ok (v, policy', history') →
  last history = Some V →
  ∃ front V_prev policy_prev delta,
    history' = front ++ [V_prev; v] ∧
    vi_sweep env gamma V_prev (states env) V_prev policy_prev 0%Qc
    = Ok (v, policy', delta) ∧
    (delta < theta)%Qc.
Proof.
  revert V policy history.
  induction fuel as [|fuel IH]; intros V policy history H Hlast; [done|].
  simpl in H. unbind H as [[V1 policy1] delta] E.
  destruct (Qcltb delta theta) eqn:Hlt.
  - injection H as <- <- <-. apply last_Some in Hlast as [front ->].
    exists front, V, policy, delta. rewrite <- app_assoc. simpl.
    split_and!; [done|done|by apply Qcltb_lt].
  - apply (IH _ _ _ H). by rewrite last_snoc.
Qed.

(** When [value_iteration] returns, the tolerance is positive and the last
    sweep has changed the value of every non-goal state by less than
    [theta].  The returned policy is greedy for the table before that last
    sweep (the last but one of the history), and the returned value of a
    state is the action value of its policy action against that table. *)
Theorem value_iteration_last_sweep theta fuel v policy history :
  value_iteration env gamma theta fuel = Ok (v, policy, history) →
  (0 < theta)%Qc ∧
  ∃ front V_prev,
    history = front ++ [V_prev; v] ∧
    ∀ s, s ∈ states env → s ≠ goal_pos env →
         ∃ a x y, V_prev !! s = Some x ∧ v !! s = Some y ∧
                  (Qcabs (x - y) < theta)%Qc ∧
                  policy !! s = Some a ∧
                  greedy_action env gamma V_prev s a ∧
                  Homework1.q_value env gamma V_prev s a = Ok y.
Proof.
  unfold value_iteration. intros H.
  apply vi_loop_last in H as (front & V_prev & policy_prev & delta & -> & Hs & Hlt);
    [|done].
  pose proof (vi_sweep_delta _ _ _ _ _ _ _ _ Hs) as [H0 Hd].
  pose proof (vi_sweep_spec env gamma _ _ _ _ _ _ _ _ Hs) as [Hv _].
  split; [by eapply Qcle_lt_trans|].
  exists front, V_prev. split; [done|].
  intros s Hin Hne.
  destruct (Hd s Hin Hne) as (x & y & Hx & Hy & Hxy).
  destruct (Hv s Hin Hne) as (a & m & Hm & Hp & Hq & Ha & Hmax).
  assert (m = y) as -> by congruence.
  exists a, x, y. split_and!; [done|done|by eapply Qcle_lt_trans|done| |done].
  split; [done|]. by exists y.
Qed.

(** *** The keys of the tables *)

Lemma fold_insert_lookup {V : Type} (x : V) (ss : list State) (d : gmap State V) s :
  fold_left (fun d s => <[s := x]> d) ss d !! s
  = if decide (s ∈ ss) then Some x else d !! s.
Proof.
  revert d. induction ss as [|s0 ss IH]; intros d; cbn [fold_left].
  - destruct (decide (s ∈ [])) as [H|H]; [by apply elem_of_nil in H|done].
  - rewrite IH. destruct (decide (s ∈ ss)) as [Hin|Hnin].
    + rewrite decide_True by by right. done.
    + destruct (decide (s = s0)) as [->|Hne].
      * rewrite decide_True by by left. apply lookup_insert_eq.
      * rewrite decide_False by (by intros [?|?]%elem_of_cons).
        by rewrite lookup_insert_ne.
Qed.

Lemma dict_from_states_lookup {V : Type} (x : V) s :
  dict_from_states env x !! s = if decide (s ∈ states env) then Some x else None.
Proof. unfold dict_from_states. by rewrite fold_insert_lookup, lookup_empty. Qed.

Lemma dict_from_states_keyed {V : Type} (x : V) :
  keyed_by_states env x (dict_from_states env x).
Proof.
  split.
  - apply set_eq. intros s.
    rewrite elem_of_dom, dict_from_states_lookup, elem_of_list_to_set.
    case_decide as H; split; intros H'; [done|by eauto|by destruct H' as [? ?]|done].
  - intros Hin. rewrite dict_from_states_lookup. by rewrite decide_True.
Qed.

(** A loop over the states that assigns to non-goal states of [ss] only,
    and to all of them, keeps the keys and the goal entry of a table keyed
    by the states. *)
Lemma keyed_by_states_sweep {V : Type} (x : V) (ss : list State) (T T' : gmap State V) :
  ss ⊆ states env →
  (∀ s, s ∈ ss → s ≠ goal_pos env → is_Some (T' !! s)) →
  (∀ s, s ∉ ss ∨ s = goal_pos env → T' !! s = T !! s) →
  keyed_by_states env x T → keyed_by_states env x T'.
Proof.
  intros Hss Hin Hout [Hdom Hgoal]. split.
  - rewrite <- Hdom. apply set_eq. intros s. rewrite !elem_of_dom.
    destruct (decide (s ∈ ss ∧ s ≠ goal_pos env)) as [[H1 H2]|Hn].
    + split; [|by auto]. intros _. apply elem_of_dom. rewrite Hdom.
      apply elem_of_list_to_set. by apply Hss.
    + rewrite Hout; [done|]. apply not_and_l in Hn as [?|Hn]; [by left|].
      right. by destruct (decide (s = goal_pos env)).
  - intros Hg. rewrite Hout by by right. by apply Hgoal.
Qed.

Lemma vi_loop_keyed fuel theta V policy history v policy' history' :
  vi_loop env gamma fuel theta V policy history = Ok (v, policy', history') →
  keyed_by_states env 0%Qc V →
  keyed_by_states env EmptyString policy →
  Forall (keyed_by_states env 0%Qc) history →
  Forall (keyed_by_states env 0%Qc) history' ∧
  keyed_by_states env EmptyString policy'.
Proof.
  revert V policy history.
  induction fuel as [|fuel IH]; intros V policy history H HV Hp Hh; [done|].
  simpl in H. unbind H as [[V1 policy1] delta] E.
  apply vi_sweep_spec in E as [Hin Hout].
  assert (keyed_by_states env 0%Qc V1) as HV1.
  { apply (keyed_by_states_sweep _ (states env) V); [done| | |done].
    - intros s Hs Hne. destruct (Hin s Hs Hne) as (a & m & -> & _). by eauto.
    - intros s Hs. by apply Hout. }
  assert (keyed_by_states env EmptyString policy1) as Hp1.
  { apply (keyed_by_states_sweep _ (states env) policy); [done| | |done].
    - intros s Hs Hne. destruct (Hin s Hs Hne) as (a & m & _ & -> & _). by eauto.
    - intros s Hs. by apply Hout. }
  assert (Forall (keyed_by_states env 0%Qc) (history ++ [V1])) as Hh1.
  { apply Forall_app. split; [done|]. by constructor. }
  destruct (Qcltb delta theta).
  - by injection H as <- <- <-.
  - by apply (IH _ _ _ H).
Qed.

(** Value iteration neither adds nor loses a key: every table of the
    history, the returned one among them, has exactly the states of
    [env.states] as keys and still holds [0] for the goal, and the returned
    policy has the same keys and still holds the empty string for the
    goal. *)
Theorem value_iteration_keys theta fuel v policy history :
  value_iteration env gamma theta fuel = Ok (v, policy, history) →
  (∀ T, T ∈ history →
        dom T = list_to_set (states env) ∧
        (goal_pos env ∈ states env → T !! goal_pos env = Some 0%Qc)) ∧
  dom policy = list_to_set (states env) ∧
  (goal_pos env ∈ states env → policy !! goal_pos env = Some EmptyString).
Proof.
  unfold value_iteration. intros H.
  apply vi_loop_keyed in H as [Hh Hp].
  - split; [|exact Hp]. intros T HT. rewrite Forall_forall in Hh. by apply Hh.
  - apply dict_from_states_keyed.
  - apply dict_from_states_keyed.
  - constructor; [apply dict_from_states_keyed|constructor].
Qed.

End Solvers.

(** A run on the 3x3 layout [cliffwalk1]. *)
Lemma value_iteration_last_sweep_witness :
  ∃ v policy history front V_prev,
    value_iteration (CliffWalk.as_env CliffWalk.cliffwalk1)
      (Q2Qc (9 # 10)) (Q2Qc (1 # 1000000)) 20 = Ok (v, policy, history) ∧
    history = front ++ [V_prev; v] ∧
    ∀ s, s ∈ states (CliffWalk.as_env CliffWalk.cliffwalk1) →
         s ≠ goal_pos (CliffWalk.as_env CliffWalk.cliffwalk1) →
         ∃ a x y, V_prev !! s = Some x ∧ v !! s = Some y ∧
                  (Qcabs (x - y) < Q2Qc (1 # 1000000))%Qc ∧
                  policy !! s = Some a ∧
                  greedy_action (CliffWalk.as_env CliffWalk.cliffwalk1) (Q2Qc (9 # 10))
                    V_prev s a ∧
                  Homework1.q_value (CliffWalk.as_env CliffWalk.cliffwalk1)
                    (Q2Qc (9 # 10)) V_prev s a = Ok y.
Proof.
  assert (match value_iteration (CliffWalk.as_env CliffWalk.cliffwalk1)
                  (Q2Qc (9 # 10)) (Q2Qc (1 # 1000000)) 20
          with Ok _ => True | _ => False end) as Hok.
  { vm_compute. exact I. }
  destruct (value_iteration (CliffWalk.as_env CliffWalk.cliffwalk1)
              (Q2Qc (9 # 10)) (Q2Qc (1 # 1000000)) 20)
    as [[[v policy] history]| |] eqn:E; [|destruct Hok..].
  destruct (value_iteration_last_sweep _ _ _ _ _ _ _ E)
    as (_ & front & V_prev & Hh & Hs).
  exists v, policy, history, front, V_prev.
  split; [reflexivity|]. split; [exact Hh|exact Hs].
Defined.

Lemma value_iteration_keys_witness :
  ∃ v policy history,
    value_iteration (CliffWalk.as_env CliffWalk.cliffwalk1)
      (Q2Qc (9 # 10)) (Q2Qc (1 # 1000000)) 20 = Ok (v, policy, history) ∧
    (∀ T, T ∈ history → T !! (2, 2)%Z = Some 0%Qc) ∧
    dom policy = list_to_set (states (CliffWalk.as_env CliffWalk.cliffwalk1)) ∧
    policy !! (2, 2)%Z = Some EmptyString.
Proof.
  assert (match value_iteration (CliffWalk.as_env CliffWalk.cliffwalk1)
                  (Q2Qc (9 # 10)) (Q2Qc (1 # 1000000)) 20
          with Ok _ => True | _ => False end) as Hok.
  { vm_compute. exact I. }
  destruct (value_iteration (CliffWalk.as_env CliffWalk.cliffwalk1)
              (Q2Qc (9 # 10)) (Q2Qc (1 # 1000000)) 20)
    as [[[v policy] history]| |] eqn:E; [|destruct Hok..].
  destruct (value_iteration_keys _ _ _ _ _ _ _ E) as (Hh & Hd & Hg).
  exists v, policy, history. split; [reflexivity|].
  assert ((2, 2)%Z ∈ states (CliffWalk.as_env CliffWalk.cliffwalk1)) as Hin.
  { apply (bool_decide_unpack ((2, 2)%Z ∈ states (CliffWalk.as_env CliffWalk.cliffwalk1))).
    vm_compute. exact I. }
  split_and!; [|exact Hd|exact (Hg Hin)].
  intros T HT. exact (proj2 (Hh T HT) Hin).
Defined.

End SolverFacts.

(** ** More on the two policy iterations *)

Module PolicyFacts.

Import PyFacts DictFacts Homework1 Spec Props Homework1Facts SolverFacts.

(** *** [random.choice] *)

Lemma random_choice_elem {A : Type} (l : list A) g x g' :
  random_choice l g = (Ok x, g') → x ∈ l ∧ g' = advance g.
Proof.
  unfold random_choice.
  destruct (l !! _) as [y|] eqn:E; [|done].
  intros [= <- <-]. split; [|done]. by eapply list_elem_of_lookup_2.
Qed.

Lemma random_choice_Ok {A : Type} (l : list A) g :
  l ≠ [] → ∃ x, random_choice l g = (Ok x, advance g).
Proof.
  intros Hl. unfold random_choice.
  destruct (lookup_lt_is_Some_2 l (as_index (tape g (cursor g)) mod length l)) as [x ->].
  - apply Nat.mod_upper_bound. by destruct l.
  - by exists x.
Qed.

Lemma random_choice_nil {A : Type} g :
  random_choice (@nil A) g = (Raised IndexError, g).
Proof. done. Qed.

Section Solvers.

Variable env : Env.
Variable gamma : Qc.

(** *** The initial policy *)

Lemma random_policy_spec ss policy g policy' g' :
  random_policy env ss policy g = (Ok policy', g') →
  (∀ s, s ∈ ss → s ≠ goal_pos env →
        ∃ a, policy' !! s = Some a ∧ a ∈ action_keys env) ∧
  (∀ s, s ∉ ss ∨ s = goal_pos env → policy' !! s = policy !! s).
Proof.
  revert policy g.
  induction ss as [|s0 ss IH]; intros policy g H; simpl in H.
  - injection H as <- <-. split; [by intros ? ?%elem_of_nil|done].
  - case_decide as Hg.
    + destruct (IH _ _ H) as [H1 H2]. split.
      * intros s [->|Hin]%elem_of_cons Hne; [done|by apply H1].
      * intros s [[Hne Hnin]%not_elem_of_cons| ->]; apply H2; auto.
    + destruct (random_choice (action_keys env) g) as [[a| |] g1] eqn:E; [|done..].
      apply random_choice_elem in E as [Ha _].
      destruct (IH _ _ H) as [H1 H2]. split.
      * intros s Hin Hne. destruct (decide (s ∈ ss)) as [Hin'|Hnin]; [by apply H1|].
        apply elem_of_cons in Hin as [->|?]; [|done].
        exists a. rewrite H2 by auto. by rewrite lookup_insert_eq.
      * intros s Hs. destruct (decide (s = s0)) as [->|Hne].
        -- destruct Hs as [[? ?]%not_elem_of_cons|?]; done.
        -- rewrite H2; [by rewrite lookup_insert_ne|].
           destruct Hs as [[? ?]%not_elem_of_cons|?]; auto.
Qed.

Lemma random_policy_Ok ss policy g :
  action_keys env ≠ [] → ∃ policy' g', random_policy env ss policy g = (Ok policy', g').
Proof.
  intros Hk. revert policy g.
  induction ss as [|s0 ss IH]; intros policy g; simpl; [by eauto|].
  case_decide; [apply IH|].
  destruct (random_choice_Ok (action_keys env) g Hk) as [a ->]. apply IH.
Qed.

Lemma random_policy_goals ss policy g :
  (∀ s, s ∈ ss → s = goal_pos env) → random_policy env ss policy g = (Ok policy, g).
Proof.
  induction ss as [|s0 ss IH]; intros Hss; simpl; [done|].
  rewrite decide_True by (apply Hss; by left).
  apply IH. intros s Hs. apply Hss. by right.
Qed.

Lemma random_policy_IndexError ss policy g :
  action_keys env = [] → (∃ s, s ∈ ss ∧ s ≠ goal_pos env) →
  ∃ g', random_policy env ss policy g = (Raised IndexError, g').
Proof.
  intros Hk. induction ss as [|s0 ss IH]; intros (s & Hs & Hne); simpl.
  - by apply elem_of_nil in Hs.
  - case_decide as Hg.
    + apply IH. exists s. split; [|done].
      apply elem_of_cons in Hs as [->|?]; done.
    + rewrite Hk, random_choice_nil. by eauto.
Qed.

Lemma initial_policy_shape g policy :
  initial_policy env g = Ok policy → policy_shape env policy.
Proof.
  unfold initial_policy. intros H. unbind H as policy0 E. injection H as <-.
  destruct (random_policy env (states env) ∅ g) as [o g'] eqn:Er. simpl in E. subst o.
  apply random_policy_spec in Er as [H1 H2]. split_and!.
  - apply set_eq. intros s.
    rewrite elem_of_dom, elem_of_union, elem_of_singleton, elem_of_list_to_set.
    destruct (decide (s = goal_pos env)) as [->|Hne].
    + rewrite lookup_insert_eq. split; [by left|by eauto].
    + rewrite lookup_insert_ne by done. split.
      * intros [a Ha]. right. destruct (decide (s ∈ states env)) as [|Hn]; [done|].
        rewrite H2, lookup_empty in Ha by by left. done.
      * intros [?|Hin]; [done|]. destruct (H1 s Hin Hne) as (a & -> & _). by eauto.
  - apply lookup_insert_eq.
  - intros s Hin Hne. rewrite lookup_insert_ne by done. by apply H1.
Qed.

(** *** What a round keeps *)

Lemma keyed_by_states_same {V : Type} (x : V) (T T' : gmap State V) :
  dom T' = dom T → T' !! goal_pos env = T !! goal_pos env →
  keyed_by_states env x T → keyed_by_states env x T'.
Proof. intros Hd Hg [H1 H2]. split; [by rewrite Hd|]. rewrite Hg. done. Qed.

Lemma in_place_sweep_keeps policy ss V V' changes :
  in_place_sweep env gamma policy ss V V' changes →
  dom V' = dom V ∧ V' !! goal_pos env = V !! goal_pos env.
Proof.
  induction 1 as [V|ss V V' changes _ IH|s ss V V' changes a q v_old Hne Hv _ _ _ IH];
    [done|done|].
  destruct IH as [-> ->]. split.
  - apply dom_insert_lookup_L. by eauto.
  - by rewrite lookup_insert_ne.
Qed.

Lemma greatest_head (x : Qc) (l : list Qc) (m : Qc) : greatest (x :: l) m → (x <= m)%Qc.
Proof. intros [_ H]. by apply Forall_cons in H as [? _]. Qed.

Lemma evaluation_until_keeps theta policy V V' :
  evaluation_until env gamma theta policy V V' →
  dom V' = dom V ∧ V' !! goal_pos env = V !! goal_pos env ∧ (0 < theta)%Qc.
Proof.
  induction 1 as [V V' changes delta Hs Hg Hlt|V V1 V' changes delta Hs _ _ _ IH].
  - apply in_place_sweep_keeps in Hs as [? ?]. split_and!; [done|done|].
    eapply Qcle_lt_trans; [by eapply greatest_head|done].
  - apply in_place_sweep_keeps in Hs as [Hd Hg]. destruct IH as (-> & -> & ?). done.
Qed.

Lemma improvement_keeps v policy policy' :
  greedy_improvement env gamma v policy policy' →
  policy_shape env policy → policy_shape env policy'.
Proof.
  intros [Hin Hout] (Hdom & Hgoal & Hact). split_and!.
  - rewrite <- Hdom. apply set_eq. intros s. rewrite !elem_of_dom.
    destruct (decide (s ∈ states env ∧ s ≠ goal_pos env)) as [[H1 H2]|Hn].
    + destruct (Hin s H1 H2) as (a & -> & _). destruct (Hact s H1 H2) as (a' & -> & _).
      split; by eauto.
    + rewrite Hout; [done|]. apply not_and_l in Hn as [?|Hn]; [by left|].
      right. by destruct (decide (s = goal_pos env)).
  - rewrite Hout by by right. done.
  - intros s H1 H2. destruct (Hin s H1 H2) as (a & Ha & Hg & _). by eauto.
Qed.

(** *** [policy_iteration] *)

Lemma pi_loop_result fuel eval_fuel theta V policy history v policy' history' :
  pi_loop env gamma fuel eval_fuel theta V policy history = Ok (v, policy', history') →
  keyed_by_states env 0%Qc V →
  policy_shape env policy →
  Forall (keyed_by_states env 0%Qc) history →
  Forall (keyed_by_states env 0%Qc) history' ∧
  policy_shape env policy' ∧
  history `prefix_of` history' ∧
  (length history < length history')%nat ∧
  last history' = Some v ∧
  (0 < theta)%Qc.
Proof.
  revert V policy history.
  induction fuel as [|fuel IH]; intros V policy history H HV Hp Hh; [done|].
  simpl in H. unbind H as V1 Ev.
  apply pe_loop_spec, evaluation_until_keeps in Ev as (Hd & Hg & Htheta).
  pose proof (keyed_by_states_same _ _ _ Hd Hg HV) as HV1.
  unbind H as [policy1 stable] Ei.
  apply improve_sweep_improvement in Ei as [Hgi _].
  pose proof (improvement_keeps _ _ _ Hgi Hp) as Hp1.
  assert (Forall (keyed_by_states env 0%Qc) (history ++ [V1])) as Hh1.
  { apply Forall_app. split; [done|]. by constructor. }
  destruct stable.
  - injection H as <- <- <-.
    split_and!; [done|done|by apply prefix_app_r| |by rewrite last_snoc|done].
    rewrite length_app. simpl. lia.
  - destruct (IH _ _ _ H HV1 Hp1 Hh1) as (? & ? & Hpre & Hlen & ? & ?).
    split_and!; [done|done| | |done|done].
    + etrans; [|done]. by apply prefix_app_r.
    + rewrite length_app in Hlen. lia.
Qed.

(** When [policy_iteration] returns, the tolerance is positive; the
    history starts at the all-zero table, holds at least one more table
    and ends at the returned one; every table of the history has exactly
    the states of [env.states] as keys and holds [0] for the goal; the
    keys of the returned policy are the states and the goal, the goal
    still maps to the empty string and every other state to an action of
    [env.action_keys]. *)
Theorem policy_iteration_result theta g fuel eval_fuel v policy history :
  policy_iteration env gamma theta g fuel eval_fuel = Ok (v, policy, history) →
  (0 < theta)%Qc ∧
  head history = Some (dict_from_states env 0%Qc) ∧
  last history = Some v ∧
  (2 ≤ length history)%nat ∧
  Forall (keyed_by_states env 0%Qc) history ∧
  policy_shape env policy.
Proof.
  unfold policy_iteration. intros H. unbind H as policy0 E.
  apply initial_policy_shape in E.
  apply pi_loop_result in H as (Hh & Hp & [rest ->] & Hlen & Hlast & Htheta);
    [|apply dict_from_states_keyed|done|].
  - simpl in Hlen. split_and!; [done|done|done|simpl; lia|done|done].
  - constructor; [apply dict_from_states_keyed|constructor].
Qed.

(** *** [truncated_policy_iteration] *)

Lemma tpe_loop_keeps n policy V V' :
  tpe_loop env gamma n policy V = Ok V' →
  keyed_by_states env 0%Qc V → keyed_by_states env 0%Qc V'.
Proof.
  revert V. induction n as [|n IH]; intros V H HV; simpl in H.
  - by injection H as <-.
  - unbind H as V1 E. apply tpe_sweep_spec in E as [Hin Hout].
    apply (IH _ H).
    apply (keyed_by_states_sweep _ _ (states env) V); [done| |done|done].
    intros s Hs Hne. destruct (Hin s Hs Hne) as (a & q & _ & _ & ->). by eauto.
Qed.

Lemma tpi_loop_result fuel j_truncate V policy history v policy' history' :
  tpi_loop env gamma fuel j_truncate V policy history = Ok (v, policy', history') →
  keyed_by_states env 0%Qc V →
  policy_shape env policy →
  Forall (keyed_by_states env 0%Qc) history →
  Forall (keyed_by_states env 0%Qc) history' ∧
  policy_shape env policy' ∧
  history `prefix_of` history' ∧
  (length history < length history')%nat ∧
  last history' = Some v ∧
  ((j_truncate <= 0)%Z → v = V ∧ ∀ T, T ∈ history' → T ∈ history ∨ T = V).
Proof.
  revert V policy history.
  induction fuel as [|fuel IH]; intros V policy history H HV Hp Hh; [done|].
  simpl in H. unbind H as V1 Ev.
  pose proof (tpe_loop_keeps _ _ _ _ Ev HV) as HV1.
  assert ((j_truncate <= 0)%Z → V1 = V) as Hzero.
  { intros Hj. replace (Z.to_nat j_truncate) with 0%nat in Ev by lia.
    simpl in Ev. by injection Ev as <-. }
  unbind H as [policy1 stable] Ei.
  apply improve_sweep_improvement in Ei as [Hgi _].
  pose proof (improvement_keeps _ _ _ Hgi Hp) as Hp1.
  assert (Forall (keyed_by_states env 0%Qc) (history ++ [V1])) as Hh1.
  { apply Forall_app. split; [done|]. by constructor. }
  destruct stable.
  - injection H as <- <- <-.
    split_and!; [done|done|by apply prefix_app_r| |by rewrite last_snoc|].
    + rewrite length_app. simpl. lia.
    + intros Hj. rewrite (Hzero Hj). split; [done|].
      intros T [?| ->%list_elem_of_singleton]%elem_of_app; auto.
  - destruct (IH _ _ _ H HV1 Hp1 Hh1) as (? & ? & Hpre & Hlen & ? & Hz).
    split_and!; [done|done| | |done|].
    + etrans; [|done]. by apply prefix_app_r.
    + rewrite length_app in Hlen. lia.
    + intros Hj. destruct (Hz Hj) as [-> Hall]. rewrite (Hzero Hj). split; [done|].
      intros T HT. destruct (Hall T HT) as [[?| ->%list_elem_of_singleton]%elem_of_app| ->];
        rewrite ?(Hzero Hj); auto.
Qed.

(** When [truncated_policy_iteration] returns, the history starts at the
    all-zero table, holds at least one more table and ends at the returned
    one; every table of the history has exactly the states of [env.states]
    as keys and holds [0] for the goal; the keys of the returned policy are
    the states and the goal, the goal still maps to the empty string and
    every other state to an action of [env.action_keys].  With
    [j_truncate <= 0] no sweep is ever made: the returned table and every
    table of the history is the all-zero table. *)
Theorem truncated_policy_iteration_result j_truncate g fuel v policy history :
  truncated_policy_iteration env gamma j_truncate g fuel = Ok (v, policy, history) →
  head history = Some (dict_from_states env 0%Qc) ∧
  last history = Some v ∧
  (2 ≤ length history)%nat ∧
  Forall (keyed_by_states env 0%Qc) history ∧
  policy_shape env policy ∧
  ((j_truncate <= 0)%Z →
   v = dict_from_states env 0%Qc ∧
   ∀ T, T ∈ history → T = dict_from_states env 0%Qc).
Proof.
  unfold truncated_policy_iteration. intros H. unbind H as policy0 E.
  apply initial_policy_shape in E.
  apply tpi_loop_result in H as (Hh & Hp & [rest ->] & Hlen & Hlast & Hz);
    [|apply dict_from_states_keyed|done|].
  - simpl in Hlen. split_and!; [done|done|simpl; lia|done|done|].
    intros Hj. destruct (Hz Hj) as [-> Hall]. split; [done|].
    intros T HT. destruct (Hall T HT) as [ ->%list_elem_of_singleton | -> ]; done.
  - constructor; [apply dict_from_states_keyed|constructor].
Qed.

End Solvers.

(** A run on [cliffwalk1]. *)
Lemma policy_iteration_result_witness :
  ∃ v policy history,
    policy_iteration (CliffWalk.as_env CliffWalk.cliffwalk1)
      (Q2Qc (1 # 2)) (Q2Qc (1 # 10)) Examples.zeros 20 20 = Ok (v, policy, history) ∧
    head history = Some (dict_from_states (CliffWalk.as_env CliffWalk.cliffwalk1) 0%Qc) ∧
    last history = Some v ∧
    (2 ≤ length history)%nat ∧
    Forall (keyed_by_states (CliffWalk.as_env CliffWalk.cliffwalk1) 0%Qc) history ∧
    policy_shape (CliffWalk.as_env CliffWalk.cliffwalk1) policy.
Proof.
  assert (match policy_iteration (CliffWalk.as_env CliffWalk.cliffwalk1)
                  (Q2Qc (1 # 2)) (Q2Qc (1 # 10)) Examples.zeros 20 20
          with Ok _ => True | _ => False end) as Hok.
  { vm_compute. exact I. }
  destruct (policy_iteration (CliffWalk.as_env CliffWalk.cliffwalk1)
              (Q2Qc (1 # 2)) (Q2Qc (1 # 10)) Examples.zeros 20 20)
    as [[[v policy] history]| |] eqn:E; [|destruct Hok..].
  destruct (policy_iteration_result _ _ _ _ _ _ _ _ _ E) as (_ & H).
  exists v, policy, history. split; [reflexivity|exact H].
Defined.

(** A run on [cliffwalk1] with [j_truncate = 0]. *)
Lemma truncated_policy_iteration_result_witness :
  ∃ v policy history,
    truncated_policy_iteration (CliffWalk.as_env CliffWalk.cliffwalk1)
      (Q2Qc (9 # 10)) 0 Examples.zeros 20 = Ok (v, policy, history) ∧
    v = dict_from_states (CliffWalk.as_env CliffWalk.cliffwalk1) 0%Qc ∧
    (∀ T, T ∈ history → T = dict_from_states (CliffWalk.as_env CliffWalk.cliffwalk1) 0%Qc) ∧
    (2 ≤ length history)%nat ∧
    policy_shape (CliffWalk.as_env CliffWalk.cliffwalk1) policy.
Proof.
  assert (match truncated_policy_iteration (CliffWalk.as_env CliffWalk.cliffwalk1)
                  (Q2Qc (9 # 10)) 0 Examples.zeros 20
          with Ok _ => True | _ => False end) as Hok.
  { vm_compute. exact I. }
  destruct (truncated_policy_iteration (CliffWalk.as_env CliffWalk.cliffwalk1)
              (Q2Qc (9 # 10)) 0 Examples.zeros 20)
    as [[[v policy] history]| |] eqn:E; [|destruct Hok..].
  destruct (truncated_policy_iteration_result _ _ _ _ _ _ _ _ E)
    as (_ & _ & Hlen & _ & Hp & Hz).
  destruct Hz as [Hv Hh]; [lia|].
  exists v, policy, history.
  split; [reflexivity|]. split; [exact Hv|]. split; [exact Hh|]. split; [exact Hlen|exact Hp].
Defined.

End PolicyFacts.

(** ** When the solvers raise, and when they cannot *)

Module ProgressFacts.

Import PyFacts DictFacts Homework1 Spec Props Homework1Facts SolverFacts PolicyFacts.

Lemma bind_eq {A B : Type} (m : outcome A) (k : A → outcome B) a :
  m = Ok a → m ≫= k = k a.
Proof. by intros ->. Qed.

Lemma bind_Raised {A B : Type} (m : outcome A) (k : A → outcome B) e :
  m = Raised e → m ≫= k = Raised e.
Proof. by intros ->. Qed.

Section Solvers.

Variable env : Env.
Variable gamma : Qc.

(** Every state of [env.states] is a key of the table. *)
Definition covers {V : Type} (T : gmap State V) : Prop :=
  ∀ s, s ∈ states env → is_Some (T !! s).

Lemma keyed_covers {V : Type} (x : V) (T : gmap State V) :
  keyed_by_states env x T → covers T.
Proof.
  intros [Hd _] s Hs. apply elem_of_dom. rewrite Hd. by apply elem_of_list_to_set.
Qed.

Lemma covers_insert {V : Type} (T : gmap State V) s x : covers T → covers (<[s := x]> T).
Proof.
  intros HT s' Hs'. destruct (decide (s' = s)) as [->|Hne].
  - rewrite lookup_insert_eq. by eauto.
  - rewrite lookup_insert_ne by done. by apply HT.
Qed.

(** *** Backups in a closed environment *)

Hypothesis Hclosed : closed env.

Lemma q_value_closed v s a :
  covers v → s ∈ states env → s ≠ goal_pos env → a ∈ action_keys env →
  ∃ q, q_value env gamma v s a = Ok q.
Proof.
  intros Hv Hs Hne Ha. destruct Hclosed as [_ Hstep].
  destruct (Hstep s a Hs Hne Ha) as (s' & r & d & Hr & Hs').
  destruct (Hv s' Hs') as [x Hx].
  exists (r + gamma * x)%Qc. unfold q_value. rewrite Hr. simpl.
  unfold getitem. by rewrite Hx.
Qed.

Lemma action_values_loop_closed v s acts d0 :
  covers v → s ∈ states env → s ≠ goal_pos env → acts ⊆ action_keys env →
  ∃ d, action_values_loop env gamma v s acts d0 = Ok d.
Proof.
  intros Hv Hs Hne. revert d0.
  induction acts as [|a acts IH]; intros d0 Hacts; simpl; [by eauto|].
  destruct (q_value_closed v s a) as [q Hq]; [done|done|done|apply Hacts; by left|].
  rewrite (bind_eq _ _ _ Hq). apply IH. intros a' Ha'. apply Hacts. by right.
Qed.

Lemma backup_closed v s :
  covers v → s ∈ states env → s ≠ goal_pos env →
  ∃ d b q, action_values_loop env gamma v s (action_keys env) [] = Ok d ∧
           adict_argmax d = Ok b ∧ adict_getitem d b = Ok q ∧
           b ∈ action_keys env.
Proof.
  intros Hv Hs Hne.
  destruct (action_values_loop_closed v s (action_keys env) []) as [d Hd];
    [done|done|done|done|].
  destruct (action_values_loop_spec env gamma v s (action_keys env) [] d)
    as (_ & _ & Hq & _); [apply NoDup_nil_2|done|].
  assert (d ≠ []) as Hne'.
  { destruct Hclosed as [Hk _]. destruct (action_keys env) as [|a0 acts] eqn:Ek; [done|].
    destruct (Hq a0) as (q & _ & Hget); [by left|]. intros ->. done. }
  destruct (adict_argmax_ok d Hne') as [b Hb].
  destruct (best_action_greedy env gamma _ _ _ _ Hd Hb) as (m & Hm & _ & Hin & _).
  by exists d, b, m.
Qed.

(** *** [value_iteration] *)

Lemma vi_sweep_closed v_old_iter ss v policy delta :
  covers v_old_iter → ss ⊆ states env →
  ∃ r, vi_sweep env gamma v_old_iter ss v policy delta = Ok r.
Proof.
  intros Hv. revert v policy delta.
  induction ss as [|s0 ss IH]; intros v policy delta Hss; simpl; [by eauto|].
  assert (ss ⊆ states env) as Hss' by (intros s Hs; apply Hss; by right).
  case_decide as Hg; [by apply IH|].
  assert (s0 ∈ states env) as Hs0 by (apply Hss; by left).
  destruct (Hv s0 Hs0) as [v_old Hvo].
  destruct (backup_closed v_old_iter s0) as (d & b & q & Hd & Hb & Hq & _);
    [done|done|done|].
  rewrite (bind_eq _ _ v_old) by by apply getitem_Ok.
  rewrite (bind_eq _ _ _ Hd), (bind_eq _ _ _ Hb), (bind_eq _ _ _ Hq).
  rewrite (bind_eq _ _ q) by (apply getitem_Ok, lookup_insert_eq).
  by apply IH.
Qed.

Lemma vi_loop_closed fuel theta V policy history e :
  covers V → vi_loop env gamma fuel theta V policy history ≠ Raised e.
Proof.
  revert V policy history.
  induction fuel as [|fuel IH]; intros V policy history HV; [done|]. simpl.
  destruct (vi_sweep_closed V (states env) V policy 0%Qc) as [[[V1 policy1] delta] Hs];
    [done|done|].
  rewrite (bind_eq _ _ _ Hs). destruct (Qcltb delta theta); [done|].
  apply IH. apply vi_sweep_spec in Hs as [Hin Hout].
  intros s Hs. destruct (decide (s = goal_pos env)) as [->|Hne].
  - destruct (Hout (goal_pos env)) as [-> _]; [by right|]. by apply HV.
  - destruct (Hin s Hs Hne) as (a & m & -> & _). by eauto.
Qed.

(** *** Policy evaluation and improvement *)

Lemma pe_sweep_closed policy ss V delta :
  policy_shape env policy → covers V → ss ⊆ states env →
  ∃ r, pe_sweep env gamma policy ss V delta = Ok r.
Proof.
  intros (_ & _ & Hp). revert V delta.
  induction ss as [|s0 ss IH]; intros V delta HV Hss; simpl; [by eauto|].
  assert (ss ⊆ states env) as Hss' by (intros s Hs; apply Hss; by right).
  case_decide as Hg; [by apply IH|].
  assert (s0 ∈ states env) as Hs0 by (apply Hss; by left).
  destruct (HV s0 Hs0) as [v_old Hvo].
  destruct (Hp s0 Hs0 Hg) as (a & Ha & Hin).
  destruct (q_value_closed V s0 a) as [q Hq]; [done|done|done|done|].
  rewrite (bind_eq _ _ v_old) by by apply getitem_Ok.
  rewrite (bind_eq _ _ a) by by apply getitem_Ok.
  rewrite (bind_eq _ _ _ Hq).
  rewrite (bind_eq _ _ q) by (apply getitem_Ok, lookup_insert_eq).
  apply IH; [by apply covers_insert|done].
Qed.

Lemma pe_loop_closed fuel theta policy V e :
  policy_shape env policy → keyed_by_states env 0%Qc V →
  pe_loop env gamma fuel theta policy V ≠ Raised e.
Proof.
  intros Hp. revert V.
  induction fuel as [|fuel IH]; intros V HV; [done|]. simpl.
  destruct (pe_sweep_closed policy (states env) V 0%Qc) as [[V1 delta] Hs];
    [done|by eapply keyed_covers|done|].
  rewrite (bind_eq _ _ _ Hs). destruct (Qcltb delta theta); [done|].
  apply IH. apply pe_sweep_spec in Hs as (changes & Hs & _).
  apply in_place_sweep_keeps in Hs as [Hd Hg].
  by apply (keyed_by_states_same _ _ _ _ Hd Hg).
Qed.

Lemma tpe_sweep_closed policy v_old ss v :
  policy_shape env policy → covers v_old → ss ⊆ states env →
  ∃ r, tpe_sweep env gamma policy v_old ss v = Ok r.
Proof.
  intros (_ & _ & Hp) Hv. revert v.
  induction ss as [|s0 ss IH]; intros v Hss; simpl; [by eauto|].
  assert (ss ⊆ states env) as Hss' by (intros s Hs; apply Hss; by right).
  case_decide as Hg; [by apply IH|].
  assert (s0 ∈ states env) as Hs0 by (apply Hss; by left).
  destruct (Hp s0 Hs0 Hg) as (a & Ha & Hin).
  destruct (q_value_closed v_old s0 a) as [q Hq]; [done|done|done|done|].
  rewrite (bind_eq _ _ a) by by apply getitem_Ok.
  rewrite (bind_eq _ _ _ Hq). by apply IH.
Qed.

Lemma tpe_loop_closed n policy V :
  policy_shape env policy → keyed_by_states env 0%Qc V →
  ∃ V', tpe_loop env gamma n policy V = Ok V'.
Proof.
  intros Hp. revert V. induction n as [|n IH]; intros V HV; simpl; [by eauto|].
  destruct (tpe_sweep_closed policy V (states env) V) as [V1 Hs];
    [done|by eapply keyed_covers|done|].
  rewrite (bind_eq _ _ _ Hs). apply IH.
  apply (tpe_loop_keeps env gamma 1 policy V). simpl. by rewrite (bind_eq _ _ _ Hs).
  done.
Qed.

Lemma improve_sweep_closed v ss policy stable :
  covers v → (∀ s, s ∈ ss → s ≠ goal_pos env → is_Some (policy !! s)) →
  ss ⊆ states env →
  ∃ r, improve_sweep env gamma v ss policy stable = Ok r.
Proof.
  intros Hv. revert policy stable.
  induction ss as [|s0 ss IH]; intros policy stable Hp Hss; simpl; [by eauto|].
  assert (ss ⊆ states env) as Hss' by (intros s Hs; apply Hss; by right).
  case_decide as Hg.
  { apply IH; [|done]. intros s Hs. apply Hp. by right. }
  assert (s0 ∈ states env) as Hs0 by (apply Hss; by left).
  destruct (Hp s0) as [old_action Ho]; [by left|done|].
  destruct (backup_closed v s0) as (d & b & q & Hd & Hb & _); [done|done|done|].
  rewrite (bind_eq _ _ old_action) by by apply getitem_Ok.
  rewrite (bind_eq _ _ _ Hd), (bind_eq _ _ _ Hb).
  apply IH; [|done]. intros s Hs Hne. destruct (decide (s = s0)) as [->|Hne'].
  - rewrite lookup_insert_eq. by eauto.
  - rewrite lookup_insert_ne by done. apply Hp; [by right|done].
Qed.

Lemma improve_sweep_shape v policy stable :
  covers v → policy_shape env policy →
  ∃ policy' stable',
    improve_sweep env gamma v (states env) policy stable = Ok (policy', stable').
Proof.
  intros Hv (_ & _ & Hp).
  destruct (improve_sweep_closed v (states env) policy stable) as [[policy' stable'] H];
    [done| |done|by eauto].
  intros s Hs Hne. destruct (Hp s Hs Hne) as (a & -> & _). by eauto.
Qed.

(** *** The policy iterations *)

Lemma pi_loop_closed fuel eval_fuel theta V policy history e :
  keyed_by_states env 0%Qc V → policy_shape env policy →
  pi_loop env gamma fuel eval_fuel theta V policy history ≠ Raised e.
Proof.
  revert V policy history.
  induction fuel as [|fuel IH]; intros V policy history HV Hp; [done|]. simpl.
  destruct (pe_loop env gamma eval_fuel theta policy V) as [V1|e1|] eqn:Ev;
    [|by apply pe_loop_closed in Ev|done].
  rewrite (bind_eq _ _ V1) by done.
  apply pe_loop_spec, evaluation_until_keeps in Ev as (Hd & Hg & _).
  pose proof (keyed_by_states_same _ _ _ _ Hd Hg HV) as HV1.
  destruct (improve_sweep_shape V1 policy true) as (policy1 & stable & Hi);
    [by eapply keyed_covers|done|].
  rewrite (bind_eq _ _ _ Hi). destruct stable; [done|].
  apply IH; [done|].
  apply improve_sweep_improvement in Hi as [Hgi _]. by eapply improvement_keeps.
Qed.

Lemma tpi_loop_closed fuel j_truncate V policy history e :
  keyed_by_states env 0%Qc V → policy_shape env policy →
  tpi_loop env gamma fuel j_truncate V policy history ≠ Raised e.
Proof.
  revert V policy history.
  induction fuel as [|fuel IH]; intros V policy history HV Hp; [done|]. simpl.
  destruct (tpe_loop_closed (Z.to_nat j_truncate) policy V) as [V1 Ev]; [done|done|].
  rewrite (bind_eq _ _ _ Ev).
  pose proof (tpe_loop_keeps _ _ _ _ _ _ Ev HV) as HV1.
  destruct (improve_sweep_shape V1 policy true) as (policy1 & stable & Hi);
    [by eapply keyed_covers|done|].
  rewrite (bind_eq _ _ _ Hi). destruct stable; [done|].
  apply IH; [done|].
  apply improve_sweep_improvement in Hi as [Hgi _]. by eapply improvement_keeps.
Qed.

Lemma initial_policy_closed g : ∃ policy, initial_policy env g = Ok policy.
Proof.
  destruct Hclosed as [Hk _].
  destruct (random_policy_Ok env (states env) ∅ g Hk) as (policy & g' & H).
  exists (<[goal_pos env := EmptyString]> policy).
  unfold initial_policy. by rewrite H.
Qed.

(** In a closed environment none of the three solvers raises: a run
    returns or goes on for as long as it is given fuel.  So an exception
    out of a solver comes from the environment: an empty action set, a
    call of [env.step] that raises, or a next state that is not in
    [env.states]. *)
Theorem solvers_do_not_raise theta j_truncate g fuel eval_fuel e :
  value_iteration env gamma theta fuel ≠ Raised e ∧
  policy_iteration env gamma theta g fuel eval_fuel ≠ Raised e ∧
  truncated_policy_iteration env gamma j_truncate g fuel ≠ Raised e.
Proof.
  split_and!.
  - unfold value_iteration. apply vi_loop_closed.
    eapply keyed_covers, dict_from_states_keyed.
  - unfold policy_iteration. destruct (initial_policy_closed g) as [policy Hp].
    rewrite (bind_eq _ _ _ Hp). apply pi_loop_closed.
    + apply dict_from_states_keyed.
    + by eapply initial_policy_shape.
  - unfold truncated_policy_iteration. destruct (initial_policy_closed g) as [policy Hp].
    rewrite (bind_eq _ _ _ Hp). apply tpi_loop_closed.
    + apply dict_from_states_keyed.
    + by eapply initial_policy_shape.
Qed.

End Solvers.

Lemma env1_closed : closed Examples.env1.
Proof.
  split; [done|]. intros s a Hs Hne Ha.
  assert (forallb (fun s =>
            bool_decide (s = goal_pos Examples.env1)
            || forallb (fun a =>
                  match step Examples.env1 s a with
                  | Return (s', _, _) => bool_decide (s' ∈ states Examples.env1)
                  | Raise _ => false
                  end) (action_keys Examples.env1))
            (states Examples.env1) = true) as H.
  { vm_compute. reflexivity. }
  rewrite forallb_forall in H.
  specialize (H s (proj1 (list_elem_of_In _ _) Hs)).
  apply orb_true_iff in H as [H|H]; [by apply bool_decide_eq_true in H|].
  rewrite forallb_forall in H.
  specialize (H a (proj1 (list_elem_of_In _ _) Ha)).
  destruct (step Examples.env1 s a) as [[[s' r] d]|]; [|done].
  exists s', r, d. split; [done|]. by apply bool_decide_eq_true in H.
Qed.

(** The three solvers on [cliffwalk1]. *)
Lemma solvers_do_not_raise_witness :
  (∀ e, value_iteration Examples.env1 (Q2Qc (9 # 10)) (Q2Qc (1 # 1000000)) 20
        ≠ Raised e) ∧
  (∀ e, policy_iteration Examples.env1 (Q2Qc (1 # 2)) (Q2Qc (1 # 10)) Examples.zeros 20 20
        ≠ Raised e) ∧
  (∀ e, truncated_policy_iteration Examples.env1 (Q2Qc (9 # 10)) 2 Examples.zeros 20
        ≠ Raised e).
Proof.
  split; [|split]; intros e.
  - exact (proj1 (solvers_do_not_raise Examples.env1 (Q2Qc (9 # 10)) env1_closed
                    (Q2Qc (1 # 1000000)) 2 Examples.zeros 20 20 e)).
  - exact (proj1 (proj2 (solvers_do_not_raise Examples.env1 (Q2Qc (1 # 2)) env1_closed
                           (Q2Qc (1 # 10)) 2 Examples.zeros 20 20 e))).
  - exact (proj2 (proj2 (solvers_do_not_raise Examples.env1 (Q2Qc (9 # 10)) env1_closed
                           (Q2Qc (1 # 1000000)) 2 Examples.zeros 20 20 e))).
Defined.

Section Edges.

Variable env : Env.
Variable gamma : Qc.

(** *** An empty action set *)

Lemma vi_sweep_empty v_old_iter ss v policy delta :
  action_keys env = [] → covers env v_old_iter → ss ⊆ states env →
  (∃ s, s ∈ ss ∧ s ≠ goal_pos env) →
  vi_sweep env gamma v_old_iter ss v policy delta = Raised ValueError.
Proof.
  intros Hk Hv. revert v policy delta.
  induction ss as [|s0 ss IH]; intros v policy delta Hss (s & Hs & Hne); simpl.
  - by apply elem_of_nil in Hs.
  - assert (ss ⊆ states env) as Hss' by (intros s' Hs'; apply Hss; by right).
    case_decide as Hg.
    + apply IH; [done|]. exists s. split; [|done].
      apply elem_of_cons in Hs as [->|?]; done.
    + destruct (Hv s0) as [v_old Hvo]; [apply Hss; by left|].
      rewrite (bind_eq _ _ v_old) by by apply getitem_Ok.
      rewrite Hk. done.
Qed.

(** With an empty action set and a state other than the goal among
    [env.states], every solver raises: [value_iteration], given fuel for
    one sweep, the [ValueError] of [max] over no action values, and the two
    policy iterations the [IndexError] of [random.choice] from an empty
    list, before any loop is entered. *)
Theorem solvers_raise_without_actions theta j_truncate g fuel eval_fuel :
  action_keys env = [] →
  (∃ s, s ∈ states env ∧ s ≠ goal_pos env) →
  value_iteration env gamma theta (S fuel) = Raised ValueError ∧
  policy_iteration env gamma theta g fuel eval_fuel = Raised IndexError ∧
  truncated_policy_iteration env gamma j_truncate g fuel = Raised IndexError.
Proof.
  intros Hk Hs.
  assert (initial_policy env g = Raised IndexError) as Hi.
  { unfold initial_policy.
    destruct (random_policy_IndexError env (states env) ∅ g Hk Hs) as [g' ->]. done. }
  split_and!.
  - unfold value_iteration. cbn [vi_loop].
    rewrite vi_sweep_empty; [done|done| |done|done].
    eapply keyed_covers, dict_from_states_keyed.
  - unfold policy_iteration. by rewrite Hi.
  - unfold truncated_policy_iteration. by rewrite Hi.
Qed.

(** *** Improving twice *)

Lemma improve_sweep_again v ss policy stable policy' stable' :
  improve_sweep env gamma v ss policy stable = Ok (policy', stable') →
  improve_sweep env gamma v ss policy' true = Ok (policy', true).
Proof.
  revert policy stable.
  induction ss as [|s0 ss IH]; intros policy stable H; simpl in H |- *.
  - by injection H as <- <-.
  - case_decide as Hg; [by eapply IH|].
    unbind H as old_action Eo. unbind H as action_values Ea.
    unbind H as best_action Eb.
    assert (policy' !! s0 = Some best_action) as Hs0.
    { pose proof (improve_sweep_spec env gamma _ _ _ _ _ _ H) as (H1 & H2 & _).
      destruct (decide (s0 ∈ ss)) as [Hin|Hnin].
      - destruct (H1 s0 Hin Hg) as (a & Ha & Hp). unfold best_action_of in Ha.
        rewrite (bind_eq _ _ _ Ea), Eb in Ha. by injection Ha as <-.
      - rewrite H2 by auto. apply lookup_insert_eq. }
    rewrite (bind_eq _ _ best_action) by by apply getitem_Ok.
    rewrite (bind_eq _ _ _ Ea), (bind_eq _ _ _ Eb).
    rewrite String.eqb_refl, insert_id by done. by eapply IH.
Qed.

(** A policy-improvement pass is idempotent: a second pass against the
    same table returns the policy of the first and reports it stable. *)
Theorem improvement_is_idempotent v policy stable policy' stable' :
  improve_sweep env gamma v (states env) policy stable = Ok (policy', stable') →
  improve_sweep env gamma v (states env) policy' true = Ok (policy', true).
Proof. apply improve_sweep_again. Qed.

(** *** No sweep at all *)

Lemma bind_not_fuel {A B : Type} (m : outcome A) (k : A → outcome B) :
  m ≠ OutOfFuel → (∀ a, k a ≠ OutOfFuel) → m ≫= k ≠ OutOfFuel.
Proof. intros Hm Hk. destruct m; [apply Hk|done|done]. Qed.

Lemma getitem_not_fuel {V : Type} (d : gmap State V) k : getitem d k ≠ OutOfFuel.
Proof. unfold getitem. by destruct (d !! k). Qed.

Lemma q_value_not_fuel v s a : q_value env gamma v s a ≠ OutOfFuel.
Proof.
  unfold q_value. apply bind_not_fuel; [by destruct (step env s a)|].
  intros [[next_s reward] d]. apply bind_not_fuel; [apply getitem_not_fuel|done].
Qed.

Lemma action_values_loop_not_fuel v s acts d0 :
  action_values_loop env gamma v s acts d0 ≠ OutOfFuel.
Proof.
  revert d0. induction acts as [|a acts IH]; intros d0; simpl; [done|].
  apply bind_not_fuel; [apply q_value_not_fuel|]. intros q. apply IH.
Qed.

Lemma improve_sweep_not_fuel v ss policy stable :
  improve_sweep env gamma v ss policy stable ≠ OutOfFuel.
Proof.
  revert policy stable. induction ss as [|s0 ss IH]; intros policy stable; simpl; [done|].
  case_decide; [apply IH|].
  apply bind_not_fuel; [apply getitem_not_fuel|]. intros old_action.
  apply bind_not_fuel; [apply action_values_loop_not_fuel|]. intros action_values.
  apply bind_not_fuel; [by destruct action_values as [|[? ?] ?]|]. intros best_action.
  apply IH.
Qed.

Lemma random_policy_not_fuel ss policy g : (random_policy env ss policy g).1 ≠ OutOfFuel.
Proof.
  revert policy g. induction ss as [|s0 ss IH]; intros policy g; simpl; [done|].
  case_decide; [apply IH|].
  unfold random_choice. destruct (action_keys env !! _); [apply IH|done].
Qed.

Lemma tpi_loop_zero fuel j_truncate V policy history :
  (j_truncate <= 0)%Z →
  tpi_loop env gamma (S (S fuel)) j_truncate V policy history ≠ OutOfFuel.
Proof.
  intros Hj. cbn [tpi_loop].
  replace (Z.to_nat j_truncate) with 0%nat by lia. cbn [tpe_loop].
  rewrite (bind_eq _ _ V) by done.
  destruct (improve_sweep env gamma V (states env) policy true)
    as [[policy1 stable]| |] eqn:E1; [|done|by apply improve_sweep_not_fuel in E1].
  rewrite (bind_eq _ _ (policy1, stable)) by done. destruct stable; [done|].
  rewrite (bind_eq _ _ V) by done.
  rewrite (bind_eq _ _ (policy1, true)) by by eapply improve_sweep_again.
  done.
Qed.

(** With [j_truncate <= 0] the evaluation phase makes no sweep, and
    [truncated_policy_iteration] is over after two rounds at most: the
    first improvement pass makes the policy greedy for the all-zero table
    and the second finds it stable.  Fuel for two rounds is therefore
    always enough, and in a closed environment the run returns the
    all-zero table. *)
Theorem truncation_zero_two_rounds j_truncate g fuel :
  (j_truncate <= 0)%Z →
  truncated_policy_iteration env gamma j_truncate g (S (S fuel)) ≠ OutOfFuel ∧
  (closed env →
   ∃ policy history,
     truncated_policy_iteration env gamma j_truncate g (S (S fuel))
     = Ok (dict_from_states env 0%Qc, policy, history)).
Proof.
  intros Hj.
  assert (truncated_policy_iteration env gamma j_truncate g (S (S fuel)) ≠ OutOfFuel)
    as Hfuel.
  { unfold truncated_policy_iteration. apply bind_not_fuel.
    - unfold initial_policy. apply bind_not_fuel; [apply random_policy_not_fuel|done].
    - intros policy. by apply tpi_loop_zero. }
  split; [done|]. intros Hclosed.
  destruct (truncated_policy_iteration env gamma j_truncate g (S (S fuel)))
    as [[[v policy] history]|e|] eqn:E; [| |done].
  - unfold truncated_policy_iteration in E. unbind E as policy0 Ep.
    apply initial_policy_shape in Ep.
    apply tpi_loop_result in E as (_ & _ & _ & _ & _ & Hz);
      [|apply dict_from_states_keyed|done|].
    + destruct (Hz Hj) as [-> _]. by eauto.
    + constructor; [apply dict_from_states_keyed|constructor].
  - unfold truncated_policy_iteration in E.
    destruct (initial_policy_closed env Hclosed g) as [policy0 Hp].
    rewrite (bind_eq _ _ _ Hp) in E.
    apply tpi_loop_closed in E; [done|done|apply dict_from_states_keyed|].
    by eapply initial_policy_shape.
Qed.

End Edges.

(** [cliffwalk1] without its actions. *)
Lemma solvers_raise_without_actions_witness :
  let env := {| states := states Examples.env1; action_keys := [];
                start_pos := start_pos Examples.env1;
                goal_pos := goal_pos Examples.env1;
                step := step Examples.env1 |} in
  value_iteration env (Q2Qc (9 # 10)) (Q2Qc (1 # 1000000)) 20 = Raised ValueError ∧
  policy_iteration env (Q2Qc (9 # 10)) (Q2Qc (1 # 10)) Examples.zeros 20 20
  = Raised IndexError ∧
  truncated_policy_iteration env (Q2Qc (9 # 10)) 2 Examples.zeros 20 = Raised IndexError.
Proof.
  intros env.
  apply (solvers_raise_without_actions env (Q2Qc (9 # 10)) _ 2 Examples.zeros 19 20).
  - reflexivity.
  - exists (0, 0)%Z. split; [|discriminate].
    apply (bool_decide_unpack ((0, 0)%Z ∈ states env)). vm_compute. exact I.
Defined.

(** Policy improvement on [cliffwalk1] against the all-zero table, from
    the policy that maps every state to ['N']. *)
Lemma improvement_is_idempotent_witness :
  ∃ policy' stable',
    improve_sweep Examples.env1 (Q2Qc (9 # 10)) (dict_from_states Examples.env1 0%Qc)
      (states Examples.env1) (dict_from_states Examples.env1 "N"%string) true
    = Ok (policy', stable') ∧
    improve_sweep Examples.env1 (Q2Qc (9 # 10)) (dict_from_states Examples.env1 0%Qc)
      (states Examples.env1) policy' true
    = Ok (policy', true).
Proof.
  assert (match improve_sweep Examples.env1 (Q2Qc (9 # 10))
                  (dict_from_states Examples.env1 0%Qc)
                  (states Examples.env1) (dict_from_states Examples.env1 "N"%string) true
          with Ok _ => True | _ => False end) as Hok.
  { vm_compute. exact I. }
  destruct (improve_sweep Examples.env1 (Q2Qc (9 # 10))
              (dict_from_states Examples.env1 0%Qc)
              (states Examples.env1) (dict_from_states Examples.env1 "N"%string) true)
    as [[policy' stable']| |] eqn:E; [|destruct Hok..].
  exists policy', stable'. split; [reflexivity|].
  exact (improvement_is_idempotent _ _ _ _ _ _ _ E).
Defined.

(** [truncated_policy_iteration] on [cliffwalk1] with [j_truncate = 0] and
    fuel for two rounds. *)
Lemma truncation_zero_two_rounds_witness :
  ∃ policy history,
    truncated_policy_iteration Examples.env1 (Q2Qc (9 # 10)) 0 Examples.zeros 2
    = Ok (dict_from_states Examples.env1 0%Qc, policy, history).
Proof.
  destruct (truncation_zero_two_rounds Examples.env1 (Q2Qc (9 # 10)) 0 Examples.zeros 0)
    as [_ H]; [lia|].
  exact (H env1_closed).
Defined.

End ProgressFacts.

(** ** The rows of the Q-table, and when the learners raise *)

Module RowFacts.

Import PyFacts DictFacts Homework2 Logic Spec Props MachineFacts LearnerFacts.

Lemma wp_choice_strict {A : Type} (l : list A) Q E F m :
  (∀ x g, x ∈ l → Q x (set_rng g m)) → (l = [] → ∀ g, E (set_rng g m)) →
  wp (choice l) Q E F m.
Proof.
  intros HQ HE. unfold wp, choice, random_choice.
  destruct (l !! _) as [x|] eqn:Hx; simpl.
  - apply HQ. by eapply list_elem_of_lookup_2.
  - apply HE. destruct l as [|x l]; [done|].
    apply lookup_ge_None in Hx.
    pose proof (Nat.mod_upper_bound (as_index (tape (rng m) (cursor (rng m))))
                  (length (x :: l))) as Hlt.
    simpl in *. lia.
Qed.

(** The actions of the greatest value of a row are not empty. *)
Lemma best_actions_nonempty (d : adict) (q : Qc) :
  q ∈ d.*2 → map fst (List.filter (fun item => Qceqb (snd item) q) d) ≠ [].
Proof.
  intros ([a q'] & -> & Hin)%list_elem_of_fmap. simpl.
  assert (a ∈ map fst (List.filter (fun item => Qceqb (snd item) q') d)) as Ha.
  { apply (list_elem_of_fmap_2 fst _ (a, q')), list_elem_of_In, filter_In.
    split; [by apply list_elem_of_In|]. by apply Qceqb_eq. }
  intros Hnil. rewrite Hnil in Ha. by apply elem_of_nil in Ha.
Qed.

Lemma adict_keys_nil (d : adict) : adict_keys d = [] → d = [].
Proof. by destruct d. Qed.

Lemma zero_row_nil (acts : list Action) : zero_row acts = [] → acts = [].
Proof.
  intros H. destruct acts as [|a acts]; [done|].
  destruct (zero_row_head a acts) as [row' Hrow]. congruence.
Qed.

Lemma adict_keys_set_in (d : adict) (k : Action) (x : Qc) :
  k ∈ adict_keys d → adict_keys (adict_set d k x) = adict_keys d.
Proof. intros Hk. by destruct (adict_keys_set d k x) as [<-|[Hn _]]. Qed.

Section Rows.

Variable env : Env.

(** [ok] stands for what is assumed of the environment; with [ok := False]
    the rules below assume nothing. *)
Variable ok : Prop.
Hypothesis Hkeys : ok → action_keys env ≠ [].
Hypothesis Hstep : ok → step_total env.

Notation K := (fun m : Machine => rows_keyed env (q_table m)).
Notation E := (fun m : Machine => rows_keyed env (q_table m) ∧ ¬ ok).
Notation zero := (zero_row (action_keys env)).

Lemma rows_row_at s m : K m → adict_keys (row_at env s m) = adict_keys zero.
Proof.
  intros Hm. unfold row_at. destruct (q_table m !! s) as [row|] eqn:Hs; simpl; [|done].
  by eapply Hm.
Qed.

Lemma rows_touch s m : K m → K (touch env s m).
Proof.
  intros Hm s' row Hrow. destruct (decide (s' = s)) as [->|Hne].
  - rewrite touch_lookup in Hrow. injection Hrow as <-. by apply rows_row_at.
  - rewrite touch_lookup_ne in Hrow by done. by eapply Hm.
Qed.

Lemma rows_write s a v m : a ∈ action_keys env → K m → K (write env s a v m).
Proof.
  intros Ha Hm s' row. cbn [write add_event set_table q_table].
  destruct (decide (s' = s)) as [->|Hne].
  - rewrite lookup_insert_eq. intros [= <-].
    rewrite adict_keys_set_in; [by apply rows_row_at|].
    rewrite rows_row_at by done. by apply zero_row_keys.
  - rewrite lookup_insert_ne by done. apply Hm.
Qed.

Lemma rows_empty_not_ok (row : adict) : adict_keys row = adict_keys zero → row = [] → ¬ ok.
Proof.
  intros Hk -> Hok. apply (Hkeys Hok), zero_row_nil, adict_keys_nil. by rewrite <- Hk.
Qed.

Lemma rows_get (row : adict) a :
  adict_keys row = adict_keys zero → a ∈ action_keys env → is_Some (adict_get row a).
Proof. intros Hk Ha. apply adict_key_get. rewrite Hk. by apply zero_row_keys. Qed.

(** *** Rules *)

Lemma rk_choose state epsilon (Q : Action → Machine → Prop) F m :
  K m → (∀ a m', a ∈ action_keys env → K m' → Q a m') →
  wp (choose_action_e_greedy env state (action_keys env) epsilon) Q E F m.
Proof.
  intros Hm HQ. unfold choose_action_e_greedy.
  apply wp_bind, wp_emit, wp_bind, wp_uniform. intros u g.
  destruct (Qcltb u epsilon).
  - apply wp_choice_strict.
    + intros a g' Ha. by apply HQ.
    + intros Hnil g'. split; [done|]. intros Hok. by apply (Hkeys Hok).
  - apply wp_bind, wp_row_of, wp_bind, wp_lift.
    rewrite touch_set_rng, row_at_set_rng, row_at_add_event.
    pose proof (rows_row_at state m Hm) as Hrow.
    pose proof (adict_max_value_ok (row_at env state m)) as Hmax.
    destruct (adict_max_value _) as [max_q| |]; [| |done].
    + destruct Hmax as (_ & Hin & _). apply wp_choice_strict.
      * intros a g' Ha. apply HQ; [|by apply (rows_touch state)].
        apply list_elem_of_fmap in Ha as ([a' q] & -> & Hin').
        apply list_elem_of_In, filter_In in Hin' as [Hin' _].
        apply list_elem_of_In in Hin'.
        apply zero_row_keys. rewrite <- Hrow. unfold adict_keys.
        apply list_elem_of_fmap. by exists (a', q).
      * intros Hnil. by apply best_actions_nonempty in Hnil.
    + split; [by apply (rows_touch state)|]. by eapply rows_empty_not_ok.
Qed.

Lemma rk_env_step state action (Q : State * Qc * bool → Machine → Prop) F m :
  K m → action ∈ action_keys env →
  (∀ r m', K m' → Q r m') →
  wp (env_step env state action) Q E F m.
Proof.
  intros Hm Ha HQ. apply wp_env_step.
  destruct (step env state action) as [[[next_state reward] d]|e] eqn:Hs.
  - by apply HQ.
  - split; [done|]. intros Hok.
    destruct (Hstep Hok state action Ha) as (s' & r & d & Hr). congruence.
Qed.

Lemma rk_row_of state (Q : adict → Machine → Prop) F m :
  K m → (∀ row m', adict_keys row = adict_keys zero → K m' → Q row m') →
  wp (row_of env state) Q E F m.
Proof.
  intros Hm HQ. apply wp_row_of, HQ; [by apply rows_row_at|by apply rows_touch].
Qed.

Lemma rk_q_get state action (Q : Qc → Machine → Prop) F m :
  K m → action ∈ action_keys env → (∀ x m', K m' → Q x m') →
  wp (q_get env state action) Q E F m.
Proof.
  intros Hm Ha HQ. apply wp_q_get.
  destruct (rows_get (row_at env state m) action) as [x ->];
    [by apply rows_row_at|done|].
  apply HQ. by apply rows_touch.
Qed.

Lemma rk_q_set state action value (Q : unit → Machine → Prop) F m :
  K m → action ∈ action_keys env → (∀ m', K m' → Q tt m') →
  wp (q_set env state action value) Q E F m.
Proof. intros Hm Ha HQ. apply wp_q_set, HQ. by apply rows_write. Qed.

Lemma rk_max (row : adict) (Q : Qc → Machine → Prop) F m :
  adict_keys row = adict_keys zero → K m → (∀ x, Q x m) →
  wp (lift (adict_max_value row)) Q E F m.
Proof.
  intros Hrow Hm HQ. apply wp_lift.
  pose proof (adict_max_value_ok row) as Hmax.
  destruct (adict_max_value row); [apply HQ| |done].
  split; [done|]. by eapply rows_empty_not_ok.
Qed.

Lemma rk_argmax (row : adict) (Q : Action → Machine → Prop) F m :
  adict_keys row = adict_keys zero → K m → (∀ a, Q a m) →
  wp (lift (adict_argmax row)) Q E F m.
Proof.
  intros Hrow Hm HQ. apply wp_lift. destruct row as [|[a q] row]; simpl; [|apply HQ].
  split; [done|]. by eapply rows_empty_not_ok.
Qed.

Lemma expected_q_loop_Ok epsilon (row : adict) best n acts x :
  (∀ a, a ∈ acts → is_Some (adict_get row a)) →
  ∃ y, expected_q_loop epsilon row best n acts x = Ok y.
Proof.
  revert x. induction acts as [|a acts IH]; intros x Hacts; simpl; [by eauto|].
  destruct (Hacts a) as [q Hq]; [by left|].
  unfold adict_getitem. rewrite Hq. simpl. apply IH.
  intros a' Ha'. apply Hacts. by right.
Qed.

(** *** The loops of the learners *)

Section Parameters.

Variables alpha gamma epsilon : Qc.

Lemma q_learning_loop_rows fuel state total_reward m :
  K m →
  wp (q_learning_loop env alpha gamma epsilon fuel state total_reward)
     (fun _ => K) E K m.
Proof.
  revert state total_reward m.
  induction fuel as [|fuel IH]; intros state total_reward m Hm; simpl.
  - by apply wp_out_of_fuel.
  - apply wp_bind, rk_choose; [done|]. intros action m1 Ha Hm1.
    apply wp_bind, rk_env_step; [done|done|].
    intros [[next_state reward] d] m2 Hm2. simpl.
    apply wp_bind, rk_q_get; [done|done|]. intros old_value m3 Hm3.
    apply wp_bind, rk_row_of; [done|]. intros next_row m4 Hrow Hm4.
    apply wp_bind, rk_max; [done|done|]. intros next_max.
    apply wp_bind, rk_q_set; [done|done|]. intros m5 Hm5.
    destruct d; [by apply wp_ret|]. by apply IH.
Qed.

Lemma sarsa_loop_rows fuel state action total_reward m :
  action ∈ action_keys env → K m →
  wp (sarsa_loop env alpha gamma epsilon fuel state action total_reward)
     (fun _ => K) E K m.
Proof.
  revert state action total_reward m.
  induction fuel as [|fuel IH]; intros state action total_reward m Ha Hm; simpl.
  - by apply wp_out_of_fuel.
  - apply wp_bind, rk_env_step; [done|done|].
    intros [[next_state reward] d] m1 Hm1. simpl.
    apply wp_bind, rk_choose; [done|]. intros next_action m2 Hna Hm2.
    apply wp_bind, rk_q_get; [done|done|]. intros old_value m3 Hm3.
    apply wp_bind, rk_q_get; [done|done|]. intros next_value m4 Hm4.
    apply wp_bind, rk_q_set; [done|done|]. intros m5 Hm5.
    destruct d; [by apply wp_ret|]. by apply IH.
Qed.

Lemma expected_sarsa_loop_rows fuel state total_reward m :
  K m →
  wp (expected_sarsa_loop env alpha gamma epsilon fuel state total_reward)
     (fun _ => K) E K m.
Proof.
  revert state total_reward m.
  induction fuel as [|fuel IH]; intros state total_reward m Hm; simpl.
  - by apply wp_out_of_fuel.
  - apply wp_bind, rk_choose; [done|]. intros action m1 Ha Hm1.
    apply wp_bind, rk_env_step; [done|done|].
    intros [[next_state reward] d] m2 Hm2. simpl.
    apply wp_bind, rk_q_get; [done|done|]. intros old_value m3 Hm3.
    apply wp_bind, rk_row_of; [done|]. intros next_row m4 Hrow Hm4.
    apply wp_bind, rk_argmax; [done|done|]. intros best_action.
    apply wp_bind, wp_lift.
    destruct (expected_q_loop_Ok epsilon next_row best_action
                (length (action_keys env)) (action_keys env) 0%Qc) as [y ->].
    { intros a Ha'. by apply rows_get. }
    apply wp_bind, rk_q_set; [done|done|]. intros m5 Hm5.
    destruct d; [by apply wp_ret|]. by apply IH.
Qed.

(** *** [n_step_sarsa] *)

Variables n_steps max_steps_per_episode : Z.
Hypothesis Hpow : ok → (0 <= n_steps)%Z ∨ gamma ≠ 0%Qc.

(** The actions stored in the buffer are actions of [env.action_keys]. *)
Definition stored_actions (trajectory : deque) : Prop :=
  Forall (fun entry => entry.1.2 ∈ action_keys env) trajectory.

Lemma return_loop_Ok (trajectory : deque) i n G :
  (i + n ≤ length trajectory)%nat → ∃ G', return_loop gamma trajectory i n G = Ok G'.
Proof.
  revert i G. induction n as [|n IH]; intros i G Hlen; simpl; [by eauto|].
  destruct (trajectory !! i) as [[[s a] r]|] eqn:Hi.
  - apply IH. lia.
  - apply lookup_ge_None in Hi. lia.
Qed.

Lemma pypow_rows (Q : Qc → Machine → Prop) F m :
  K m → (∀ p, Q p m) → wp (lift (pypow gamma n_steps)) Q E F m.
Proof.
  intros Hm HQ. apply wp_lift. unfold pypow.
  destruct (0 <=? n_steps)%Z eqn:Hn; [apply HQ|].
  destruct (Qceqb gamma 0%Qc) eqn:Hg; [|apply HQ].
  split; [done|]. intros Hok. apply Z.leb_gt in Hn. apply Qceqb_eq in Hg.
  destruct (Hpow Hok); [lia|done].
Qed.

Lemma n_step_update_rows trajectory next_state next_action d m :
  trajectory ≠ [] →
  stored_actions trajectory →
  (d = false → ∃ a, next_action = Some a ∧ a ∈ action_keys env) →
  K m →
  wp (n_step_update env alpha gamma n_steps trajectory next_state next_action d)
     (fun trajectory' m' => K m' ∧ stored_actions trajectory') E K m.
Proof.
  intros Hne Ht Hn Hm. unfold n_step_update.
  destruct (n_steps <=? _)%Z eqn:Hle; [|by apply wp_ret].
  apply Z.leb_le in Hle.
  destruct trajectory as [|[[s_tau a_tau] r_tau] rest]; [done|].
  apply Forall_cons in Ht as [Ha Hrest]. simpl in Ha.
  apply wp_bind, wp_lift.
  destruct (return_loop_Ok ((s_tau, a_tau, r_tau) :: rest) 0 (Z.to_nat n_steps) 0%Qc)
    as [G ->]; [lia|].
  apply wp_bind.
  assert (wp (if negb d
              then p ← lift (pypow gamma n_steps);
                   next_row ← row_of env next_state;
                   match next_action with
                   | Some a => q ← lift (adict_getitem next_row a); mret (G + p * q)%Qc
                   | None => raise KeyError
                   end
              else mret G) (fun _ => K) E K m) as Hboot.
  { destruct d; simpl; [by apply wp_ret|].
    destruct Hn as (a & -> & Hin); [done|].
    apply wp_bind, pypow_rows; [done|]. intros p.
    apply wp_bind, rk_row_of; [done|]. intros next_row m1 Hrow Hm1.
    apply wp_bind, wp_lift. unfold adict_getitem.
    destruct (rows_get next_row a Hrow Hin) as [q ->]. by apply wp_ret. }
  eapply wp_mono; [| | |exact Hboot]; simpl; [|done|done].
  intros G' m1 Hm1.
  apply wp_bind, rk_q_get; [done|done|]. intros old_value m2 Hm2.
  apply wp_bind, rk_q_set; [done|done|]. intros m3 Hm3.
  by apply wp_ret.
Qed.

Lemma n_step_loop_rows fuel state action d step_counter total_reward trajectory m :
  (d = false → ∃ a, action = Some a ∧ a ∈ action_keys env) →
  stored_actions trajectory → K m →
  wp (n_step_loop env alpha gamma epsilon n_steps max_steps_per_episode
        fuel state action d step_counter total_reward trajectory)
     (fun r m' => K m' ∧ stored_actions r.2) E K m.
Proof.
  revert state action d step_counter total_reward trajectory m.
  induction fuel as [|fuel IH];
    intros state action d step_counter total_reward trajectory m Ha Ht Hm;
    simpl; (destruct (negb d && _) eqn:Hcond; [|by apply wp_ret]).
  - by apply wp_out_of_fuel.
  - apply andb_true_iff in Hcond as [Hd%negb_true_iff _].
    destruct (Ha Hd) as (a & -> & Hin).
    apply wp_bind, wp_ret.
    apply wp_bind, rk_env_step; [done|done|].
    intros [[next_state reward] d'] m1 Hm1. simpl.
    apply wp_bind.
    assert (wp (if negb d'
                then a' ← choose_action_e_greedy env next_state (action_keys env) epsilon;
                     mret (Some a')
                else mret None)
              (fun next_action m' =>
                 K m' ∧ (d' = false → ∃ a, next_action = Some a ∧ a ∈ action_keys env))
              E K m1) as Hchoose.
    { destruct d'; simpl; [by apply wp_ret|].
      apply wp_bind, rk_choose; [done|]. intros a' m2 Ha' Hm2.
      apply wp_ret. split; [done|]. by eauto. }
    eapply wp_mono; [| | |exact Hchoose]; simpl; [|done|done].
    intros next_action m2 [Hm2 Hnext].
    apply wp_bind.
    eapply wp_mono; [| | |apply n_step_update_rows]; simpl; [|done|done| | |done|done].
    + intros trajectory' m3 [Hm3 Ht']. by apply IH.
    + by destruct trajectory.
    + apply Forall_app. split; [done|]. by constructor.
Qed.

Lemma drain_rows fuel trajectory m :
  stored_actions trajectory → K m →
  wp (drain env alpha gamma fuel trajectory) (fun _ => K) E K m.
Proof.
  revert trajectory m. induction fuel as [|fuel IH]; intros trajectory m Ht Hm;
    (destruct trajectory as [|[[s_tau a_tau] r_tau] rest]; simpl;
     [by apply wp_ret|]).
  - by apply wp_out_of_fuel.
  - apply Forall_cons in Ht as [Ha Hrest]. simpl in Ha.
    apply wp_bind, wp_lift.
    destruct (return_loop_Ok ((s_tau, a_tau, r_tau) :: rest) 0
                (length ((s_tau, a_tau, r_tau) :: rest)) 0%Qc) as [G HG]; [lia|].
    simpl in HG. rewrite HG.
    apply wp_bind, rk_q_get; [done|done|]. intros old_value m2 Hm2.
    apply wp_bind, rk_q_set; [done|done|]. intros m3 Hm3.
    by apply IH.
Qed.

Lemma n_step_episode_rows fuel m :
  K m →
  wp (n_step_episode env alpha gamma epsilon n_steps max_steps_per_episode fuel)
     (fun _ => K) E K m.
Proof.
  intros Hm. unfold n_step_episode.
  apply wp_bind, rk_choose; [done|]. intros action m1 Ha Hm1. apply wp_bind.
  eapply wp_mono; [| | |apply n_step_loop_rows]; simpl;
    [|done|done|by eauto|constructor|done].
  intros [total_reward trajectory] m2 [Hm2 Ht]. simpl in Ht.
  apply wp_bind. eapply wp_mono; [| | |by apply drain_rows]; simpl; [|done|done].
  intros trajectory' m3 Hm3. by apply wp_ret.
Qed.

End Parameters.

(** *** The end of a run *)

Lemma finish_rows history m :
  K m → wp (finish history) (fun _ => K) E K m.
Proof.
  intros Hm. unfold wp, finish, derive_policy.
  case_decide as Hq; [done|]. split; [done|].
  apply map_not_Forall in Hq as (s & row & Hs & Hrow); [|apply _].
  eapply rows_empty_not_ok; [by eapply Hm|].
  destruct row; [done|]. by destruct Hrow.
Qed.

Lemma learner_rows (episode : TD Qc) n m :
  (∀ m, K m → wp episode (fun _ => K) E K m) → K m →
  wp (history ← episodes_loop episode n []; finish history) (fun _ => K) E K m.
Proof.
  intros Hep Hm. apply wp_bind.
  eapply wp_mono; [| | |by apply episodes_loop_inv]; simpl; [|done|done].
  intros history m' Hm'. by apply finish_rows.
Qed.

Lemma td_learners_rows alpha gamma epsilon n_steps max_steps_per_episode
    episodes fuel run m :
  (ok → (0 <= n_steps)%Z ∨ gamma ≠ 0%Qc) →
  run ∈ td_learners env alpha gamma epsilon n_steps max_steps_per_episode episodes fuel →
  K m → wp run (fun _ => K) E K m.
Proof.
  intros Hpow Hrun Hm. unfold td_learners in Hrun.
  repeat (apply elem_of_cons in Hrun as [->|Hrun]); [| | | |by apply elem_of_nil in Hrun].
  - apply learner_rows; [|done]. intros m' Hm'. by apply q_learning_loop_rows.
  - apply learner_rows; [|done]. intros m' Hm'. unfold sarsa_episode.
    apply wp_bind, rk_choose; [done|]. intros action m1 Ha Hm1.
    by apply sarsa_loop_rows.
  - apply learner_rows; [|done]. intros m' Hm'. by apply expected_sarsa_loop_rows.
  - apply learner_rows; [|done]. intros m' Hm'.
    apply wp_bind. eapply wp_mono; [| | |by apply n_step_episode_rows]; simpl; [|done|done].
    intros r m2 Hm2. by apply wp_ret.
Qed.

End Rows.

Lemma boot_rows env g : rows_keyed env (q_table (boot g)).
Proof. intros s row Hrow. simpl in Hrow. by rewrite lookup_empty in Hrow. Qed.

Lemma final_rows_keyed env alpha gamma epsilon n_steps max_steps_per_episode
    episodes fuel g run :
  run ∈ td_learners env alpha gamma epsilon n_steps max_steps_per_episode episodes fuel →
  rows_keyed env (q_table (final (run (boot g)))).
Proof.
  intros Hrun.
  pose proof (td_learners_rows env False (fun H => False_ind _ H)
                (fun H => False_ind _ H) alpha gamma epsilon n_steps
                max_steps_per_episode episodes fuel run (boot g)
                (fun H => False_ind _ H) Hrun (boot_rows env g)) as Hwp.
  apply (wp_final run (fun m => rows_keyed env (q_table m))).
  eapply wp_mono; [| | |exact Hwp]; simpl; [done|by intros ? [? _]|done].
Qed.

(** Whatever the environment and the parameters, the learners neither add
    a key to a row of the Q-table nor lose one: in the machine a learner
    stops in, every row has the keys of
    [{action: 0.0 for action in env.action_keys}], in that order.  Hence
    the returned policy maps every state to an action of
    [env.action_keys]. *)
Theorem rows_keep_their_keys env alpha gamma epsilon n_steps max_steps_per_episode
    episodes fuel g run :
  run ∈ td_learners env alpha gamma epsilon n_steps max_steps_per_episode episodes fuel →
  rows_keyed env (q_table (final (run (boot g)))) ∧
  ∀ q policy history m',
    run (boot g) = Val (q, policy, history) m' →
    rows_keyed env q ∧
    ∀ s a, policy !! s = Some a → a ∈ action_keys env.
Proof.
  intros Hrun.
  pose proof (final_rows_keyed env alpha gamma epsilon n_steps max_steps_per_episode
                episodes fuel g run Hrun) as HK.
  split; [done|]. intros q policy history m' Hval.
  destruct (td_learners_Val _ _ _ _ _ _ _ _ _ _ _ _ _ _ Hrun Hval) as (-> & Hp & _).
  rewrite Hval in HK. simpl in HK. split; [done|]. intros s a Hs.
  apply derive_policy_Ok in Hp as [Hdom Hp].
  assert (is_Some (q_table m' !! s)) as [row Hrow].
  { apply elem_of_dom. rewrite <- Hdom. apply elem_of_dom. by eauto. }
  destruct (Hp s row Hrow) as (a' & Ha' & Hs'). assert (a' = a) as -> by congruence.
  apply adict_argmax_first_max in Ha' as [q Hfm]. apply first_max_elem in Hfm.
  apply zero_row_keys. rewrite <- (HK s row Hrow). unfold adict_keys.
  apply list_elem_of_fmap. by exists (a, q).
Qed.

(** If the action set is not empty and [env.step] returns for every
    state and every action of the set, the learners raise no [KeyError],
    no [ValueError] and no [ZeroDivisionError]: every
    [q_table[state][action]] finds its key, no [max] is taken over an empty
    row and nothing divides by zero.  This holds of [q_learning], [sarsa]
    and [expected_sarsa] for all parameters, and of [n_step_sarsa] unless
    [n_steps] is negative and [gamma] is zero, when [gamma ** n_steps]
    divides by zero.  The statement is silent on [IndexError] and on the
    overflow of a float, which exact arithmetic does not show: floats reach
    them when a power overflows or the first value of a row is not a
    number. *)
Theorem learners_accesses_do_not_raise env alpha gamma epsilon n_steps
    max_steps_per_episode episodes fuel g e m' :
  action_keys env ≠ [] → step_total env →
  e ∈ [KeyError; ValueError; ZeroDivisionError] →
  q_learning env alpha gamma epsilon episodes fuel (boot g) ≠ Exc e m' ∧
  sarsa env alpha gamma epsilon episodes fuel (boot g) ≠ Exc e m' ∧
  expected_sarsa env alpha gamma epsilon episodes fuel (boot g) ≠ Exc e m' ∧
  ((0 <= n_steps)%Z ∨ gamma ≠ 0%Qc →
   n_step_sarsa env alpha gamma epsilon n_steps max_steps_per_episode episodes fuel (boot g)
   ≠ Exc e m').
Proof.
  intros Hkeys Hstep _.
  assert (∀ n run,
            ((0 <= n)%Z ∨ gamma ≠ 0%Qc) →
            run ∈ td_learners env alpha gamma epsilon n max_steps_per_episode episodes fuel →
            run (boot g) ≠ Exc e m') as H.
  { intros n run Hn Hrun Hexc.
    pose proof (td_learners_rows env True (fun _ => Hkeys) (fun _ => Hstep)
                  alpha gamma epsilon n max_steps_per_episode episodes fuel run (boot g)
                  (fun _ => Hn) Hrun (boot_rows env g)) as Hwp.
    unfold wp in Hwp. rewrite Hexc in Hwp. by destruct Hwp as [_ []]. }
  split_and!.
  - apply (H 0%Z); [by left|]. unfold td_learners. set_solver.
  - apply (H 0%Z); [by left|]. unfold td_learners. set_solver.
  - apply (H 0%Z); [by left|]. unfold td_learners. set_solver.
  - intros Hn. apply (H n_steps); [done|]. unfold td_learners. set_solver.
Qed.

End RowFacts.

(** ** Whole runs of the learners *)

Module RunFacts.

Import PyFacts DictFacts Homework2 Logic Spec Props MachineFacts LearnerFacts
  NStepFacts RowFacts.

(** *** The cliff walk as an environment of the learners *)

Lemma actions_get_Some (d : list (Action * (Z * Z))) (a : Action) :
  a ∈ map fst d → is_Some (CliffWalk.actions_get d a).
Proof.
  induction d as [|[k move] d IH]; simpl; [by intros ?%elem_of_nil|].
  destruct (String.eqb_spec k a) as [->|Hne]; [by eauto|].
  intros [?|?]%elem_of_cons; [done|by apply IH].
Qed.

Lemma cliff_walk_step_total e : step_total (CliffWalk.as_env e).
Proof.
  intros s a Ha. simpl in *. unfold CliffWalk.step.
  case_decide; [by eauto|].
  destruct (actions_get_Some _ _ Ha) as [move Hmove]. rewrite Hmove.
  destruct (CliffWalkFacts.maze_step_recognized e s a) as [[[s' r] d] Hm];
    [by rewrite Hmove|].
  destruct (CliffWalk.in_bounds _ _ && _); by eauto.
Qed.

(** *** The history *)

Lemma episodes_loop_length (episode : TD Qc) n history m history' m' :
  episodes_loop episode n history m = Val history' m' →
  length history' = (length history + n)%nat.
Proof.
  revert history m. induction n as [|n IH]; intros history m; simpl.
  - intros [= <- <-]. lia.
  - unfold mbind, td_bind, bind. destruct (episode m) as [r m1| |]; [|done..].
    intros H. apply IH in H. rewrite length_app in H. simpl in H. lia.
Qed.

Lemma finish_history history m q policy history' m' :
  finish history m = Val (q, policy, history') m' → history' = history.
Proof.
  unfold finish. destruct (derive_policy _) as [policy0| |]; [|done..].
  by intros [= _ _ <- _].
Qed.

Lemma history_has_one_entry_per_episode env alpha gamma epsilon n_steps
    max_steps_per_episode episodes fuel run m q policy history m' :
  run ∈ td_learners env alpha gamma epsilon n_steps max_steps_per_episode episodes fuel →
  run m = Val (q, policy, history) m' →
  length history = episodes.
Proof.
  intros Hrun Hval. unfold td_learners in Hrun.
  repeat (apply elem_of_cons in Hrun as [->|Hrun]); [| | | |by apply elem_of_nil in Hrun].
  all: unfold q_learning, sarsa, expected_sarsa, n_step_sarsa, mbind, td_bind, bind in Hval;
    destruct (episodes_loop _ _ _ m) as [h m1|e m1|m1] eqn:E; try done;
    apply finish_history in Hval as ->;
    by apply episodes_loop_length in E.
Qed.

(** One episode of [sarsa] on [cliffwalk1]. *)
Lemma rows_keep_their_keys_witness :
  ∃ q policy history m',
    sarsa Examples.env1 (Q2Qc (1 # 2)) 1%Qc (Q2Qc (1 # 10)) 1 50
      (boot Examples.to_the_goal) = Val (q, policy, history) m' ∧
    rows_keyed Examples.env1 q ∧
    ∀ s a, policy !! s = Some a → a ∈ action_keys Examples.env1.
Proof.
  assert (match sarsa Examples.env1 (Q2Qc (1 # 2)) 1%Qc (Q2Qc (1 # 10)) 1 50
                  (boot Examples.to_the_goal) with
          | Val _ _ => true
          | _ => false
          end = true) as Hrun.
  { vm_compute. reflexivity. }
  destruct (sarsa _ _ _ _ _ _ _) as [[[q policy] history] m'| |] eqn:E;
    [|discriminate Hrun..].
  destruct (rows_keep_their_keys Examples.env1 (Q2Qc (1 # 2)) 1%Qc (Q2Qc (1 # 10))
              2 50 1 50 Examples.to_the_goal
              (sarsa Examples.env1 (Q2Qc (1 # 2)) 1%Qc (Q2Qc (1 # 10)) 1 50)) as [_ H].
  - apply elem_of_cons. right. apply elem_of_cons. by left.
  - exists q, policy, history, m'. split; [reflexivity|]. exact (H q policy history m' E).
Defined.

(** One episode of each learner on [cliffwalk1]. *)
Lemma learners_accesses_do_not_raise_witness :
  (∀ e m', e ∈ [KeyError; ValueError; ZeroDivisionError] →
     q_learning Examples.env1 (Q2Qc (1 # 2)) 1%Qc (Q2Qc (1 # 10)) 1 50
       (boot Examples.to_the_goal) ≠ Exc e m') ∧
  (∀ e m', e ∈ [KeyError; ValueError; ZeroDivisionError] →
     sarsa Examples.env1 (Q2Qc (1 # 2)) 1%Qc (Q2Qc (1 # 10)) 1 50
       (boot Examples.to_the_goal) ≠ Exc e m') ∧
  (∀ e m', e ∈ [KeyError; ValueError; ZeroDivisionError] →
     expected_sarsa Examples.env1 (Q2Qc (1 # 2)) 1%Qc (Q2Qc (1 # 10)) 1 50
       (boot Examples.to_the_goal) ≠ Exc e m') ∧
  (∀ e m', e ∈ [KeyError; ValueError; ZeroDivisionError] →
     n_step_sarsa Examples.env1 (Q2Qc (1 # 2)) 1%Qc (Q2Qc (1 # 10)) 2 50 1 50
       (boot Examples.to_the_goal) ≠ Exc e m').
Proof.
  assert (∀ e m', e ∈ [KeyError; ValueError; ZeroDivisionError] →
    q_learning Examples.env1 (Q2Qc (1 # 2)) 1%Qc (Q2Qc (1 # 10)) 1 50
      (boot Examples.to_the_goal) ≠ Exc e m' ∧
    sarsa Examples.env1 (Q2Qc (1 # 2)) 1%Qc (Q2Qc (1 # 10)) 1 50
      (boot Examples.to_the_goal) ≠ Exc e m' ∧
    expected_sarsa Examples.env1 (Q2Qc (1 # 2)) 1%Qc (Q2Qc (1 # 10)) 1 50
      (boot Examples.to_the_goal) ≠ Exc e m' ∧
    n_step_sarsa Examples.env1 (Q2Qc (1 # 2)) 1%Qc (Q2Qc (1 # 10)) 2 50 1 50
      (boot Examples.to_the_goal) ≠ Exc e m') as H.
  { intros e m' He.
    destruct (learners_accesses_do_not_raise Examples.env1 (Q2Qc (1 # 2)) 1%Qc
                (Q2Qc (1 # 10)) 2 50 1 50 Examples.to_the_goal e m')
      as (H1 & H2 & H3 & H4).
    - discriminate.
    - apply cliff_walk_step_total.
    - exact He.
    - split; [exact H1|]. split; [exact H2|]. split; [exact H3|].
      apply H4. left. lia. }
  split; [|split; [|split]]; intros e m' He; apply (H e m' He).
Defined.

End RunFacts.

(** ** The epsilon-greedy choice and the value table *)

Module ChoiceFacts.

Import PyFacts DictFacts Homework2 Logic Spec Props MachineFacts LearnerFacts RowFacts.

Section Choice.

Variable env : Env.


End Choice.

(** *** [q_to_v_table] *)

Import Visualization.

Lemma max_loop_row (q0 : Qc) (rest : adict) :
  let v := max_loop q0 (map snd rest) in
  v ∈ ((EmptyString, q0) :: rest).*2 ∧
  Forall (fun item => (item.2 <= v)%Qc) ((EmptyString, q0) :: rest).
Proof.
  intros v. destruct (max_loop_spec q0 (map snd rest)) as [Hin Hall]. split.
  - exact Hin.
  - apply Forall_cons in Hall as [H0 Hall]. constructor; [exact H0|].
    rewrite Forall_forall in Hall. apply Forall_forall. intros [a q] Hq.
    apply Hall. change (map snd rest) with (rest.*2).
    apply list_elem_of_fmap. by exists (a, q).
Qed.

(** [q_to_v_table] keeps the keys of the Q-table.  The value of a state
    with an empty row is [0]; the value of any other state is one of the
    values of its row, and no value of the row exceeds it. *)
Theorem q_to_v_table_is_row_maximum (q_table : gmap State adict) :
  dom (q_to_v_table q_table) = dom q_table ∧
  ∀ s row, q_table !! s = Some row →
    (row = [] → q_to_v_table q_table !! s = Some 0%Qc) ∧
    (row ≠ [] →
     ∃ v, q_to_v_table q_table !! s = Some v ∧ v ∈ row.*2 ∧
          Forall (fun item => (item.2 <= v)%Qc) row).
Proof.
  split; [apply dom_fmap_L|].
  intros s row Hrow. unfold q_to_v_table. rewrite lookup_fmap, Hrow. simpl. split.
  - by intros ->.
  - intros Hne. destruct row as [|[a0 q0] rest]; [done|].
    exists (max_loop q0 (map snd rest)). split; [done|].
    destruct (max_loop_row q0 rest) as [Hin Hall]. split; [exact Hin|].
    apply Forall_cons in Hall as [H0 Hall]. by constructor.
Qed.

Lemma row_maximum_unique (row : adict) (v w : Qc) :
  v ∈ row.*2 → Forall (fun item => (item.2 <= v)%Qc) row →
  w ∈ row.*2 → Forall (fun item => (item.2 <= w)%Qc) row →
  v = w.
Proof.
  intros ([a x] & -> & Hx)%list_elem_of_fmap Hv ([b y] & -> & Hy)%list_elem_of_fmap Hw.
  rewrite Forall_forall in Hv, Hw. simpl.
  apply Qcle_antisym; [apply (Hw _ Hx)|apply (Hv _ Hy)].
Qed.

(** The value table of a learner's result: [q_to_v_table] of the returned
    Q-table has the keys of the returned policy, and the value of a state
    is the Q-value of the action the policy takes there.  In an episodic
    environment the value of the goal, when the table has it, is [0]. *)
Theorem values_follow_policy env alpha gamma epsilon n_steps max_steps_per_episode
    episodes fuel g run q policy history m' :
  run ∈ td_learners env alpha gamma epsilon n_steps max_steps_per_episode episodes fuel →
  run (boot g) = Val (q, policy, history) m' →
  dom (q_to_v_table q) = dom policy ∧
  (∀ s a, policy !! s = Some a →
          ∃ row v, q !! s = Some row ∧ adict_get row a = Some v ∧
                   q_to_v_table q !! s = Some v) ∧
  (episodic env → ∀ v, q_to_v_table q !! goal_pos env = Some v → v = 0%Qc).
Proof.
  intros Hrun Hval.
  pose proof (final_rows_keyed env alpha gamma epsilon n_steps max_steps_per_episode
                episodes fuel g run Hrun) as HK.
  destruct (td_learners_Val _ _ _ _ _ _ _ _ _ _ _ _ _ _ Hrun Hval) as (Hq & Hp & _).
  rewrite Hval in HK. simpl in HK. rewrite <- Hq in HK.
  apply derive_policy_Ok in Hp as [Hdom Hp].
  split_and!.
  - unfold q_to_v_table. by rewrite dom_fmap_L.
  - intros s a Hs.
    assert (is_Some (q !! s)) as [row Hrow].
    { apply elem_of_dom. rewrite <- Hdom. apply elem_of_dom. by eauto. }
    destruct (Hp s row Hrow) as (a' & Ha' & Hs'). assert (a' = a) as -> by congruence.
    pose proof Ha' as [w Hfm]%adict_argmax_first_max.
    pose proof (first_max_elem _ _ _ Hfm) as Hin.
    assert (NoDup (adict_keys row)) as Hnd.
    { rewrite (HK s row Hrow). apply zero_row_NoDup. }
    exists row, w. split; [done|]. split; [by apply adict_get_elem|].
    unfold q_to_v_table. rewrite lookup_fmap, Hrow. simpl. f_equal.
    destruct row as [|[a0 q0] rest]; [by apply elem_of_nil in Hin|].
    destruct (max_loop_row q0 rest) as [Hv Hall].
    apply (row_maximum_unique ((a0, q0) :: rest)).
    + exact Hv.
    + apply Forall_cons in Hall as [H0 Hall]. by constructor.
    + apply list_elem_of_fmap. by exists (a, w).
    + apply Forall_forall. intros [b y] Hy. simpl.
      by eapply first_max_ge.
  - intros Henv v Hv.
    pose proof (returned_goal_row_zero env alpha gamma epsilon n_steps
                  max_steps_per_episode episodes fuel g run q policy history m'
                  Henv Hrun Hval) as Hzero.
    unfold q_to_v_table in Hv. rewrite lookup_fmap in Hv.
    destruct (q !! goal_pos env) as [row|] eqn:Hrow; [|done].
    simpl in Hv. injection Hv as <-. rewrite (Hzero row Hrow).
    pose proof (zero_row_zero (action_keys env)) as Hz.
    destruct (zero_row (action_keys env)) as [|[a0 q0] rest]; [done|].
    destruct (max_loop_row q0 rest) as [Hin _].
    apply list_elem_of_fmap in Hin as ([b y] & -> & Hy). simpl.
    apply elem_of_cons in Hy as [[= _ ->]|Hy].
    + by apply Forall_cons in Hz as [? _].
    + apply Forall_cons in Hz as [_ Hz]. rewrite Forall_forall in Hz. by apply (Hz (b, y)).
Qed.

(** The policy a learner returns breaks ties in favour of the action that
    comes first: the row of a state splits at the action of the policy into
    the actions before it, all of a strictly smaller value, and the actions
    after it, none of a greater value; and the actions of the row stand in
    the order of [env.action_keys]. *)
Theorem policy_takes_the_first_maximum env alpha gamma epsilon n_steps
    max_steps_per_episode episodes fuel g run q policy history m' :
  run ∈ td_learners env alpha gamma epsilon n_steps max_steps_per_episode episodes fuel →
  run (boot g) = Val (q, policy, history) m' →
  ∀ s a, policy !! s = Some a →
    ∃ before v after,
      q !! s = Some (before ++ (a, v) :: after) ∧
      adict_keys (before ++ (a, v) :: after) = adict_keys (zero_row (action_keys env)) ∧
      Forall (fun item => (item.2 < v)%Qc) before ∧
      Forall (fun item => (item.2 <= v)%Qc) after.
Proof.
  intros Hrun Hval s a Hs.
  pose proof (final_rows_keyed env alpha gamma epsilon n_steps max_steps_per_episode
                episodes fuel g run Hrun) as HK.
  destruct (td_learners_Val _ _ _ _ _ _ _ _ _ _ _ _ _ _ Hrun Hval) as (Hq & Hp & _).
  rewrite Hval in HK. simpl in HK. rewrite <- Hq in HK.
  apply derive_policy_Ok in Hp as [Hdom Hp].
  assert (is_Some (q !! s)) as [row Hrow].
  { apply elem_of_dom. rewrite <- Hdom. apply elem_of_dom. by eauto. }
  destruct (Hp s row Hrow) as (a' & Ha' & Hs'). assert (a' = a) as -> by congruence.
  apply adict_argmax_first_max in Ha' as [v (before & after & Hd & H1 & H2)].
  exists before, v, after. rewrite <- Hd. split_and!; [done|by eapply HK|done|done].
Qed.

(** One episode of [q_learning] on [cliffwalk1]. *)
Lemma policy_takes_the_first_maximum_witness :
  ∃ q policy history m',
    q_learning Examples.env1 (Q2Qc (1 # 2)) 1%Qc (Q2Qc (1 # 10)) 1 50
      (boot Examples.to_the_goal) = Val (q, policy, history) m' ∧
    ∀ s a, policy !! s = Some a →
      ∃ before v after,
        q !! s = Some (before ++ (a, v) :: after) ∧
        adict_keys (before ++ (a, v) :: after)
        = adict_keys (zero_row (action_keys Examples.env1)) ∧
        Forall (fun item => (item.2 < v)%Qc) before ∧
        Forall (fun item => (item.2 <= v)%Qc) after.
Proof.
  assert (match q_learning Examples.env1 (Q2Qc (1 # 2)) 1%Qc (Q2Qc (1 # 10)) 1 50
                  (boot Examples.to_the_goal) with
          | Val _ _ => true
          | _ => false
          end = true) as Hrun.
  { vm_compute. reflexivity. }
  destruct (q_learning _ _ _ _ _ _ _) as [[[q policy] history] m'| |] eqn:E;
    [|discriminate Hrun..].
  exists q, policy, history, m'. split; [reflexivity|].
  apply (policy_takes_the_first_maximum Examples.env1 (Q2Qc (1 # 2)) 1%Qc
           (Q2Qc (1 # 10)) 2 50 1 50 Examples.to_the_goal
           (q_learning Examples.env1 (Q2Qc (1 # 2)) 1%Qc (Q2Qc (1 # 10)) 1 50)
           q policy history m'); [|exact E].
  apply elem_of_cons. by left.
Defined.

(** One episode of [sarsa] on [cliffwalk1]. *)
Lemma values_follow_policy_witness :
  ∃ q policy history m',
    sarsa Examples.env1 (Q2Qc (1 # 2)) 1%Qc (Q2Qc (1 # 10)) 1 50
      (boot Examples.to_the_goal) = Val (q, policy, history) m' ∧
    dom (q_to_v_table q) = dom policy ∧
    (∀ s a, policy !! s = Some a →
            ∃ row v, q !! s = Some row ∧ adict_get row a = Some v ∧
                     q_to_v_table q !! s = Some v) ∧
    (∀ v, q_to_v_table q !! goal_pos Examples.env1 = Some v → v = 0%Qc).
Proof.
  assert (match sarsa Examples.env1 (Q2Qc (1 # 2)) 1%Qc (Q2Qc (1 # 10)) 1 50
                  (boot Examples.to_the_goal) with
          | Val _ _ => true
          | _ => false
          end = true) as Hrun.
  { vm_compute. reflexivity. }
  destruct (sarsa _ _ _ _ _ _ _) as [[[q policy] history] m'| |] eqn:E;
    [|discriminate Hrun..].
  exists q, policy, history, m'. split; [reflexivity|].
  destruct (values_follow_policy Examples.env1 (Q2Qc (1 # 2)) 1%Qc
              (Q2Qc (1 # 10)) 2 50 1 50 Examples.to_the_goal
              (sarsa Examples.env1 (Q2Qc (1 # 2)) 1%Qc (Q2Qc (1 # 10)) 1 50)
              q policy history m') as (H1 & H2 & H3); [|exact E|].
  - apply elem_of_cons. right. apply elem_of_cons. by left.
  - split; [exact H1|]. split; [exact H2|]. exact (H3 CliffWalkFacts.env1_episodic).
Defined.

End ChoiceFacts.

(** ** What the history records *)

Module AccountFacts.

Import PyFacts DictFacts Homework2 Logic Spec Props MachineFacts LearnerFacts
  NStepFacts RowFacts RunFacts.

Notation anything := (fun _ : Machine => True).

Lemma wp_any_fuel {A : Type} (c : TD A) (Q : A → Machine → Prop) E F m :
  wp c Q E (fun _ => False) m → wp c Q E F m.
Proof. apply wp_mono; [done|done|by intros]. Qed.

Lemma adict_max_value_fuel (d : adict) : adict_max_value d ≠ OutOfFuel.
Proof. by destruct d as [|[? ?] ?]. Qed.

Lemma adict_argmax_fuel (d : adict) : adict_argmax d ≠ OutOfFuel.
Proof. by destruct d as [|[? ?] ?]. Qed.

Lemma expected_q_loop_fuel epsilon (row : adict) best n acts x :
  expected_q_loop epsilon row best n acts x ≠ OutOfFuel.
Proof.
  revert x. induction acts as [|a acts IH]; intros x; simpl; [done|].
  unfold adict_getitem. destruct (adict_get row a); [apply IH|done].
Qed.

Lemma ends_terminal_one x : step_done x = true → ends_terminal [x].
Proof. intros Hx. by exists x. Qed.

Lemma ends_terminal_cons x steps : ends_terminal steps → ends_terminal (x :: steps).
Proof.
  intros (y & Hy & Hd). exists y. split; [|done].
  destruct steps; [done|]. by rewrite last_cons, Hy.
Qed.

(** What an episode of [q_learning], [sarsa] or [expected_sarsa] entered
    at [state] with [total_reward] leaves: a path of steps from [state]
    that ends with its first terminal step, one update for each step, at
    the pair the step was taken with, and the rewards added up. *)
Definition walked (state : State) (total_reward : Qc)
    (U : list (State * Action * Qc))
    (S : list (State * Action * State * Qc * bool))
    (r : Qc) (m' : Machine) : Prop :=
  ∃ U' S',
    logged (U ++ U') (S ++ S') m' ∧
    update_key <$> U' = step_key <$> S' ∧
    path_from state S' ∧
    stops_at_terminal S' ∧
    ends_terminal S' ∧
    r = add_rewards total_reward S'.

Lemma walked_step state action next_state reward (d : bool) total_reward value U S r m' :
  (if d then r = (total_reward + reward)%Qc ∧
             logged (U ++ [(state, action, value)])
                    (S ++ [(state, action, next_state, reward, d)]) m'
   else walked next_state (total_reward + reward)%Qc (U ++ [(state, action, value)])
          (S ++ [(state, action, next_state, reward, d)]) r m') →
  walked state total_reward U S r m'.
Proof.
  destruct d.
  - intros [-> Hm]. exists [(state, action, value)], [(state, action, next_state, reward, true)].
    split_and!; [done|done|done| |by apply ends_terminal_one|done].
    apply stops_at_terminal_cons; [done|apply stops_at_terminal_nil].
  - intros (U2 & S2 & Hm & Hk & Hp & Hs & He & ->).
    exists ((state, action, value) :: U2), ((state, action, next_state, reward, false) :: S2).
    rewrite <- !app_assoc in Hm.
    split_and!; [done| |done| |by apply ends_terminal_cons|done].
    + by rewrite !fmap_cons, Hk.
    + by apply stops_at_terminal_cons.
Qed.

Section Walks.

Variable env : Env.
Variables alpha gamma epsilon : Qc.

Lemma q_learning_loop_walk fuel state total_reward U S m :
  logged U S m →
  wp (q_learning_loop env alpha gamma epsilon fuel state total_reward)
     (walked state total_reward U S) anything anything m.
Proof.
  revert state total_reward U S m.
  induction fuel as [|fuel IH]; intros state total_reward U S m Hm; simpl.
  - by apply wp_out_of_fuel.
  - apply wp_bind, wp_any_fuel, (log_choose _ U S); [done|done|].
    intros action m1 Hm1.
    apply wp_bind, wp_any_fuel, (log_env_step _ U S); [done|done|].
    intros next_state reward d m2 Hstep Hm2. simpl.
    apply wp_bind, wp_any_fuel, (log_q_get _ U (S ++ [(state, action, next_state, reward, d)]));
      [done|done|].
    intros old_value m3 Hm3.
    apply wp_bind, wp_any_fuel,
      (log_row_of _ U (S ++ [(state, action, next_state, reward, d)])); [done|].
    intros next_row m4 Hm4.
    apply wp_bind, wp_any_fuel, log_lift; [apply adict_max_value_fuel|done|].
    intros next_max _.
    apply wp_bind, wp_any_fuel,
      (log_q_set _ U (S ++ [(state, action, next_state, reward, d)])); [done|].
    intros m5 Hm5.
    destruct d.
    + apply wp_ret. eapply (walked_step _ _ _ _ true). by split.
    + eapply wp_mono; [| | |apply (IH next_state _ _ _ _ Hm5)]; simpl; [|done|done].
      intros r m6 Hw. by eapply (walked_step _ _ _ _ false).
Qed.

Lemma sarsa_loop_walk fuel state action total_reward U S m :
  logged U S m →
  wp (sarsa_loop env alpha gamma epsilon fuel state action total_reward)
     (walked state total_reward U S) anything anything m.
Proof.
  revert state action total_reward U S m.
  induction fuel as [|fuel IH]; intros state action total_reward U S m Hm; simpl.
  - by apply wp_out_of_fuel.
  - apply wp_bind, wp_any_fuel, (log_env_step _ U S); [done|done|].
    intros next_state reward d m1 Hstep Hm1. simpl.
    apply wp_bind, wp_any_fuel,
      (log_choose _ U (S ++ [(state, action, next_state, reward, d)])); [done|done|].
    intros next_action m2 Hm2.
    apply wp_bind, wp_any_fuel, (log_q_get _ U (S ++ [(state, action, next_state, reward, d)]));
      [done|done|].
    intros old_value m3 Hm3.
    apply wp_bind, wp_any_fuel, (log_q_get _ U (S ++ [(state, action, next_state, reward, d)]));
      [done|done|].
    intros next_value m4 Hm4.
    apply wp_bind, wp_any_fuel,
      (log_q_set _ U (S ++ [(state, action, next_state, reward, d)])); [done|].
    intros m5 Hm5.
    destruct d.
    + apply wp_ret. eapply (walked_step _ _ _ _ true). by split.
    + eapply wp_mono; [| | |apply (IH next_state _ _ _ _ _ Hm5)]; simpl; [|done|done].
      intros r m6 Hw. by eapply (walked_step _ _ _ _ false).
Qed.

Lemma expected_sarsa_loop_walk fuel state total_reward U S m :
  logged U S m →
  wp (expected_sarsa_loop env alpha gamma epsilon fuel state total_reward)
     (walked state total_reward U S) anything anything m.
Proof.
  revert state total_reward U S m.
  induction fuel as [|fuel IH]; intros state total_reward U S m Hm; simpl.
  - by apply wp_out_of_fuel.
  - apply wp_bind, wp_any_fuel, (log_choose _ U S); [done|done|].
    intros action m1 Hm1.
    apply wp_bind, wp_any_fuel, (log_env_step _ U S); [done|done|].
    intros next_state reward d m2 Hstep Hm2. simpl.
    apply wp_bind, wp_any_fuel, (log_q_get _ U (S ++ [(state, action, next_state, reward, d)]));
      [done|done|].
    intros old_value m3 Hm3.
    apply wp_bind, wp_any_fuel,
      (log_row_of _ U (S ++ [(state, action, next_state, reward, d)])); [done|].
    intros next_row m4 Hm4.
    apply wp_bind, wp_any_fuel, log_lift; [apply adict_argmax_fuel|done|].
    intros best_action _.
    apply wp_bind, wp_any_fuel, log_lift; [apply expected_q_loop_fuel|done|].
    intros expected_q _.
    apply wp_bind, wp_any_fuel,
      (log_q_set _ U (S ++ [(state, action, next_state, reward, d)])); [done|].
    intros m5 Hm5.
    destruct d.
    + apply wp_ret. eapply (walked_step _ _ _ _ true). by split.
    + eapply wp_mono; [| | |apply (IH next_state _ _ _ _ Hm5)]; simpl; [|done|done].
      intros r m6 Hw. by eapply (walked_step _ _ _ _ false).
Qed.

(** *** [n_step_sarsa] *)

Variables n_steps max_steps_per_episode : Z.

(** What the loops of an episode of [n_step_sarsa] leave: a path of steps
    and the rewards added up. *)
Definition walked_capped (state : State) (total_reward : Qc)
    (U : list (State * Action * Qc))
    (S : list (State * Action * State * Qc * bool))
    (r : Qc * deque) (m' : Machine) : Prop :=
  ∃ U' S',
    logged (U ++ U') (S ++ S') m' ∧
    path_from state S' ∧
    r.1 = add_rewards total_reward S'.

Lemma n_step_loop_walk fuel state action d step_counter total_reward trajectory U S m :
  logged U S m →
  wp (n_step_loop env alpha gamma epsilon n_steps max_steps_per_episode
        fuel state action d step_counter total_reward trajectory)
     (walked_capped state total_reward U S) anything anything m.
Proof.
  revert state action d step_counter total_reward trajectory U S m.
  induction fuel as [|fuel IH];
    intros state action d step_counter total_reward trajectory U S m Hm;
    simpl; (destruct (negb d && _) eqn:Hcond;
            [|apply wp_ret; exists [], []; by rewrite !app_nil_r]).
  - by apply wp_out_of_fuel.
  - apply wp_bind. destruct action as [a|]; [apply wp_ret|by apply wp_raise].
    apply wp_bind, wp_any_fuel, (log_env_step _ U S); [done|done|].
    intros next_state reward d' m1 Hstep Hm1. simpl.
    set (x := (state, a, next_state, reward, d')) in *.
    apply wp_bind.
    assert (wp (if negb d'
                then a' ← choose_action_e_greedy env next_state (action_keys env) epsilon;
                     mret (Some a')
                else mret None)
              (fun _ => logged U (S ++ [x])) anything anything m1) as Hchoose.
    { destruct d'; simpl; [by apply wp_ret|].
      apply wp_bind, wp_any_fuel, (log_choose _ U (S ++ [x])); [done|done|].
      intros a' m' Hm'. by apply wp_ret. }
    eapply wp_mono; [| | |exact Hchoose]; simpl; [|done|done].
    intros next_action m2 Hm2.
    apply wp_bind, wp_any_fuel.
    eapply wp_mono;
      [| | |apply (n_step_update_log env alpha gamma n_steps U (S ++ [x]) _ _ _ _ anything)];
      simpl; [|done|done|done|done].
    intros trajectory' m3 (U1 & Hm3 & _).
    eapply wp_mono; [| | |apply (IH _ _ _ _ _ _ _ _ _ Hm3)]; simpl; [|done|done].
    intros r m4 (U2 & S2 & Hm4 & Hp & Hr).
    exists (U1 ++ U2), (x :: S2). rewrite <- !app_assoc in Hm4. simpl in Hm4.
    split_and!; [done|done|done].
Qed.

Lemma drain_walk fuel trajectory U S m :
  logged U S m →
  wp (drain env alpha gamma fuel trajectory)
     (fun _ m' => ∃ U', logged (U ++ U') S m') anything anything m.
Proof.
  revert trajectory U m. induction fuel as [|fuel IH]; intros trajectory U m Hm;
    (destruct trajectory as [|[[s_tau a_tau] r_tau] rest]; simpl;
     [apply wp_ret; exists []; by rewrite app_nil_r|]).
  - by apply wp_out_of_fuel.
  - apply wp_bind, wp_any_fuel, log_lift; [apply return_loop_fuel|done|]. intros G _.
    apply wp_bind, wp_any_fuel, (log_q_get _ U S); [done|done|]. intros old_value m2 Hm2.
    apply wp_bind, wp_any_fuel, (log_q_set _ U S); [done|]. intros m3 Hm3.
    eapply wp_mono; [| | |apply (IH rest _ _ Hm3)]; simpl; [|done|done].
    intros trajectory' m4 (U' & Hm4). rewrite <- app_assoc in Hm4. by eauto.
Qed.

Lemma n_step_episode_walk fuel U S m :
  logged U S m →
  wp (n_step_episode env alpha gamma epsilon n_steps max_steps_per_episode fuel)
     (walked_capped (start_pos env) 0%Qc U S) anything anything m.
Proof.
  intros Hm. unfold n_step_episode.
  apply wp_bind, wp_any_fuel, (log_choose _ U S); [done|done|]. intros action m1 Hm1.
  apply wp_bind.
  eapply wp_mono; [| | |by apply n_step_loop_walk]; simpl; [|done|done].
  intros [total_reward trajectory] m2 (U1 & S1 & Hm2 & Hp & Hr). simpl in Hr.
  apply wp_bind.
  eapply wp_mono; [| | |by apply drain_walk]; simpl; [|done|done].
  intros trajectory' m3 (U2 & Hm3). apply wp_ret.
  exists (U1 ++ U2), S1. rewrite app_assoc. done.
Qed.

End Walks.

(** *** The episodes of a run *)

Lemma episodes_loop_account
    (P : list (State * Action * State * Qc * bool) → list (State * Action * Qc) → Prop)
    (episode : TD Qc) n history m history' m' :
  (∀ m0, wp episode
           (fun r m1 =>
              ∃ U' S', logged (update_log (events m0) ++ U') (step_log (events m0) ++ S') m1 ∧
                       P S' U' ∧ r = episode_return S')
           anything anything m0) →
  episodes_loop episode n history m = Val history' m' →
  ∃ ess Us,
    length ess = n ∧ Forall2 P ess Us ∧
    step_log (events m') = step_log (events m) ++ concat ess ∧
    update_log (events m') = update_log (events m) ++ concat Us ∧
    history' = history ++ (episode_return <$> ess).
Proof.
  intros Hep. revert history m. induction n as [|n IH]; intros history m; simpl.
  - intros [= <- <-]. exists [], []. simpl. rewrite !app_nil_r.
    split_and!; [done|constructor|done|done|done].
  - unfold mbind, td_bind, bind. specialize (Hep m) as Hm. unfold wp in Hm.
    destruct (episode m) as [r m1| |]; [|done..].
    destruct Hm as (U' & S' & [HU HS] & HP & ->).
    intros H. apply IH in H as (ess & Us & Hlen & HF & Hs & Hu & ->).
    exists (S' :: ess), (U' :: Us). simpl.
    split_and!; [by rewrite Hlen|by constructor| | |].
    + by rewrite Hs, HS, <- app_assoc.
    + by rewrite Hu, HU, <- app_assoc.
    + by rewrite <- app_assoc.
Qed.

Lemma learner_account
    (P : list (State * Action * State * Qc * bool) → list (State * Action * Qc) → Prop)
    (episode : TD Qc) n g q policy history m' :
  (∀ m0, wp episode
           (fun r m1 =>
              ∃ U' S', logged (update_log (events m0) ++ U') (step_log (events m0) ++ S') m1 ∧
                       P S' U' ∧ r = episode_return S')
           anything anything m0) →
  (history ← episodes_loop episode n []; finish history) (boot g)
  = Val (q, policy, history) m' →
  ∃ ess Us,
    length ess = n ∧ Forall2 P ess Us ∧
    step_log (events m') = concat ess ∧
    update_log (events m') = concat Us ∧
    history = episode_return <$> ess.
Proof.
  intros Hep Hval. unfold mbind, td_bind, bind in Hval.
  destruct (episodes_loop episode n [] (boot g)) as [h m1| |] eqn:E; [|done..].
  pose proof (finish_history _ _ _ _ _ _ Hval) as ->.
  apply finish_Val in Hval as (-> & _ & _).
  apply (episodes_loop_account P) in E as (ess & Us & Hlen & HF & Hs & Hu & ->); [|done].
  by exists ess, Us.
Qed.

Lemma keys_concat ess Us :
  Forall2 (fun S' U' => update_key <$> U' = step_key <$> S') ess Us →
  update_key <$> concat Us = step_key <$> concat ess.
Proof.
  induction 1 as [|S' U' ess Us Hk _ IH]; simpl; [done|].
  by rewrite !fmap_app, Hk, IH.
Qed.

(** The history that [q_learning], [sarsa] and [expected_sarsa] return
    holds the return of every episode: the steps of the run fall into one
    path per episode, which starts at [env.start_pos], goes on where the
    step before has landed and ends with its first terminal step, and the
    entry of the history is the sum of its rewards.  The updates match the
    steps one for one: the k-th update is of the pair the k-th step was
    taken with. *)
Theorem history_records_the_returns env alpha gamma epsilon episodes fuel g run
    q policy history m' :
  run ∈ [q_learning env alpha gamma epsilon episodes fuel;
         sarsa env alpha gamma epsilon episodes fuel;
         expected_sarsa env alpha gamma epsilon episodes fuel] →
  run (boot g) = Val (q, policy, history) m' →
  ∃ ess,
    length ess = episodes ∧
    step_log (events m') = concat ess ∧
    history = episode_return <$> ess ∧
    Forall (fun S' => path_from (start_pos env) S' ∧ stops_at_terminal S' ∧
                      ends_terminal S') ess ∧
    update_key <$> update_log (events m') = step_key <$> step_log (events m').
Proof.
  intros Hrun Hval.
  set (P := fun (S' : list (State * Action * State * Qc * bool))
                (U' : list (State * Action * Qc)) =>
              update_key <$> U' = step_key <$> S' ∧
              path_from (start_pos env) S' ∧ stops_at_terminal S' ∧ ends_terminal S').
  assert (∃ ess Us,
            length ess = episodes ∧ Forall2 P ess Us ∧
            step_log (events m') = concat ess ∧
            update_log (events m') = concat Us ∧
            history = episode_return <$> ess) as (ess & Us & Hlen & HF & Hs & Hu & Hh).
  { repeat (apply elem_of_cons in Hrun as [->|Hrun]); [| | |by apply elem_of_nil in Hrun].
    - apply (learner_account P _ _ _ _ _ _ _) in Hval; [done|]. intros m0.
      eapply wp_mono;
        [| | |apply (q_learning_loop_walk env alpha gamma epsilon fuel (start_pos env) 0%Qc
                       (update_log (events m0)) (step_log (events m0)) m0
                       (conj eq_refl eq_refl))];
        simpl; [|done|done].
      intros r m1 (U' & S' & Hm & Hk & Hp & Hst & He & Hr). by exists U', S'.
    - apply (learner_account P _ _ _ _ _ _ _) in Hval; [done|]. intros m0.
      unfold sarsa_episode.
      apply wp_bind, wp_any_fuel,
        (log_choose _ (update_log (events m0)) (step_log (events m0))); [done|done|].
      intros action m1 Hm1.
      eapply wp_mono;
        [| | |apply (sarsa_loop_walk env alpha gamma epsilon fuel (start_pos env) action
                       0%Qc _ _ m1 Hm1)];
        simpl; [|done|done].
      intros r m2 (U' & S' & Hm & Hk & Hp & Hst & He & Hr). by exists U', S'.
    - apply (learner_account P _ _ _ _ _ _ _) in Hval; [done|]. intros m0.
      eapply wp_mono;
        [| | |apply (expected_sarsa_loop_walk env alpha gamma epsilon fuel (start_pos env)
                       0%Qc (update_log (events m0)) (step_log (events m0)) m0
                       (conj eq_refl eq_refl))];
        simpl; [|done|done].
      intros r m1 (U' & S' & Hm & Hk & Hp & Hst & He & Hr). by exists U', S'. }
  exists ess. split_and!; [done|done|done| |].
  - clear -HF. induction HF as [|S' U' ess Us (_ & ? & ? & ?) _ IH]; constructor; done.
  - rewrite Hs, Hu. apply keys_concat.
    clear -HF. induction HF as [|S' U' ess Us (? & _) _ IH]; constructor; done.
Qed.

(** The history that [n_step_sarsa] returns holds the return of every
    episode as well: the steps of the run fall into one path per episode,
    from [env.start_pos], and the entry of the history is the sum of its
    rewards. *)
Theorem n_step_history_records_the_returns env alpha gamma epsilon n_steps
    max_steps_per_episode episodes fuel g q policy history m' :
  n_step_sarsa env alpha gamma epsilon n_steps max_steps_per_episode episodes fuel (boot g)
  = Val (q, policy, history) m' →
  ∃ ess,
    length ess = episodes ∧
    step_log (events m') = concat ess ∧
    history = episode_return <$> ess ∧
    Forall (path_from (start_pos env)) ess.
Proof.
  intros Hval.
  set (P := fun (S' : list (State * Action * State * Qc * bool))
                (U' : list (State * Action * Qc)) => path_from (start_pos env) S').
  assert (∀ m0, wp (r ← n_step_episode env alpha gamma epsilon n_steps
                          max_steps_per_episode fuel; mret r.1)
                  (fun r m1 =>
                     ∃ U' S', logged (update_log (events m0) ++ U')
                                     (step_log (events m0) ++ S') m1 ∧
                              P S' U' ∧ r = episode_return S')
                  anything anything m0) as Hep.
  { intros m0. apply wp_bind.
    eapply wp_mono;
      [| | |apply (n_step_episode_walk env alpha gamma epsilon n_steps
                     max_steps_per_episode fuel (update_log (events m0))
                     (step_log (events m0)) m0 (conj eq_refl eq_refl))];
      simpl; [|done|done].
    intros r m1 (U' & S' & Hm & Hp & Hr). apply wp_ret. by exists U', S'. }
  destruct (learner_account P _ _ _ _ _ _ _ Hep Hval)
    as (ess & Us & Hlen & HF & Hs & Hu & Hh).
  exists ess. split_and!; [done|done|done|].
  clear -HF. induction HF; constructor; done.
Qed.

(** One episode of [sarsa] on [cliffwalk1]. *)
Lemma history_records_the_returns_witness :
  ∃ q policy history m' ess,
    sarsa Examples.env1 (Q2Qc (1 # 2)) 1%Qc (Q2Qc (1 # 10)) 1 50
      (boot Examples.to_the_goal) = Val (q, policy, history) m' ∧
    length ess = 1%nat ∧
    step_log (events m') = concat ess ∧
    history = episode_return <$> ess ∧
    Forall (fun S' => path_from (start_pos Examples.env1) S' ∧ stops_at_terminal S' ∧
                      ends_terminal S') ess ∧
    update_key <$> update_log (events m') = step_key <$> step_log (events m').
Proof.
  assert (match sarsa Examples.env1 (Q2Qc (1 # 2)) 1%Qc (Q2Qc (1 # 10)) 1 50
                  (boot Examples.to_the_goal) with
          | Val _ _ => true
          | _ => false
          end = true) as Hrun.
  { vm_compute. reflexivity. }
  destruct (sarsa _ _ _ _ _ _ _) as [[[q policy] history] m'| |] eqn:E;
    [|discriminate Hrun..].
  destruct (history_records_the_returns Examples.env1 (Q2Qc (1 # 2)) 1%Qc
              (Q2Qc (1 # 10)) 1 50 Examples.to_the_goal
              (sarsa Examples.env1 (Q2Qc (1 # 2)) 1%Qc (Q2Qc (1 # 10)) 1 50)
              q policy history m') as (ess & H); [|exact E|].
  - apply elem_of_cons. right. apply elem_of_cons. by left.
  - exists q, policy, history, m', ess. split; [reflexivity|exact H].
Defined.

(** One episode of 2-step SARSA on [cliffwalk1]. *)
Lemma n_step_history_records_the_returns_witness :
  ∃ q policy history m' ess,
    n_step_sarsa Examples.env1 (Q2Qc (1 # 2)) 1%Qc (Q2Qc (1 # 10)) 2 50 1 50
      (boot Examples.to_the_goal) = Val (q, policy, history) m' ∧
    length ess = 1%nat ∧
    step_log (events m') = concat ess ∧
    history = episode_return <$> ess ∧
    Forall (path_from (start_pos Examples.env1)) ess.
Proof.
  assert (match n_step_sarsa Examples.env1 (Q2Qc (1 # 2)) 1%Qc (Q2Qc (1 # 10)) 2 50 1 50
                  (boot Examples.to_the_goal) with
          | Val _ _ => true
          | _ => false
          end = true) as Hrun.
  { vm_compute. reflexivity. }
  destruct (n_step_sarsa _ _ _ _ _ _ _ _ _) as [[[q policy] history] m'| |] eqn:E;
    [|discriminate Hrun..].
  destruct (n_step_history_records_the_returns Examples.env1 (Q2Qc (1 # 2)) 1%Qc
              (Q2Qc (1 # 10)) 2 50 1 50 Examples.to_the_goal
              q policy history m' E) as (ess & H).
  exists q, policy, history, m', ess. split; [reflexivity|exact H].
Defined.

End AccountFacts.

(** ** When nothing is learned *)

Module ZeroFacts.

Import PyFacts DictFacts Homework2 Logic Spec Props MachineFacts LearnerFacts
  NStepFacts RowFacts AccountFacts.

Lemma adict_set_same (d : adict) a x : adict_get d a = Some x → adict_set d a x = d.
Proof.
  induction d as [|[k y] d IH]; simpl; [done|].
  destruct (String.eqb_spec k a) as [->|Hne]; [by intros [= ->]|].
  intros H. by rewrite IH.
Qed.

Section Zero.

Variable env : Env.

Notation zero := (zero_row (action_keys env)).
Notation Z0 := (fun m : Machine => rows_zero env (q_table m)).

Lemma zero_value a x : adict_get zero a = Some x → x = 0%Qc.
Proof.
  intros Hg. pose proof (zero_row_zero (action_keys env)) as Hz.
  apply adict_get_elem in Hg; [|apply zero_row_NoDup].
  unfold all_zero in Hz. rewrite Forall_forall in Hz. apply (Hz _ Hg).
Qed.

Lemma zero_max q : adict_max_value zero = Ok q → q = 0%Qc.
Proof.
  intros H. pose proof (adict_max_value_ok zero) as Hmax. rewrite H in Hmax.
  destruct Hmax as (_ & ([a x] & -> & Hin)%list_elem_of_fmap & _).
  pose proof (zero_row_zero (action_keys env)) as Hz.
  unfold all_zero in Hz. rewrite Forall_forall in Hz. apply (Hz _ Hin).
Qed.

Lemma zero_row_at s m : Z0 m → row_at env s m = zero.
Proof.
  intros Hm. unfold row_at. destruct (q_table m !! s) as [row|] eqn:Hs; simpl; [|done].
  by eapply Hm.
Qed.

Lemma zero_touch s m : Z0 m → Z0 (touch env s m).
Proof.
  intros Hm s' row Hrow. destruct (decide (s' = s)) as [->|Hne].
  - rewrite touch_lookup in Hrow. injection Hrow as <-. by apply zero_row_at.
  - rewrite touch_lookup_ne in Hrow by done. by eapply Hm.
Qed.

Lemma zero_write s a m :
  is_Some (adict_get zero a) → Z0 m → Z0 (write env s a 0%Qc m).
Proof.
  intros [x Hx] Hm s' row. cbn [write add_event set_table q_table].
  destruct (decide (s' = s)) as [->|Hne].
  - rewrite lookup_insert_eq. intros [= <-]. rewrite zero_row_at by done.
    apply adict_set_same. rewrite Hx. f_equal. by eapply zero_value.
  - rewrite lookup_insert_ne by done. apply Hm.
Qed.

(** *** Rules *)

Lemma rz_choose state actions epsilon (Q : Action → Machine → Prop) m :
  Z0 m → (∀ a m', Z0 m' → Q a m') →
  wp (choose_action_e_greedy env state actions epsilon) Q Z0 Z0 m.
Proof.
  intros Hm HQ. apply wp_choose.
  - intros a g _. by apply HQ.
  - intros a g _. apply HQ. by apply (zero_touch state).
  - by intros g.
  - intros g. by apply (zero_touch state).
Qed.

Lemma rz_env_step state action (Q : State * Qc * bool → Machine → Prop) m :
  Z0 m →
  (∀ next_state reward d m',
     step env state action = Return (next_state, reward, d) →
     Z0 m' → Q (next_state, reward, d) m') →
  wp (env_step env state action) Q Z0 Z0 m.
Proof.
  intros Hm HQ. apply wp_env_step.
  destruct (step env state action) as [[[next_state reward] d]|] eqn:Hs; [|done].
  by apply HQ.
Qed.

Lemma rz_row_of state (Q : adict → Machine → Prop) m :
  Z0 m → (∀ m', Z0 m' → Q zero m') → wp (row_of env state) Q Z0 Z0 m.
Proof.
  intros Hm HQ. apply wp_row_of. rewrite zero_row_at by done.
  apply HQ. by apply zero_touch.
Qed.

Lemma rz_q_get state action (Q : Qc → Machine → Prop) m :
  Z0 m → (∀ m', is_Some (adict_get zero action) → Z0 m' → Q 0%Qc m') →
  wp (q_get env state action) Q Z0 Z0 m.
Proof.
  intros Hm HQ. apply wp_q_get. rewrite zero_row_at by done.
  destruct (adict_get zero action) as [x|] eqn:Hx; [|by apply zero_touch].
  rewrite (zero_value _ _ Hx). apply HQ; [by eauto|by apply zero_touch].
Qed.

Lemma rz_q_set state action value (Q : unit → Machine → Prop) m :
  Z0 m → is_Some (adict_get zero action) → value = 0%Qc →
  (∀ m', Z0 m' → Q tt m') →
  wp (q_set env state action value) Q Z0 Z0 m.
Proof. intros Hm Ha -> HQ. apply wp_q_set, HQ. by apply zero_write. Qed.

Lemma rz_max (Q : Qc → Machine → Prop) m :
  Z0 m → Q 0%Qc m → wp (lift (adict_max_value zero)) Q Z0 Z0 m.
Proof.
  intros Hm HQ. apply wp_lift.
  destruct (adict_max_value zero) as [q| |] eqn:Hq; [|done|].
  - by rewrite (zero_max q Hq).
  - by destruct zero as [|[? ?] ?].
Qed.

Lemma expected_q_loop_zero epsilon best n acts x y :
  expected_q_loop epsilon zero best n acts x = Ok y → y = x.
Proof.
  revert x. induction acts as [|a acts IH]; intros x; simpl; [by intros [= <-]|].
  unfold adict_getitem. destruct (adict_get zero a) as [q|] eqn:Hq; [|done]. simpl.
  rewrite (zero_value _ _ Hq). intros H%IH. rewrite H. ring.
Qed.

(** *** The learners *)

Section Parameters.

Variables alpha gamma epsilon : Qc.

(** Nothing can be learned: the learning rate is zero, or every reward
    is. *)
Definition numb : Prop := alpha = 0%Qc ∨ reward_free env.

Lemma numb_value state action next_state reward d next_value :
  numb → step env state action = Return (next_state, reward, d) →
  next_value = 0%Qc →
  (0 + alpha * (reward + gamma * next_value - 0) = 0)%Qc.
Proof.
  intros [->|Hr] Hs ->; [ring|]. rewrite (Hr _ _ _ _ _ Hs). ring.
Qed.

Lemma q_learning_loop_zero fuel state total_reward m :
  numb → Z0 m →
  wp (q_learning_loop env alpha gamma epsilon fuel state total_reward)
     (fun _ => Z0) Z0 Z0 m.
Proof.
  intros Hn. revert state total_reward m.
  induction fuel as [|fuel IH]; intros state total_reward m Hm; simpl.
  - by apply wp_out_of_fuel.
  - apply wp_bind, rz_choose; [done|]. intros action m1 Hm1.
    apply wp_bind, rz_env_step; [done|].
    intros next_state reward d m2 Hstep Hm2. simpl.
    apply wp_bind, rz_q_get; [done|]. intros m3 Ha Hm3.
    apply wp_bind, rz_row_of; [done|]. intros m4 Hm4.
    apply wp_bind, rz_max; [done|].
    apply wp_bind, rz_q_set; [done|done|by eapply numb_value|]. intros m5 Hm5.
    destruct d; [by apply wp_ret|]. by apply IH.
Qed.

Lemma sarsa_loop_zero fuel state action total_reward m :
  numb → Z0 m →
  wp (sarsa_loop env alpha gamma epsilon fuel state action total_reward)
     (fun _ => Z0) Z0 Z0 m.
Proof.
  intros Hn. revert state action total_reward m.
  induction fuel as [|fuel IH]; intros state action total_reward m Hm; simpl.
  - by apply wp_out_of_fuel.
  - apply wp_bind, rz_env_step; [done|].
    intros next_state reward d m1 Hstep Hm1. simpl.
    apply wp_bind, rz_choose; [done|]. intros next_action m2 Hm2.
    apply wp_bind, rz_q_get; [done|]. intros m3 Ha Hm3.
    apply wp_bind, rz_q_get; [done|]. intros m4 Hna Hm4.
    apply wp_bind, rz_q_set; [done|done|by eapply numb_value|]. intros m5 Hm5.
    destruct d; [by apply wp_ret|]. by apply IH.
Qed.

Lemma expected_sarsa_loop_zero fuel state total_reward m :
  numb → Z0 m →
  wp (expected_sarsa_loop env alpha gamma epsilon fuel state total_reward)
     (fun _ => Z0) Z0 Z0 m.
Proof.
  intros Hn. revert state total_reward m.
  induction fuel as [|fuel IH]; intros state total_reward m Hm; simpl.
  - by apply wp_out_of_fuel.
  - apply wp_bind, rz_choose; [done|]. intros action m1 Hm1.
    apply wp_bind, rz_env_step; [done|].
    intros next_state reward d m2 Hstep Hm2. simpl.
    apply wp_bind, rz_q_get; [done|]. intros m3 Ha Hm3.
    apply wp_bind, rz_row_of; [done|]. intros m4 Hm4.
    apply wp_bind, wp_lift.
    destruct (adict_argmax zero) as [best_action| |] eqn:Hb; [|done|];
      [|by destruct zero as [|[? ?] ?]].
    apply wp_bind, wp_lift.
    destruct (expected_q_loop epsilon zero best_action (length (action_keys env))
                (action_keys env) 0%Qc) as [expected_q| |] eqn:Hx;
      [|done|by apply expected_q_loop_fuel in Hx].
    apply expected_q_loop_zero in Hx.
    apply wp_bind, rz_q_set; [done|done|by eapply numb_value|]. intros m5 Hm5.
    destruct d; [by apply wp_ret|]. by apply IH.
Qed.

(** *** [n_step_sarsa] *)

Variables n_steps max_steps_per_episode : Z.

(** The buffer cannot teach anything: the learning rate is zero, or every
    reward of the environment is and so are those of the buffer, or
    [n_steps <= 0] and the buffer holds what [holds] says. *)
Definition quiet (holds : deque → Prop) (trajectory : deque) : Prop :=
  alpha = 0%Qc ∨
  (reward_free env ∧ Forall (fun entry => entry.2 = 0%Qc) trajectory) ∨
  ((n_steps <= 0)%Z ∧ holds trajectory).

Lemma return_loop_silent (trajectory : deque) i n G G' :
  Forall (fun entry => entry.2 = 0%Qc) trajectory →
  return_loop gamma trajectory i n G = Ok G' → G' = G.
Proof.
  intros Hz. revert i G. induction n as [|n IH]; intros i G; simpl; [by intros [= <-]|].
  destruct (trajectory !! i) as [[[s a] r]|] eqn:Hi; [|done].
  rewrite Forall_forall in Hz.
  assert (r = 0%Qc) as -> by (apply (Hz (s, a, r)); by eapply list_elem_of_lookup_2).
  intros H%IH. rewrite H. ring.
Qed.

Lemma n_step_update_zero trajectory next_state next_action d m :
  quiet (fun t => ∃ x, t = [x]) trajectory → Z0 m →
  wp (n_step_update env alpha gamma n_steps trajectory next_state next_action d)
     (fun trajectory' m' => Z0 m' ∧ quiet (fun t => t = []) trajectory') Z0 Z0 m.
Proof.
  intros Hq Hm. unfold n_step_update.
  destruct (n_steps <=? _)%Z eqn:Hle.
  2:{ apply wp_ret. split; [done|]. apply Z.leb_gt in Hle.
      destruct Hq as [?|[?|[? _]]]; [by left|by right; left|lia]. }
  destruct trajectory as [|[[s_tau a_tau] r_tau] rest]; [by apply wp_raise|].
  apply wp_bind, wp_lift.
  destruct (return_loop gamma ((s_tau, a_tau, r_tau) :: rest) 0 (Z.to_nat n_steps) 0%Qc)
    as [G| |] eqn:HG; [|done|by apply return_loop_fuel in HG].
  assert (alpha = 0%Qc ∨ G = 0%Qc) as HG0.
  { destruct Hq as [?|[[_ Hz]|[Hn _]]]; [by left|right|right].
    - by eapply return_loop_silent.
    - replace (Z.to_nat n_steps) with 0%nat in HG by lia. simpl in HG. by injection HG. }
  apply wp_bind.
  assert (wp (if negb d
              then p ← lift (pypow gamma n_steps);
                   next_row ← row_of env next_state;
                   match next_action with
                   | Some a => q ← lift (adict_getitem next_row a); mret (G + p * q)%Qc
                   | None => raise KeyError
                   end
              else mret G)
            (fun G' m' => Z0 m' ∧ (alpha = 0%Qc ∨ G' = 0%Qc)) Z0 Z0 m) as Hboot.
  { destruct d; simpl; [by apply wp_ret|].
    apply wp_bind, wp_lift. destruct (pypow gamma n_steps) as [p| |] eqn:Hp;
      [|done|by apply pypow_fuel in Hp].
    apply wp_bind, rz_row_of; [done|]. intros m1 Hm1.
    destruct next_action as [a|]; [|by apply wp_raise].
    apply wp_bind, wp_lift. unfold adict_getitem.
    destruct (adict_get zero a) as [q|] eqn:Hq'; [|done].
    apply wp_ret. split; [done|]. destruct HG0 as [?| -> ]; [by left|right].
    rewrite (zero_value _ _ Hq'). ring. }
  eapply wp_mono; [| | |exact Hboot]; simpl; [|done|done].
  intros G' m1 [Hm1 HG'].
  apply wp_bind, rz_q_get; [done|]. intros m2 Ha Hm2.
  apply wp_bind, rz_q_set; [done|done| |].
  { destruct HG' as [ -> | -> ]; ring. }
  intros m3 Hm3. apply wp_ret. split; [done|].
  destruct Hq as [?|[[Hr Hz]|[Hn [x Hx]]]]; [by left|right; left|right; right].
  - split; [done|]. by apply Forall_cons in Hz as [_ ?].
  - split; [done|]. by injection Hx as _ ->.
Qed.

Lemma n_step_loop_zero fuel state action d step_counter total_reward trajectory m :
  quiet (fun t => t = []) trajectory → Z0 m →
  wp (n_step_loop env alpha gamma epsilon n_steps max_steps_per_episode
        fuel state action d step_counter total_reward trajectory)
     (fun r m' => Z0 m' ∧ quiet (fun t => t = []) r.2) Z0 Z0 m.
Proof.
  revert state action d step_counter total_reward trajectory m.
  induction fuel as [|fuel IH];
    intros state action d step_counter total_reward trajectory m Ht Hm;
    simpl; (destruct (negb d && _) eqn:Hcond; [|by apply wp_ret]).
  - by apply wp_out_of_fuel.
  - apply wp_bind. destruct action as [a|]; [apply wp_ret|by apply wp_raise].
    apply wp_bind, rz_env_step; [done|].
    intros next_state reward d' m1 Hstep Hm1. simpl.
    apply wp_bind.
    assert (wp (if negb d'
                then a' ← choose_action_e_greedy env next_state (action_keys env) epsilon;
                     mret (Some a')
                else mret None) (fun _ => Z0) Z0 Z0 m1) as Hchoose.
    { destruct d'; simpl; [by apply wp_ret|].
      apply wp_bind, rz_choose; [done|]. intros a' m2 Hm2. by apply wp_ret. }
    eapply wp_mono; [| | |exact Hchoose]; simpl; [|done|done].
    intros next_action m2 Hm2.
    apply wp_bind.
    eapply wp_mono; [| | |apply n_step_update_zero]; simpl; [|done|done| |done].
    + intros trajectory' m3 [Hm3 Ht']. by apply IH.
    + destruct Ht as [?|[[Hr Hz]|[Hle ->]]]; [by left| |right; right; by eauto].
      right. left. split; [done|]. apply Forall_app. split; [done|].
      constructor; [|done]. simpl. by eapply Hr.
Qed.

Lemma drain_zero fuel trajectory m :
  quiet (fun t => t = []) trajectory → Z0 m →
  wp (drain env alpha gamma fuel trajectory) (fun _ => Z0) Z0 Z0 m.
Proof.
  revert trajectory m. induction fuel as [|fuel IH]; intros trajectory m Ht Hm;
    (destruct trajectory as [|[[s_tau a_tau] r_tau] rest]; cbn [drain];
     [by apply wp_ret|]).
  - by apply wp_out_of_fuel.
  - apply wp_bind, wp_lift.
    destruct (return_loop gamma ((s_tau, a_tau, r_tau) :: rest) 0
                (length ((s_tau, a_tau, r_tau) :: rest)) 0%Qc)
      as [G| |] eqn:HG; [|done|by apply return_loop_fuel in HG].
    assert (alpha = 0%Qc ∨ G = 0%Qc) as HG0.
    { destruct Ht as [?|[[_ Hz]|[_ [=]]]]; [by left|right].
      by apply (return_loop_silent ((s_tau, a_tau, r_tau) :: rest) 0
                  (length ((s_tau, a_tau, r_tau) :: rest)) 0%Qc). }
    apply wp_bind, rz_q_get; [done|]. intros m2 Ha Hm2.
    apply wp_bind, rz_q_set; [done|done| |].
    { destruct HG0 as [ -> | -> ]; ring. }
    intros m3 Hm3. apply IH; [|done].
    destruct Ht as [?|[[Hr Hz]|[_ [=]]]]; [by left|right; left].
    split; [done|]. by apply Forall_cons in Hz as [_ ?].
Qed.

Lemma n_step_episode_zero fuel m :
  numb ∨ (n_steps <= 0)%Z → Z0 m →
  wp (n_step_episode env alpha gamma epsilon n_steps max_steps_per_episode fuel)
     (fun _ => Z0) Z0 Z0 m.
Proof.
  intros Hn Hm. unfold n_step_episode.
  apply wp_bind, rz_choose; [done|]. intros action m1 Hm1. apply wp_bind.
  eapply wp_mono; [| | |apply n_step_loop_zero]; simpl; [|done|done| |done].
  - intros [total_reward trajectory] m2 [Hm2 Ht]. simpl in Ht.
    apply wp_bind. eapply wp_mono; [| | |by apply drain_zero]; simpl; [|done|done].
    intros trajectory' m3 Hm3. by apply wp_ret.
  - destruct Hn as [[?|?]|?]; [by left|right; left; by split|right; right; by split].
Qed.

End Parameters.

End Zero.

Lemma boot_zero env g : rows_zero env (q_table (boot g)).
Proof. intros s row Hrow. simpl in Hrow. by rewrite lookup_empty in Hrow. Qed.

Lemma final_rows_zero env alpha gamma epsilon n_steps max_steps_per_episode
    episodes fuel g run :
  (alpha = 0%Qc ∨ reward_free env) ∨
  ((n_steps <= 0)%Z ∧
   run = n_step_sarsa env alpha gamma epsilon n_steps max_steps_per_episode episodes fuel) →
  run ∈ td_learners env alpha gamma epsilon n_steps max_steps_per_episode episodes fuel →
  rows_zero env (q_table (final (run (boot g)))).
Proof.
  intros Hn Hrun.
  assert (∀ episode n,
            (∀ m, rows_zero env (q_table m) →
                  wp episode (fun _ m' => rows_zero env (q_table m'))
                     (fun m' => rows_zero env (q_table m'))
                     (fun m' => rows_zero env (q_table m')) m) →
            rows_zero env
              (q_table (final ((history ← episodes_loop episode n []; finish history)
                                 (boot g))))) as Hlearner.
  { intros episode n Hep.
    apply (learner_inv (fun m => rows_zero env (q_table m))); [done|apply boot_zero]. }
  destruct Hn as [Hn|[Hle ->]].
  - unfold td_learners in Hrun.
    repeat (apply elem_of_cons in Hrun as [->|Hrun]); [| | | |by apply elem_of_nil in Hrun].
    + apply Hlearner. intros m Hm. by apply q_learning_loop_zero.
    + apply Hlearner. intros m Hm. unfold sarsa_episode.
      apply wp_bind, rz_choose; [done|]. intros action m1 Hm1.
      by apply sarsa_loop_zero.
    + apply Hlearner. intros m Hm. by apply expected_sarsa_loop_zero.
    + apply Hlearner. intros m Hm. apply wp_bind.
      eapply wp_mono; [| | |apply n_step_episode_zero]; simpl; [|done|done|by left|done].
      intros r m2 Hm2. by apply wp_ret.
  - apply Hlearner. intros m Hm. apply wp_bind.
    eapply wp_mono; [| | |apply n_step_episode_zero]; simpl; [|done|done|by right|done].
    intros r m2 Hm2. by apply wp_ret.
Qed.

Lemma zero_table_policy env alpha gamma epsilon n_steps max_steps_per_episode
    episodes fuel run m q policy history m' :
  run ∈ td_learners env alpha gamma epsilon n_steps max_steps_per_episode episodes fuel →
  run m = Val (q, policy, history) m' →
  rows_zero env q →
  ∀ s a0 acts, action_keys env = a0 :: acts → s ∈ dom q → policy !! s = Some a0.
Proof.
  intros Hrun Hval Hz s a0 acts Hk Hs.
  destruct (td_learners_Val _ _ _ _ _ _ _ _ _ _ _ _ _ _ Hrun Hval) as (_ & Hp & _).
  apply derive_policy_Ok in Hp as [_ Hp].
  apply elem_of_dom in Hs as [row Hrow].
  destruct (Hp s row Hrow) as (a & Ha & ->).
  rewrite (Hz s row Hrow), Hk, argmax_zero_row in Ha. by injection Ha as <-.
Qed.

(** With a learning rate of zero, or in an environment whose every reward
    is zero, the four learners learn nothing: in the machine a learner
    stops in, every row of the Q-table is still the row of zeros, and the
    returned policy maps every state of the table to the first action of
    [env.action_keys]. *)
Theorem nothing_is_learned env alpha gamma epsilon n_steps max_steps_per_episode
    episodes fuel g run :
  alpha = 0%Qc ∨ reward_free env →
  run ∈ td_learners env alpha gamma epsilon n_steps max_steps_per_episode episodes fuel →
  rows_zero env (q_table (final (run (boot g)))) ∧
  ∀ q policy history m',
    run (boot g) = Val (q, policy, history) m' →
    rows_zero env q ∧
    ∀ s a0 acts, action_keys env = a0 :: acts → s ∈ dom q → policy !! s = Some a0.
Proof.
  intros Hn Hrun.
  pose proof (final_rows_zero env alpha gamma epsilon n_steps max_steps_per_episode
                episodes fuel g run (or_introl Hn) Hrun) as Hz.
  split; [done|]. intros q policy history m' Hval.
  destruct (td_learners_Val _ _ _ _ _ _ _ _ _ _ _ _ _ _ Hrun Hval) as (Hq & _ & _).
  rewrite Hval in Hz. simpl in Hz. rewrite <- Hq in Hz. split; [done|].
  by eapply zero_table_policy.
Qed.

(** With [n_steps <= 0] the update of [n_step_sarsa] sums no reward at
    all: its target is the bootstrap value alone, and the buffer is
    emptied at every step.  So whatever the rewards and the learning rate,
    every row of the Q-table stays the row of zeros, and the returned
    policy maps every state of the table to the first action of
    [env.action_keys]. *)
Theorem zero_steps_learn_nothing env alpha gamma epsilon n_steps max_steps_per_episode
    episodes fuel g :
  (n_steps <= 0)%Z →
  rows_zero env
    (q_table (final (n_step_sarsa env alpha gamma epsilon n_steps max_steps_per_episode
                       episodes fuel (boot g)))) ∧
  ∀ q policy history m',
    n_step_sarsa env alpha gamma epsilon n_steps max_steps_per_episode episodes fuel
      (boot g) = Val (q, policy, history) m' →
    rows_zero env q ∧
    ∀ s a0 acts, action_keys env = a0 :: acts → s ∈ dom q → policy !! s = Some a0.
Proof.
  intros Hle.
  assert (n_step_sarsa env alpha gamma epsilon n_steps max_steps_per_episode episodes fuel
          ∈ td_learners env alpha gamma epsilon n_steps max_steps_per_episode
              episodes fuel) as Hrun.
  { unfold td_learners. set_solver. }
  pose proof (final_rows_zero env alpha gamma epsilon n_steps max_steps_per_episode
                episodes fuel g _ (or_intror (conj Hle eq_refl)) Hrun) as Hz.
  split; [done|]. intros q policy history m' Hval.
  destruct (td_learners_Val _ _ _ _ _ _ _ _ _ _ _ _ _ _ Hrun Hval) as (Hq & _ & _).
  rewrite Hval in Hz. simpl in Hz. rewrite <- Hq in Hz. split; [done|].
  by eapply zero_table_policy.
Qed.

(** One episode of [sarsa] on [cliffwalk1] with a learning rate of zero. *)
Lemma nothing_is_learned_witness :
  ∃ q policy history m',
    sarsa Examples.env1 0%Qc 1%Qc (Q2Qc (1 # 10)) 1 50
      (boot Examples.to_the_goal) = Val (q, policy, history) m' ∧
    rows_zero Examples.env1 q ∧
    ∀ s, s ∈ dom q → policy !! s = Some "N"%string.
Proof.
  assert (match sarsa Examples.env1 0%Qc 1%Qc (Q2Qc (1 # 10)) 1 50
                  (boot Examples.to_the_goal) with
          | Val _ _ => true
          | _ => false
          end = true) as Hrun.
  { vm_compute. reflexivity. }
  destruct (sarsa _ _ _ _ _ _ _) as [[[q policy] history] m'| |] eqn:E;
    [|discriminate Hrun..].
  destruct (nothing_is_learned Examples.env1 0%Qc 1%Qc (Q2Qc (1 # 10)) 2 50 1 50
              Examples.to_the_goal
              (sarsa Examples.env1 0%Qc 1%Qc (Q2Qc (1 # 10)) 1 50)) as [_ H].
  - left. reflexivity.
  - apply elem_of_cons. right. apply elem_of_cons. by left.
  - destruct (H q policy history m' E) as [Hz Hp].
    exists q, policy, history, m'. split; [reflexivity|]. split; [exact Hz|].
    intros s Hs. apply (Hp s "N"%string ["S"; "W"; "E"]%string); [reflexivity|exact Hs].
Defined.

(** One episode of [n_step_sarsa] on [cliffwalk1] with [n_steps = 0], a
    learning rate of one half and rewards of minus one. *)
Lemma zero_steps_learn_nothing_witness :
  ∃ q policy history m',
    n_step_sarsa Examples.env1 (Q2Qc (1 # 2)) 1%Qc (Q2Qc (1 # 10)) 0 50 1 50
      (boot Examples.to_the_goal) = Val (q, policy, history) m' ∧
    rows_zero Examples.env1 q ∧
    ∀ s, s ∈ dom q → policy !! s = Some "N"%string.
Proof.
  assert (match n_step_sarsa Examples.env1 (Q2Qc (1 # 2)) 1%Qc (Q2Qc (1 # 10)) 0 50 1 50
                  (boot Examples.to_the_goal) with
          | Val _ _ => true
          | _ => false
          end = true) as Hrun.
  { vm_compute. reflexivity. }
  destruct (n_step_sarsa _ _ _ _ _ _ _ _ _) as [[[q policy] history] m'| |] eqn:E;
    [|discriminate Hrun..].
  destruct (zero_steps_learn_nothing Examples.env1 (Q2Qc (1 # 2)) 1%Qc (Q2Qc (1 # 10))
              0 50 1 50 Examples.to_the_goal) as [_ H]; [lia|].
  destruct (H q policy history m' E) as [Hz Hp].
  exists q, policy, history, m'. split; [reflexivity|]. split; [exact Hz|].
  intros s Hs. apply (Hp s "N"%string ["S"; "W"; "E"]%string); [reflexivity|exact Hs].
Defined.

End ZeroFacts.

(** ** How ties are broken *)

Module TieFacts.

Import PyFacts DictFacts Homework1 Spec Props Homework1Facts SolverFacts PolicyFacts
  ProgressFacts.

Section Ties.

Variable env : Env.
Variable gamma : Qc.

Lemma action_values_loop_keys v s acts d0 d :
  NoDup (adict_keys d0 ++ acts) →
  action_values_loop env gamma v s acts d0 = Ok d →
  adict_keys d = adict_keys d0 ++ acts.
Proof.
  revert d0. induction acts as [|a acts IH]; intros d0 Hnd H; simpl in H.
  - injection H as <-. by rewrite app_nil_r.
  - unbind H as q E.
    assert (adict_keys (adict_set d0 a q) = adict_keys d0 ++ [a]) as Hk.
    { destruct (adict_keys_set d0 a q) as [Heq|[_ Heq]]; [|done].
      exfalso. apply NoDup_app in Hnd as (_ & Hdis & _).
      assert (a ∈ adict_keys d0) as Hin.
      { rewrite Heq. apply adict_keys_set_elem. by right. }
      apply (Hdis a Hin). by left. }
    rewrite (IH _ ltac:(by rewrite Hk, <- app_assoc) H), Hk, <- app_assoc. done.
Qed.

(** [max(action_values, key=action_values.get)] takes the first of the
    greedy actions, in the order of [env.action_keys]. *)
Lemma best_action_of_first v s a :
  NoDup (action_keys env) →
  best_action_of env gamma v s = Ok a → first_greedy env gamma v s a.
Proof.
  intros Hnd H. unfold best_action_of in H. unbind H as d Ed.
  pose proof (action_values_loop_keys v s (action_keys env) [] d Hnd Ed) as Hk.
  simpl in Hk.
  destruct (action_values_loop_spec env gamma v s (action_keys env) [] d)
    as (Hndd & _ & Hq & _); [apply NoDup_nil_2|done|].
  apply adict_argmax_first_max in H as [q (d1 & d2 & Hd & H1 & H2)].
  assert (∀ a' x, (a', x) ∈ d → q_value env gamma v s a' = Ok x) as Hval.
  { intros a' x Hin.
    assert (a' ∈ action_keys env) as Ha'.
    { rewrite <- Hk. unfold adict_keys. apply list_elem_of_fmap. by exists (a', x). }
    destruct (Hq a' Ha') as (x' & Hx' & Hget).
    apply (adict_get_elem _ _ _ Hndd) in Hin. congruence. }
  assert (action_keys env = adict_keys d1 ++ a :: adict_keys d2) as Hkeys.
  { rewrite <- Hk, Hd. unfold adict_keys. by rewrite fmap_app, fmap_cons. }
  exists (length d1), q. split_and!.
  - rewrite Hkeys. unfold adict_keys.
    rewrite lookup_app_r by by rewrite length_fmap.
    rewrite length_fmap, Nat.sub_diag. done.
  - apply Hval. rewrite Hd. apply elem_of_app. right. by left.
  - intros j a' q' Hj Hq'. split; intros Hlt.
    + rewrite Hkeys in Hj. unfold adict_keys in Hj.
      rewrite lookup_app_l in Hj by by rewrite length_fmap.
      rewrite list_lookup_fmap in Hj.
      destruct (d1 !! j) as [[b x]|] eqn:Hb; [|done]. simpl in Hj. injection Hj as ->.
      apply list_elem_of_lookup_2 in Hb.
      assert (q_value env gamma v s a' = Ok x) as Hx.
      { apply Hval. rewrite Hd. apply elem_of_app. by left. }
      assert (x = q') as -> by congruence.
      rewrite Forall_forall in H1. apply (H1 _ Hb).
    + rewrite Hkeys in Hj. unfold adict_keys in Hj.
      rewrite lookup_app_r in Hj by (rewrite length_fmap; lia).
      rewrite length_fmap in Hj.
      destruct (j - length d1)%nat as [|k] eqn:Hk'; [lia|]. simpl in Hj.
      rewrite list_lookup_fmap in Hj.
      destruct (d2 !! k) as [[b x]|] eqn:Hb; [|done]. simpl in Hj. injection Hj as ->.
      apply list_elem_of_lookup_2 in Hb.
      assert (q_value env gamma v s a' = Ok x) as Hx.
      { apply Hval. rewrite Hd. apply elem_of_app. right. by right. }
      assert (x = q') as -> by congruence.
      rewrite Forall_forall in H2. apply (H2 _ Hb).
Qed.

(** *** The sweeps that set the policy *)

Lemma vi_sweep_best v_old_iter ss v policy delta v' policy' delta' :
  vi_sweep env gamma v_old_iter ss v policy delta = Ok (v', policy', delta') →
  ∀ s, s ∈ ss → s ≠ goal_pos env →
       ∃ a, policy' !! s = Some a ∧ best_action_of env gamma v_old_iter s = Ok a.
Proof.
  revert v policy delta.
  induction ss as [|s0 ss IH]; intros v policy delta H; simpl in H.
  - by intros ? ?%elem_of_nil.
  - case_decide as Hg.
    + intros s [->|Hin]%elem_of_cons Hne; [done|by eapply IH].
    + unbind H as v_old Ev. unbind H as action_values E0.
      unbind H as best_action E1. unbind H as q E2. unbind H as v_s E3.
      pose proof (vi_sweep_spec env gamma _ _ _ _ _ _ _ _ H) as [_ Hkeep].
      intros s Hin Hne. destruct (decide (s ∈ ss)) as [Hin'|Hnin]; [by eapply IH|].
      apply elem_of_cons in Hin as [->|?]; [|done].
      exists best_action. split.
      * destruct (Hkeep s0) as [_ ->]; [by left|]. apply lookup_insert_eq.
      * unfold best_action_of. by rewrite (bind_eq _ _ _ E0).
Qed.

Lemma pi_loop_last_improvement fuel eval_fuel theta V policy history v policy' history' :
  pi_loop env gamma fuel eval_fuel theta V policy history = Ok (v, policy', history') →
  ∃ policy_prev,
    improve_sweep env gamma v (states env) policy_prev true = Ok (policy', true).
Proof.
  revert V policy history.
  induction fuel as [|fuel IH]; intros V policy history H; [done|].
  simpl in H. unbind H as V1 Ev. unbind H as [policy1 stable] Ei.
  destruct stable; [|by eapply IH].
  injection H as <- <- <-. by eauto.
Qed.

Lemma tpi_loop_last_improvement fuel j_truncate V policy history v policy' history' :
  tpi_loop env gamma fuel j_truncate V policy history = Ok (v, policy', history') →
  ∃ policy_prev,
    improve_sweep env gamma v (states env) policy_prev true = Ok (policy', true).
Proof.
  revert V policy history.
  induction fuel as [|fuel IH]; intros V policy history H; [done|].
  simpl in H. unbind H as V1 Ev. unbind H as [policy1 stable] Ei.
  destruct stable; [|by eapply IH].
  injection H as <- <- <-. by eauto.
Qed.

Lemma improve_sweep_first v policy stable policy' stable' :
  NoDup (action_keys env) →
  improve_sweep env gamma v (states env) policy stable = Ok (policy', stable') →
  ∀ s, s ∈ states env → s ≠ goal_pos env →
       ∃ a, policy' !! s = Some a ∧ first_greedy env gamma v s a.
Proof.
  intros Hnd (H1 & _)%improve_sweep_spec s Hs Hne.
  destruct (H1 s Hs Hne) as (a & Ha & Hp). exists a. split; [done|].
  by apply best_action_of_first.
Qed.

(** Among the greedy actions of a state the solvers take the one that
    comes first in [env.action_keys], when the action set lists no action
    twice: the policy of [value_iteration] against the table before its
    last sweep, the policies of the two policy iterations against the table
    they return. *)
Theorem ties_go_to_the_first_action theta j_truncate g fuel eval_fuel :
  NoDup (action_keys env) →
  (∀ v policy front V_prev,
     value_iteration env gamma theta fuel = Ok (v, policy, front ++ [V_prev; v]) →
     ∀ s, s ∈ states env → s ≠ goal_pos env →
          ∃ a, policy !! s = Some a ∧ first_greedy env gamma V_prev s a) ∧
  (∀ v policy history,
     policy_iteration env gamma theta g fuel eval_fuel = Ok (v, policy, history) →
     ∀ s, s ∈ states env → s ≠ goal_pos env →
          ∃ a, policy !! s = Some a ∧ first_greedy env gamma v s a) ∧
  (∀ v policy history,
     truncated_policy_iteration env gamma j_truncate g fuel = Ok (v, policy, history) →
     ∀ s, s ∈ states env → s ≠ goal_pos env →
          ∃ a, policy !! s = Some a ∧ first_greedy env gamma v s a).
Proof.
  intros Hnd. split_and!.
  - intros v policy front V_prev H s Hs Hne. unfold value_iteration in H.
    apply vi_loop_last in H as (front' & V' & policy_prev & delta & Hh & Hsweep & _);
      [|done].
    apply app_inj_2 in Hh as [_ [= ->]]; [|done].
    destruct (vi_sweep_best _ _ _ _ _ _ _ _ Hsweep s Hs Hne) as (a & Ha & Hb).
    exists a. split; [done|]. by apply best_action_of_first.
  - intros v policy history H. unfold policy_iteration in H. unbind H as policy0 E.
    apply pi_loop_last_improvement in H as [policy_prev H].
    by eapply improve_sweep_first.
  - intros v policy history H. unfold truncated_policy_iteration in H.
    unbind H as policy0 E.
    apply tpi_loop_last_improvement in H as [policy_prev H].
    by eapply improve_sweep_first.
Qed.

End Ties.

(** [policy_iteration] on [cliffwalk1]. *)
Lemma ties_go_to_the_first_action_witness :
  ∃ v policy history,
    policy_iteration Examples.env1 (Q2Qc (1 # 2)) (Q2Qc (1 # 10)) Examples.zeros 20 20
    = Ok (v, policy, history) ∧
    ∀ s, s ∈ states Examples.env1 → s ≠ goal_pos Examples.env1 →
         ∃ a, policy !! s = Some a ∧ first_greedy Examples.env1 (Q2Qc (1 # 2)) v s a.
Proof.
  assert (match policy_iteration Examples.env1 (Q2Qc (1 # 2)) (Q2Qc (1 # 10))
                  Examples.zeros 20 20
          with Ok _ => True | _ => False end) as Hok.
  { vm_compute. exact I. }
  destruct (policy_iteration Examples.env1 (Q2Qc (1 # 2)) (Q2Qc (1 # 10))
              Examples.zeros 20 20)
    as [[[v policy] history]| |] eqn:E; [|destruct Hok..].
  destruct (ties_go_to_the_first_action Examples.env1 (Q2Qc (1 # 2)) (Q2Qc (1 # 10))
              2 Examples.zeros 20 20) as (_ & H & _).
  - apply (bool_decide_unpack (NoDup (action_keys Examples.env1))). vm_compute. exact I.
  - exists v, policy, history. split; [reflexivity|]. exact (H v policy history E).
Defined.

End TieFacts.
